(** * Thai text normalisation (pythainlp.util.normalize)

    A shallow embedding of [pythainlp/util/normalize.py]: Python strings
    are lists of Unicode code points, Python integers are [Z], the
    module-level dictionary [consonants_repeaters] is a [gmap] threaded
    explicitly through the functions that read or rebuild it, regular
    expressions are syntax trees run by a backtracking matcher, and an
    operation that can raise returns a [result].  The definitions come
    first, the lemmas and the theorems on the specification after them. *)

From Stdlib Require Import ZArith NArith Bool Lia ZifyBool.
From stdpp Require Import base option list gmap.

Local Open Scope Z_scope.

(** ** Python values *)

(** A character is its code point; a [str] is a sequence of them. *)
Abbreviation char := N (only parsing).
Abbreviation str := (list N) (only parsing).

(** The two built-in exceptions the module can raise. *)
Inductive exn : Type :=
| IndexError
| KeyError.

Inductive result (A : Type) : Type :=
| Ok (a : A)
| Raise (e : exn).
Arguments Ok {A} a.
Arguments Raise {A} e.

#[global] Instance result_ret : MRet result := @Ok.
#[global] Instance result_bind : MBind result :=
  fun A B f m => match m with Ok a => f a | Raise e => Raise e end.

#[global] Instance result_fmap : FMap result :=
  fun A B f m => match m with Ok a => Ok (f a) | Raise e => Raise e end.

Definition is_Ok {A} (r : result A) : Prop := exists a, r = Ok a.

(** The longest prefix whose characters satisfy [P], and what follows
    it. *)
Fixpoint take_while (P : N -> bool) (s : list N) : list N :=
  match s with
  | c :: t => if P c then c :: take_while P t else []
  | [] => []
  end.

Fixpoint drop_while (P : N -> bool) (s : list N) : list N :=
  match s with
  | c :: t => if P c then drop_while P t else s
  | [] => []
  end.

Module Py.

Definition len {A} (l : list A) : Z := Z.of_nat (length l).

(** [l[i]]: a negative index counts from the end, anything out of range
    raises [IndexError]. *)
Definition index {A} (l : list A) (i : Z) : result A :=
  let k := if i <? 0 then len l + i else i in
  if k <? 0 then Raise IndexError
  else match l !! Z.to_nat k with
       | Some x => Ok x
       | None => Raise IndexError
       end.

(** Slice bounds are clamped, never raise. *)
Definition clamp (n i : Z) : Z :=
  if i <? 0 then Z.max (n + i) 0 else Z.min i n.

(** [l[start:stop]], an omitted bound being [None]. *)
Definition slice {A} (l : list A) (start stop : option Z) : list A :=
  let n := len l in
  let a := from_option (clamp n) 0 start in
  let b := from_option (clamp n) n stop in
  take (Z.to_nat (b - a)) (drop (Z.to_nat a) l).

(** [sub in s] on strings: substring test. *)
Fixpoint contains (sub s : str) : bool :=
  bool_decide (sub `prefix_of` s)
  || match s with
     | [] => false
     | _ :: t => contains sub t
     end.

(** [s.replace(old, new)] for a non-empty [old]: non-overlapping
    occurrences, left to right.  [skip] counts the characters of an
    occurrence that is being stepped over. *)
Fixpoint replace_from (old new : str) (skip : nat) (s : str) : str :=
  match s with
  | [] => []
  | c :: t =>
      match skip with
      | S k => replace_from old new k t
      | O =>
          if bool_decide (old `prefix_of` s)
          then new ++ replace_from old new (length old - 1) t
          else c :: replace_from old new 0 t
      end
  end.

(** With an empty [old], [new] is inserted around every character. *)
Definition replace (old new s : str) : str :=
  match old with
  | [] => new ++ flat_map (fun c => c :: new) s
  | _ :: _ => replace_from old new 0 s
  end.

(** [s.split(sep)] for a one-character separator. *)
Fixpoint split (sep : char) (s : str) : list str :=
  match s with
  | [] => [[]]
  | c :: t =>
      if N.eqb c sep then [] :: split sep t
      else match split sep t with
           | [] => [[c]]
           | w :: ws => (c :: w) :: ws
           end
  end.

(** [sep.join(parts)]. *)
Fixpoint join (sep : str) (parts : list str) : str :=
  match parts with
  | [] => []
  | [w] => w
  | w :: ws => w ++ sep ++ join sep ws
  end.

(** The code points Python's [str] treats as whitespace
    ([str.isspace], [str.strip]). *)
Definition is_space (c : char) : bool :=
  ((9 <=? c) && (c <=? 13) || (28 <=? c) && (c <=? 32)
   || (c =? 0x85) || (c =? 0xA0) || (c =? 0x1680)
   || (0x2000 <=? c) && (c <=? 0x200A)
   || (c =? 0x2028) || (c =? 0x2029) || (c =? 0x202F)
   || (c =? 0x205F) || (c =? 0x3000))%N.

(** [s.isspace()]: at least one character, all of them whitespace. *)
Definition isspace (s : str) : bool :=
  match s with
  | [] => false
  | _ => forallb is_space s
  end.

Definition lstrip (s : str) : str := drop_while is_space s.

Definition rstrip (s : str) : str := reverse (lstrip (reverse s)).

(** [s.strip()]. *)
Definition strip (s : str) : str := rstrip (lstrip s).

End Py.

(** ** The repeat-consonant resolver *)

(** The module-level dictionary [consonants_repeaters]:
    consonant -> words that end with that consonant repeated. *)
Abbreviation repeaters_index := (gmap N (list (list N))) (only parsing).

(** [d[k]] on a dict: a missing key raises [KeyError]. *)
Definition dict_get {V} (d : gmap N V) (k : char) : result V :=
  match d !! k with
  | Some v => Ok v
  | None => Raise KeyError
  end.

Section Resolver.

(** [thai_consonants] and the default word list [thai_words()] are
    imported from the [pythainlp] package, which lies outside this
    module; they are taken as parameters here. *)
Variable consonants : str.
Variable thai_words : list str.

(** Loop of [_get_repitition_head]: one unit of [fuel] per test of the
    loop condition. *)
Fixpoint _get_repitition_head_loop (fuel : nat) (head : str) (dup : char)
  : result str :=
  match fuel with
  | O => Ok head
  | S fuel' =>
      again ← (if 0 <? Py.len head
                then c ← Py.index head (-1); mret (N.eqb c dup)
                else mret false);
      if (again : bool)
      then _get_repitition_head_loop fuel' (Py.slice head None (Some (-1))) dup
      else mret head
  end.

Definition _get_repitition_head (text : str) (dup : char) : result str :=
  _get_repitition_head_loop (S (length text)) text dup.

Definition _is_consonant_repeater (word : str) : result bool :=
  if 1 <? Py.len word then
    a ← Py.index word (-1);
    b ← Py.index word (-2);
    if N.eqb a b
    then c ← Py.index word (-1); mret (Py.contains [c] consonants)
    else mret false
  else mret false.

(** [_update_consonant_repeaters]: reset every consonant's list, then
    append the repeaters in the dictionary's iteration order. *)
Definition _update_consonant_repeaters
    (dictionary : list str) (st : repeaters_index) : result repeaters_index :=
  let st0 := foldl (fun m c => <[c := []]> m) st consonants in
  foldl (fun acc word =>
           m ← acc;
           r ← _is_consonant_repeater word;
           if (r : bool) then
             k ← Py.index word (-1);
             l ← dict_get m k;
             mret (<[k := l ++ [word]]> m)
           else mret m)
        (Ok st0) dictionary.

(** One iteration of the scan in
    [_find_longest_consonant_repeaters_match]. *)
Definition match_step (segment_head : str) (best : str * Z) (repeater : str)
  : result (str * Z) :=
  let '(longest_word, repetition) := best in
  d ← Py.index repeater (-1);
  repeater_head ← _get_repitition_head repeater d;
  if (Py.len repeater_head <=? Py.len segment_head)
     && bool_decide (Py.slice segment_head (Some (- Py.len repeater_head)) None
                     = repeater_head)
     && (Py.len longest_word <? Py.len repeater)
  then mret (repeater, Py.len repeater - Py.len repeater_head)
  else mret (longest_word, repetition).

Definition _find_longest_consonant_repeaters_match
    (segment_head : str) (repeaters : list str) : result (str * Z) :=
  foldl (fun acc repeater => best ← acc; match_step segment_head best repeater)
        (Ok ([], 0)) repeaters.

(** [(len(segment) > 1) and (segment[-1] in consonants)
     and (segment[-1] == segment[-2])] *)
Definition is_target (segment : str) : result bool :=
  if 1 <? Py.len segment then
    a ← Py.index segment (-1);
    if Py.contains [a] consonants
    then x ← Py.index segment (-1); y ← Py.index segment (-2);
         mret (N.eqb x y)
    else mret false
  else mret false.

Definition _remove_repeat_consonants_from_segment
    (st : repeaters_index) (segment : str) : result str :=
  target ← is_target segment;
  if negb target then mret segment
  else
    dup ← Py.index segment (-1);
    repeaters ← dict_get st dup;
    segment_head ← _get_repitition_head segment dup;
    '(longest_word, repetition) ←
      _find_longest_consonant_repeaters_match segment_head repeaters;
    if 0 <? Py.len longest_word
    then mret (segment_head ++ replicate (Z.to_nat repetition) dup)
    else mret (segment_head ++ replicate 1 dup).

(** [remove_repeat_consonants]: returns the text and the dictionary
    [consonants_repeaters] as the call leaves it. *)
Definition remove_repeat_consonants
    (st : repeaters_index) (text : str) (dictionary : option (list str))
    (dictionary_updated : bool) : result (str * repeaters_index) :=
  let dictionary := from_option id thai_words dictionary in
  st' ← (if dictionary_updated
          then _update_consonant_repeaters dictionary st
          else mret st);
  modified_lines ←
    mapM (fun line =>
            segments ← mapM (_remove_repeat_consonants_from_segment st')
                            (Py.split 32%N line);
            mret (Py.join [32%N] segments))
         (Py.split 10%N text);
  mret (Py.join [10%N] modified_lines, st').

End Resolver.

(** *** Vocabulary of the resolver's specification *)

(** Length of the run of [c] that starts [s]. *)
Fixpoint leading_run (c : char) (s : str) : nat :=
  match s with
  | [] => O
  | x :: t => if N.eqb x c then S (leading_run c t) else O
  end.

(** Length of the run of [c] that ends [s]. *)
Definition trailing_run (c : char) (s : str) : nat :=
  leading_run c (reverse s).

(** [s] with its trailing run of [c] removed: the "stripped head". *)
Definition stripped_head (c : char) (s : str) : str :=
  take (length s - trailing_run c s) s.

(** The stripped head of a candidate word, taken with respect to the
    word's own last character. *)
Definition candidate_head (w : str) : str :=
  match last w with
  | Some d => stripped_head d w
  | None => []
  end.

(** The test the scan applies to a candidate, as the code evaluates it:
    the candidate's stripped head is a suffix of the segment head, and
    when it is empty the segment head is empty too (the slice
    [segment_head[-0:]] is the whole of [segment_head]). *)
Definition head_matches (segment_head repeater : str) : Prop :=
  candidate_head repeater `suffix_of` segment_head
  ∧ (candidate_head repeater = [] -> segment_head = []).

#[global] Instance head_matches_dec (h r : str) : Decision (head_matches h r).
Proof. unfold head_matches. apply _. Defined.

(** A word that ends with a consonant written twice. *)
Definition ends_doubled (consonants : str) (w : str) : bool :=
  match reverse w with
  | a :: b :: _ => N.eqb a b && Py.contains [a] consonants
  | _ => false
  end.

(** The index as a rebuild leaves it: every consonant has an entry, and
    each word stored under [c] ends with [cc]. *)
Definition index_built (consonants : str) (st : gmap N (list (list N))) : Prop :=
  forall c, c ∈ consonants ->
    exists l, st !! c = Some l ∧ forall w, w ∈ l -> exists body, w = body ++ [c; c].

(** ** The repetition-mark expander *)

(** ["ๆ"] and [" ๆ"]. *)
Definition mark : str := [0x0E46%N].
Definition space_mark : str := [32%N; 0x0E46%N].

Section Maiyamok.

(** [word_tokenize] belongs to [pythainlp.tokenize]; it is a parameter. *)
Variable word_tokenize : str -> list str.

(** The body of the [for j, text in enumerate(sent)] loop, on the pair
    [(_list_word, i)]. *)
Definition maiyamok_body (sent : list str) (j : Z) (text : str)
    (st : list str * Z) : result (list str * Z) :=
  let '(_list_word, i) := st in
  skip ← (if Py.isspace text
           then nxt ← Py.index sent (j + 1); mret (Py.contains mark nxt)
           else mret false);
  if (skip : bool) then mret (_list_word, i)
  else
    let text :=
      if Py.contains space_mark text then Py.replace space_mark mark text
      else text in
    if bool_decide (mark = text) then
      text ← Py.index _list_word (i - 1);
      mret (_list_word ++ [text], i + 1)
    else if Py.contains mark text then
      let text := Py.replace mark [] text in
      mret ((_list_word ++ [text]) ++ [text], i + 1 + 1)
    else mret (_list_word ++ [text], i + 1).

Fixpoint maiyamok_loop (sent : list str) (j : Z) (rest : list str)
    (st : list str * Z) : result (list str * Z) :=
  match rest with
  | [] => mret st
  | text :: rest' =>
      st' ← maiyamok_body sent j text st;
      maiyamok_loop sent (j + 1) rest' st'
  end.

(** [if isinstance(sent, str): sent = word_tokenize(sent)] *)
Definition tokens_of (sent : str + list str) : list str :=
  match sent with
  | inl s => word_tokenize s
  | inr l => l
  end.

Definition maiyamok (sent : str + list str) : result (list str) :=
  let sent := tokens_of sent in
  fst <$> maiyamok_loop sent 0 sent ([], 0).

End Maiyamok.

(** *** Vocabulary of the expander's specification *)

(** The look-ahead test of the loop. *)
Definition suppressed (sent : list str) (j : Z) (text : str) : result bool :=
  if Py.isspace text
  then nxt ← Py.index sent (j + 1); mret (Py.contains mark nxt)
  else mret false.




(** ** Regular expressions

    The fragment of Python's [re] the module uses: literals, character
    classes, [^], concatenation, greedy [*] and [+], capturing groups.
    Matching is by backtracking, the way [re] does it: leftmost start,
    greedy repetition that gives back one iteration at a time. *)

Inductive regex : Type :=
| Lit (c : char)
| Cls (cs : str)
| NCls (cs : str)
| Bol
| Cat (r1 r2 : regex)
| Star (r : regex)
| Grp (n : nat) (r : regex).

(** [r+] *)
Definition Plus (r : regex) : regex := Cat r (Star r).

(** Membership in a character class. *)
Definition in_class (cs : str) (c : char) : bool := bool_decide (c ∈ cs).

(** Captured groups, the latest capture of a group first. *)
Abbreviation captures := (list (nat * list N)) (only parsing).

(** The loop of a greedy repetition of [body], followed by [k]: one more
    iteration is tried before stopping is.  [n] bounds the number of
    iterations. *)
Fixpoint iterate
    (body : bool -> str -> captures ->
            (bool -> str -> captures -> option (str * captures)) ->
            option (str * captures))
    (k : bool -> str -> captures -> option (str * captures))
    (n : nat) (b : bool) (s : str) (g : captures) : option (str * captures) :=
  match n with
  | O => k b s g
  | S n' =>
      match body b s g (fun b' s' g' => iterate body k n' b' s' g') with
      | Some res => Some res
      | None => k b s g
      end
  end.

(** [rmatch r bol s g k]: match [r] at the front of [s], then hand the
    rest to the continuation [k]; [None] makes the caller backtrack.
    [bol] tells whether [s] is the whole text (position 0).  The body of
    a [Star] consumes at least one character in every pattern of the
    module, so at most [length s] iterations are possible. *)
Fixpoint rmatch (r : regex) (bol : bool) (s : str) (g : captures)
    (k : bool -> str -> captures -> option (str * captures))
  : option (str * captures) :=
  match r with
  | Lit c =>
      match s with
      | x :: t => if N.eqb x c then k false t g else None
      | [] => None
      end
  | Cls cs =>
      match s with
      | x :: t => if in_class cs x then k false t g else None
      | [] => None
      end
  | NCls cs =>
      match s with
      | x :: t => if in_class cs x then None else k false t g
      | [] => None
      end
  | Bol => if bol then k bol s g else None
  | Cat r1 r2 => rmatch r1 bol s g (fun b s' g' => rmatch r2 b s' g' k)
  | Star r1 => iterate (rmatch r1) k (length s) bol s g
  | Grp i r1 =>
      rmatch r1 bol s g
        (fun b s' g' => k b s' ((i, take (length s - length s') s) :: g'))
  end.

(** A match object: the matched text and the groups. *)
Record match_obj : Type := MatchObj {
  m_text : list N;
  m_groups : list (nat * list N)
}.

(** [m.group(n)]; a group that took no part in the match gives the empty string in a
    replacement template. *)
Definition group (m : match_obj) (n : nat) : str :=
  match n with
  | O => m_text m
  | S _ =>
      match list_find (fun p => fst p = n) (m_groups m) with
      | Some (_, (_, v)) => v
      | None => []
      end
  end.

(** The continuation that ends a match. *)
Definition accept : bool -> str -> captures -> option (str * captures) :=
  fun _ s' g => Some (s', g).

(** What a left-to-right scan for non-overlapping matches finds: text
    that is kept, and matches. *)
Inductive piece : Type :=
| Keep (c : char)
| Hit (m : match_obj).

(** The scan of [pattern.sub]: try a match at the current position; after
    a match go on from its end, otherwise keep one character.  An empty
    match is replaced and the next character kept.  One unit of [fuel] per
    position tried. *)
Fixpoint scan (fuel : nat) (r : regex) (bol : bool) (s : str) : list piece :=
  match fuel with
  | O => []
  | S fuel' =>
      let step :=
        match s with
        | [] => []
        | c :: t => Keep c :: scan fuel' r false t
        end in
      match rmatch r bol s [] accept with
      | Some (s', g) =>
          let n := (length s - length s')%nat in
          Hit (MatchObj (take n s) g)
          :: (if (0 <? n)%nat then scan fuel' r false s' else step)
      | None => step
      end
  end.

(** The output of a substitution: kept text as it is, each match
    replaced by what [repl] returns for it. *)
Definition sub_pieces (repl : match_obj -> result str) (ps : list piece)
  : result str :=
  parts ← mapM (fun p => match p with
                         | Keep c => mret [c]
                         | Hit m => repl m
                         end) ps;
  mret (concat parts).

(** [pattern.sub(repl, text)] with a callable [repl]. *)
Definition re_sub (r : regex) (repl : match_obj -> result str) (text : str)
  : result str :=
  sub_pieces repl (scan (S (length text)) r true text).

(** *** The matcher on a repeated class *)

(** A greedy [[cs]*] followed by [k]: the longest run first, then one
    character less at a time. *)
Fixpoint star_cls (cs : str)
    (k : bool -> str -> captures -> option (str * captures))
    (b : bool) (s : str) (g : captures) : option (str * captures) :=
  match s with
  | [] => k b [] g
  | c :: t =>
      if in_class cs c
      then match star_cls cs k false t g with
           | Some res => Some res
           | None => k b s g
           end
      else k b s g
  end.

(** *** Vocabulary of the collapse passes *)

(** Every maximal run of characters satisfying [P] reduced to its last
    character: a character of the class is dropped exactly when the next
    character is of the class too. *)
Fixpoint keep_last_of_runs (P : N -> bool) (s : str) : str :=
  match s with
  | [] => []
  | c :: t =>
      if P c && match t with x :: _ => P x | [] => false end
      then keep_last_of_runs P t
      else c :: keep_last_of_runs P t
  end.

(** The space character, as a class. *)
Definition is_sp (c : char) : bool := N.eqb c 32.

(** Space or newline. *)
Definition is_blank (c : char) : bool := in_class [32; 10]%N c.

(** Every maximal run of blanks that holds a newline replaced by one
    newline; [replaced] tells that the characters at hand continue a run
    already replaced. *)
Fixpoint newline_runs (replaced : bool) (s : str) : str :=
  match s with
  | [] => []
  | c :: t =>
      if is_blank c then
        if replaced then newline_runs true t
        else if in_class (take_while is_blank s) 10%N
             then 10%N :: newline_runs true t
             else c :: newline_runs false t
      else c :: newline_runs false t
  end.

(** No two neighbouring characters are both blank. *)
Fixpoint no_adjacent_blanks (s : str) : bool :=
  match s with
  | [] => true
  | c :: t =>
      negb (is_blank c && match t with x :: _ => is_blank x | [] => false end)
      && no_adjacent_blanks t
  end.

(** A replacement template: literal characters and group references. *)
Inductive titem : Type :=
| TChr (c : char)
| TRef (n : nat).

Definition expand (tpl : list titem) (m : match_obj) : result str :=
  mret (flat_map (fun it => match it with
                            | TChr c => [c]
                            | TRef n => group m n
                            end) tpl).

(** ** The normalisation passes *)

Definition _ZERO_WIDTH_CHARS : str := [0x200B; 0x200C]%N.

Definition _RE_REMOVE_NEWLINES : regex :=
  Cat (Star (Cls [32; 10]%N)) (Cat (Lit 10%N) (Star (Cls [32; 10]%N))).

(** [while old in text: text = text.replace(old, new)] *)
Fixpoint replace_while (fuel : nat) (old new text : str) : str :=
  match fuel with
  | O => text
  | S fuel' =>
      if Py.contains old text
      then replace_while fuel' old new (Py.replace old new text)
      else text
  end.

(** [_last_char] *)
Definition _last_char (matchobj : match_obj) : result str :=
  c ← Py.index (group matchobj 0) (-1); mret [c].

Definition remove_dup_spaces (text : str) : result str :=
  let text := replace_while (length text) [32; 32]%N [32%N] text in
  text ← re_sub _RE_REMOVE_NEWLINES (expand [TChr 10%N]) text;
  mret (Py.strip text).

Definition remove_zw (text : str) : str :=
  foldl (fun text ch => replace_while (length text) [ch] [] text)
        text _ZERO_WIDTH_CHARS.

Section Normalize.

(** The vowel and tone-mark tables of the [pythainlp] package.  The
    patterns interpolate them into character classes; they hold Thai
    letters only, none of which is special in a pattern. *)
Variables above_v below_v follow_v lead_v tonemarks : str.

Definition _DANGLING_CHARS : str :=
  above_v ++ below_v ++ tonemarks ++ [0x0E3A; 0x0E4C; 0x0E4D; 0x0E4E]%N.

Definition _RE_REMOVE_DANGLINGS : regex := Cat Bol (Plus (Cls _DANGLING_CHARS)).

Definition _REORDER_PAIRS : list (regex * list titem) :=
  [ (Cat (Lit 0x0E40%N) (Lit 0x0E40%N), [TChr 0x0E41%N]);
    (Cat (Grp 1 (Plus (Cls (tonemarks ++ [0x0E4C%N]))))
         (Grp 2 (Plus (Cls (above_v ++ below_v)))),
     [TRef 2; TRef 1]);
    (Cat (Lit 0x0E4D%N) (Cat (Grp 1 (Star (Cls tonemarks))) (Lit 0x0E32%N)),
     [TRef 1; TChr 0x0E33%N]);
    (Cat (Grp 1 (Plus (Cls follow_v))) (Grp 2 (Plus (Cls tonemarks))),
     [TRef 2; TRef 1]);
    (Cat (Grp 1 (NCls [0x0E24; 0x0E26]%N)) (Lit 0x0E45%N),
     [TRef 1; TChr 0x0E32%N]) ].

Definition _NOREPEAT_CHARS : str :=
  follow_v ++ lead_v ++ above_v ++ below_v
  ++ [0x0E3A; 0x0E4C; 0x0E4D; 0x0E4E]%N.

Definition _NOREPEAT_PAIRS : list (regex * list titem) :=
  map (fun ch =>
         (Cat (Plus (Grp 1 (Cat (Lit ch) (Star (Cls [32%N]))))) (Lit ch),
          [TChr ch]))
      _NOREPEAT_CHARS.

Definition _RE_TONEMARKS : regex := Plus (Cls tonemarks).

Definition remove_dangling (text : str) : result str :=
  re_sub _RE_REMOVE_DANGLINGS (expand []) text.

(** [for pair in pairs: text = re.sub(pair[0], pair[1], text)] *)
Definition sub_pairs (pairs : list (regex * list titem)) (text : str)
  : result str :=
  foldl (fun acc pair => text ← acc; re_sub (fst pair) (expand (snd pair)) text)
        (Ok text) pairs.

Definition reorder_vowels (text : str) : result str :=
  sub_pairs _REORDER_PAIRS text.

Definition remove_repeat_vowels (text : str) : result str :=
  text ← reorder_vowels text;
  text ← sub_pairs _NOREPEAT_PAIRS text;
  re_sub _RE_TONEMARKS _last_char text.

Definition normalize (text : str) : result str :=
  let text := remove_zw text in
  text ← remove_dup_spaces text;
  text ← remove_repeat_vowels text;
  remove_dangling text.

(** The characters that the rewrite rules, the collapse patterns and the
    trimmer look for. *)
Definition rule_chars : str :=
  above_v ++ below_v ++ follow_v ++ lead_v ++ tonemarks
  ++ [0x0E3A; 0x0E40; 0x0E45; 0x0E4C; 0x0E4D; 0x0E4E]%N.

End Normalize.

(** [demands P r]: every text matched by [r] holds a character that
    satisfies [P]. *)
Fixpoint demands (P : N -> bool) (r : regex) : bool :=
  match r with
  | Lit c => P c
  | Cls cs => forallb P cs
  | NCls _ => false
  | Bol => false
  | Cat r1 r2 => demands P r1 || demands P r2
  | Star _ => false
  | Grp _ r1 => demands P r1
  end.

(** ** Further functions of the module *)

(** [remove_tonemark]: [for ch in tonemarks: while ch in text:
    text = text.replace(ch, "")]. *)
Definition remove_tonemark (tonemarks : str) (text : str) : str :=
  foldl (fun text ch => replace_while (length text) [ch] [] text)
        text tonemarks.

(** *** Vocabulary for the further properties *)

(** [w] ends with [c] written twice. *)
Definition ends_with_double (c : char) (w : str) : bool :=
  match reverse w with
  | a :: b :: _ => N.eqb a c && N.eqb b c
  | _ => false
  end.

(** No two neighbouring characters both satisfy [P]. *)
Fixpoint no_adjacent (P : N -> bool) (s : str) : bool :=
  match s with
  | [] => true
  | c :: t =>
      negb (P c && match t with x :: _ => P x | [] => false end)
      && no_adjacent P t
  end.

(** [follows ch t]: the first character of [t] that is not a space is
    [ch]. *)
Definition follows (ch : char) (t : str) : bool :=
  match drop_while is_sp t with
  | x :: _ => N.eqb x ch
  | [] => false
  end.

(** Every chain of occurrences of [ch] with nothing but spaces between
    them reduced to its last occurrence: an occurrence that is followed,
    after any number of spaces, by another one is dropped together with
    those spaces.  [dropping] tells that the characters at hand come
    after a dropped occurrence. *)
Fixpoint collapse_chains (ch : char) (dropping : bool) (s : str) : str :=
  match s with
  | [] => []
  | c :: t =>
      if N.eqb c ch then
        if follows ch t then collapse_chains ch true t
        else c :: collapse_chains ch false t
      else if dropping && is_sp c then collapse_chains ch true t
      else c :: collapse_chains ch false t
  end.

(** No occurrence of [ch] is followed, after any number of spaces, by
    another one. *)
Fixpoint chain_free (ch : char) (s : str) : bool :=
  match s with
  | [] => true
  | c :: t => negb (N.eqb c ch && follows ch t) && chain_free ch t
  end.

(** For a text [t] that comes after an occurrence of [ch]: what is left
    of [t] after the longest chain of further occurrences, each after any
    number of spaces; [None] when no occurrence follows. *)
Fixpoint after_chain (ch : char) (t : str) : option str :=
  match t with
  | [] => None
  | c :: t' =>
      if is_sp c then after_chain ch t'
      else if N.eqb c ch
           then Some (from_option id t' (after_chain ch t'))
           else None
  end.

(** The characters of a text that are not whitespace, in order. *)
Definition visible (s : str) : str :=
  filter (fun c => Py.is_space c = false) s.

(** ** Character tables *)

(** Modelled from the spec: the character-class tables ("static sets of
  codepoints": consonants, tone marks, above, below, leading and
  following vowels) that [normalize.py] imports from the [pythainlp]
  package; that package's [__init__] is not part of the sources at hand.
  The values are the Thai Unicode block's. *)
Module Thai.

(** ก .. ฮ without ฤ (0E24) and ฦ (0E26). *)
Definition consonants : str :=
  [0x0E01; 0x0E02; 0x0E03; 0x0E04; 0x0E05; 0x0E06; 0x0E07; 0x0E08;
   0x0E09; 0x0E0A; 0x0E0B; 0x0E0C; 0x0E0D; 0x0E0E; 0x0E0F; 0x0E10;
   0x0E11; 0x0E12; 0x0E13; 0x0E14; 0x0E15; 0x0E16; 0x0E17; 0x0E18;
   0x0E19; 0x0E1A; 0x0E1B; 0x0E1C; 0x0E1D; 0x0E1E; 0x0E1F; 0x0E20;
   0x0E21; 0x0E22; 0x0E23; 0x0E25; 0x0E27; 0x0E28; 0x0E29; 0x0E2A;
   0x0E2B; 0x0E2C; 0x0E2D; 0x0E2E]%N.

Definition lead_vowels : str := [0x0E40; 0x0E41; 0x0E42; 0x0E43; 0x0E44]%N.
Definition follow_vowels : str := [0x0E30; 0x0E32; 0x0E33; 0x0E45]%N.
Definition above_vowels : str :=
  [0x0E31; 0x0E34; 0x0E35; 0x0E36; 0x0E37; 0x0E4D; 0x0E47]%N.
Definition below_vowels : str := [0x0E38; 0x0E39]%N.
Definition tonemarks : str := [0x0E48; 0x0E49; 0x0E4A; 0x0E4B]%N.

End Thai.


(** ** Sample inputs *)

Module Sample.

(** อืมม *)
Definition um2 : str := [0x0E2D; 0x0E37; 0x0E21; 0x0E21]%N.
(** อืมมมมม, the custom dictionary word of the docstring *)
Definition um5 : str :=
  [0x0E2D; 0x0E37; 0x0E21; 0x0E21; 0x0E21; 0x0E21; 0x0E21]%N.
(** กก *)
Definition kk : str := [0x0E01; 0x0E01]%N.
(** มึน *)
Definition muen : str := [0x0E21; 0x0E36; 0x0E19]%N.
(** งง *)
Definition ngong : str := [0x0E07; 0x0E07]%N.
(** มึนงงง *)
Definition muen_ngong3 : str := muen ++ [0x0E07; 0x0E07; 0x0E07]%N.
(** กดด *)
Definition kdd : str := [0x0E01; 0x0E14; 0x0E14]%N.
(** เริ่ดดด *)
Definition roed3 : str :=
  [0x0E40; 0x0E23; 0x0E34; 0x0E48; 0x0E14; 0x0E14; 0x0E14]%N.

(** ดี and ดี followed by a space, ดีๆ, "ดี ๆ" *)
Definition di : str := [0x0E14; 0x0E35]%N.
Definition di_space_mark : str := [0x0E14; 0x0E35; 32; 0x0E46]%N.
(** คน *)
Definition khon : str := [0x0E04; 0x0E19]%N.

(** ก, two spaces, ข, two newlines, a space, ค, a space *)
Definition spaced : str :=
  [0x0E01; 32; 32; 0x0E02; 10; 10; 32; 0x0E04; 32]%N.
(** ก with the marks U+0E48 U+0E34 U+0E48 U+0E34 *)
Definition k_marks : str := [0x0E01; 0x0E48; 0x0E34; 0x0E48; 0x0E34]%N.

(** อืมม, a space, กดดด, a newline, กก *)
Definition two_lines : str :=
  [0x0E2D; 0x0E37; 0x0E21; 0x0E21; 32; 0x0E01; 0x0E14; 0x0E14; 0x0E14; 10;
   0x0E01; 0x0E01]%N.

(** กะะ ะข ะ: ก, Sara A twice, a space, Sara A, ข, a space, Sara A *)
Definition ka_chain : str :=
  [0x0E01; 0x0E30; 0x0E30; 32; 0x0E30; 0x0E02; 32; 0x0E30]%N.

End Sample.
(** ** Facts about the Python primitives *)

Lemma is_Ok_Ok {A} (a : A) : is_Ok (Ok a).
Proof. by exists a. Qed.

Lemma not_is_Ok_Raise {A} (e : exn) : ¬ @is_Ok A (Raise e).
Proof. by intros [a Ha]. Qed.

Module PyFacts.

Lemma len_app {A} (l k : list A) : Py.len (l ++ k) = Py.len l + Py.len k.
Proof. unfold Py.len. rewrite length_app. lia. Qed.

Lemma len_nonneg {A} (l : list A) : 0 <= Py.len l.
Proof. unfold Py.len. lia. Qed.

Lemma index_nil {A} (i : Z) : Py.index (@nil A) i = Raise IndexError.
Proof.
  unfold Py.index. destruct (_ <? 0); [done | by rewrite lookup_nil].
Qed.

Lemma index_neg {A} (l : list A) (n : nat) :
  (0 < n <= length l)%nat ->
  Py.index l (- Z.of_nat n)
  = match l !! (length l - n)%nat with Some x => Ok x | None => Raise IndexError end.
Proof.
  intros Hn. unfold Py.index, Py.len.
  destruct (- Z.of_nat n <? 0) eqn:E; [| lia].
  destruct (Z.of_nat (length l) + - Z.of_nat n <? 0) eqn:E'; [lia |].
  by replace (Z.to_nat (Z.of_nat (length l) + - Z.of_nat n))
    with (length l - n)%nat by lia.
Qed.

Lemma index_last {A} (h : list A) (x : A) : Py.index (h ++ [x]) (-1) = Ok x.
Proof.
  change (-1) with (- Z.of_nat 1). rewrite index_neg.
  - rewrite length_app. cbn [length].
    replace (length h + 1 - 1)%nat with (length h) by lia.
    by rewrite list_lookup_middle.
  - rewrite length_app. cbn [length]. lia.
Qed.

Lemma index_last_of_two {A} (h : list A) (y x : A) :
  Py.index (h ++ [y; x]) (-1) = Ok x.
Proof.
  replace (h ++ [y; x]) with ((h ++ [y]) ++ [x]) by (by rewrite <- app_assoc).
  apply index_last.
Qed.

Lemma index_last2 {A} (h : list A) (y x : A) :
  Py.index (h ++ [y; x]) (-2) = Ok y.
Proof.
  change (-2) with (- Z.of_nat 2). rewrite index_neg.
  - rewrite length_app. cbn [length].
    replace (length h + 2 - 2)%nat with (length h) by lia.
    by rewrite list_lookup_middle.
  - rewrite length_app. cbn [length]. lia.
Qed.

(** [l[j]] for an index one past the end. *)
Lemma index_past_end {A} (l : list A) : Py.index l (Py.len l) = Raise IndexError.
Proof.
  unfold Py.index, Py.len.
  destruct (Z.of_nat (length l) <? 0) eqn:E; [lia |].
  cbv beta iota zeta. rewrite E, Nat2Z.id. by rewrite lookup_ge_None_2.
Qed.

Lemma index_nat {A} (l : list A) (j : nat) :
  Py.index l (Z.of_nat j)
  = match l !! j with Some x => Ok x | None => Raise IndexError end.
Proof.
  unfold Py.index.
  destruct (Z.of_nat j <? 0) eqn:E; [lia |].
  cbv beta iota zeta. by rewrite E, Nat2Z.id.
Qed.

(** [l[:-1]] drops the last element. *)
Lemma slice_drop_last {A} (h : list A) (x : A) :
  Py.slice (h ++ [x]) None (Some (-1)) = h.
Proof.
  unfold Py.slice, Py.clamp, from_option, Py.len.
  rewrite length_app. cbn [length].
  destruct (-1 <? 0) eqn:E; [| lia].
  rewrite drop_0.
  replace (Z.to_nat (Z.max (Z.of_nat (length h + 1) + -1) 0 - 0))
    with (length h) by lia.
  by rewrite take_app_length.
Qed.

(** [s[-0:]] is the whole string. *)
Lemma slice_minus_zero {A} (s : list A) : Py.slice s (Some (- 0)) None = s.
Proof.
  unfold Py.slice, Py.clamp, from_option, Py.len.
  destruct (- 0 <? 0) eqn:E; [lia |].
  replace (Z.to_nat (Z.min (- 0) (Z.of_nat (length s)))) with 0%nat by lia.
  rewrite drop_0. apply take_ge. lia.
Qed.

(** [s[-n:]] for [0 < n <= len(s)] is the last [n] characters. *)
Lemma slice_last_n {A} (s : list A) (n : nat) :
  (0 < n <= length s)%nat ->
  Py.slice s (Some (- Z.of_nat n)) None = drop (length s - n) s.
Proof.
  intros Hn. unfold Py.slice, Py.clamp, from_option, Py.len.
  destruct (- Z.of_nat n <? 0) eqn:E; [| lia].
  replace (Z.to_nat (Z.max (Z.of_nat (length s) + - Z.of_nat n) 0))
    with (length s - n)%nat by lia.
  apply take_ge. rewrite length_drop. lia.
Qed.

Lemma contains_char (c : char) (s : str) :
  Py.contains [c] s = true <-> c ∈ s.
Proof.
  induction s as [|x t IH]; cbn.
  - rewrite orb_false_r, bool_decide_eq_true. split.
    + intros H. by apply prefix_nil_inv in H.
    + intros H. by apply elem_of_nil in H.
  - rewrite orb_true_iff, bool_decide_eq_true, IH, elem_of_cons. split.
    + intros [H | H]; [left | by right].
      apply prefix_cons_inv_1 in H. done.
    + intros [-> | H]; [left | by right].
      apply prefix_cons, prefix_nil.
Qed.

Lemma contains_char_false (c : char) (s : str) :
  Py.contains [c] s = false <-> c ∉ s.
Proof.
  rewrite <- contains_char. by destruct (Py.contains [c] s).
Qed.

End PyFacts.

(** ** The repeat-consonant resolver: auxiliary facts *)

Section ResolverFacts.

Variable consonants : str.

Lemma trailing_run_nil (c : char) : trailing_run c [] = O.
Proof. reflexivity. Qed.

Lemma trailing_run_snoc (c x : char) (h : str) :
  trailing_run c (h ++ [x])
  = if N.eqb x c then S (trailing_run c h) else O.
Proof. unfold trailing_run. by rewrite reverse_snoc. Qed.

Lemma trailing_run_le (c : char) (s : str) : (trailing_run c s <= length s)%nat.
Proof.
  induction s as [|x h IH] using rev_ind; [done |].
  rewrite trailing_run_snoc, length_app. cbn [length].
  destruct (N.eqb x c); lia.
Qed.

Lemma stripped_head_nil (c : char) : stripped_head c [] = [].
Proof. reflexivity. Qed.

Lemma stripped_head_snoc (c x : char) (h : str) :
  stripped_head c (h ++ [x])
  = if N.eqb x c then stripped_head c h else h ++ [x].
Proof.
  unfold stripped_head. rewrite trailing_run_snoc, length_app. cbn [length].
  pose proof (trailing_run_le c h) as Hle.
  destruct (N.eqb x c).
  - replace (length h + 1 - S (trailing_run c h))%nat
      with (length h - trailing_run c h)%nat by lia.
    apply take_app_le. lia.
  - apply take_ge. rewrite length_app. cbn [length]. lia.
Qed.

(** The segment is its stripped head followed by its trailing run. *)
Lemma stripped_head_run (c : char) (s : str) :
  s = stripped_head c s ++ replicate (trailing_run c s) c.
Proof.
  induction s as [|x h IH] using rev_ind; [done |].
  rewrite stripped_head_snoc, trailing_run_snoc.
  destruct (N.eqb x c) eqn:E.
  - apply N.eqb_eq in E. subst x.
    rewrite replicate_S_end, app_assoc. by rewrite <- IH.
  - by rewrite app_nil_r.
Qed.

Lemma stripped_head_length (c : char) (s : str) :
  length s = (length (stripped_head c s) + trailing_run c s)%nat.
Proof.
  rewrite (stripped_head_run c s) at 1. by rewrite length_app, length_replicate.
Qed.

(** The stripped head does not end with the stripped character. *)
Lemma stripped_head_last (c : char) (s : str) : last (stripped_head c s) ≠ Some c.
Proof.
  induction s as [|x h IH] using rev_ind; [done |].
  rewrite stripped_head_snoc. destruct (N.eqb x c) eqn:E; [done |].
  rewrite last_snoc. intros [= ->]. by rewrite N.eqb_refl in E.
Qed.

Lemma trailing_run_app_replicate (c : char) (h : str) (n : nat) :
  last h ≠ Some c -> trailing_run c (h ++ replicate n c) = n.
Proof.
  intros Hl. induction n as [|n IH].
  - rewrite app_nil_r. destruct h as [|x h] using rev_ind; [done |].
    rewrite trailing_run_snoc. destruct (N.eqb x c) eqn:E; [| done].
    apply N.eqb_eq in E. subst. by rewrite last_snoc in Hl.
  - rewrite replicate_S_end, app_assoc, trailing_run_snoc, N.eqb_refl.
    by rewrite IH.
Qed.

Lemma get_repitition_head_loop_spec (dup : char) (fuel : nat) (head : str) :
  (length head < fuel)%nat ->
  _get_repitition_head_loop fuel head dup = Ok (stripped_head dup head).
Proof.
  revert head. induction fuel as [|fuel IH]; intros head Hf; [lia |].
  cbn [_get_repitition_head_loop].
  destruct head as [|x h _] using rev_ind.
  - reflexivity.
  - rewrite PyFacts.len_app. unfold Py.len at 1 2. cbn [length].
    destruct (0 <? Z.of_nat (length h) + Z.of_nat 1) eqn:E; [| lia].
    rewrite PyFacts.index_last. cbn [mbind result_bind mret result_ret].
    rewrite stripped_head_snoc. destruct (N.eqb x dup); [| done].
    rewrite PyFacts.slice_drop_last. apply IH.
    rewrite length_app in Hf. cbn [length] in Hf. lia.
Qed.

(** [_get_repitition_head] always returns, with the stripped head. *)
Lemma get_repitition_head_spec (text : str) (dup : char) :
  _get_repitition_head text dup = Ok (stripped_head dup text).
Proof. apply get_repitition_head_loop_spec. lia. Qed.

Lemma ends_doubled_true (w : str) :
  ends_doubled consonants w = true
  <-> exists body c, w = body ++ [c; c] ∧ c ∈ consonants.
Proof.
  unfold ends_doubled. split.
  - destruct (reverse w) as [|a [|b t]] eqn:E; try done.
    rewrite andb_true_iff, N.eqb_eq, PyFacts.contains_char. intros [<- Hc].
    exists (reverse t), a. split; [| done].
    rewrite <- (reverse_involutive w), E. rewrite !reverse_cons.
    by rewrite <- app_assoc.
  - intros (body & c & -> & Hc).
    rewrite reverse_app. cbn. rewrite N.eqb_refl. cbn.
    by apply PyFacts.contains_char.
Qed.

Lemma ends_doubled_cases (w : str) :
  (length w <= 1)%nat ∧ ends_doubled consonants w = false
  ∨ exists body y x, w = body ++ [y; x]
      ∧ ends_doubled consonants w = N.eqb x y && Py.contains [x] consonants.
Proof.
  destruct w as [|x h _] using rev_ind.
  { left. split; [cbn; lia | reflexivity]. }
  destruct h as [|y body _] using rev_ind.
  { left. split; [cbn; lia | reflexivity]. }
  right. exists body, y, x. rewrite <- app_assoc. split; [done |].
  unfold ends_doubled. by rewrite reverse_app.
Qed.

Lemma is_consonant_repeater_spec (word : str) :
  _is_consonant_repeater consonants word = Ok (ends_doubled consonants word).
Proof.
  unfold _is_consonant_repeater.
  destruct (ends_doubled_cases word) as [[Hl ->] | (body & y & x & -> & ->)].
  - unfold Py.len. destruct (1 <? Z.of_nat (length word)) eqn:E; [lia | done].
  - rewrite PyFacts.len_app. unfold Py.len. cbn [length].
    destruct (1 <? Z.of_nat (length body) + Z.of_nat 2) eqn:E; [| lia].
    rewrite PyFacts.index_last2.
    rewrite PyFacts.index_last_of_two. cbn [mbind result_bind mret result_ret].
    by destruct (N.eqb x y).
Qed.

Lemma is_target_spec (segment : str) :
  is_target consonants segment = Ok (ends_doubled consonants segment).
Proof.
  unfold is_target.
  destruct (ends_doubled_cases segment) as [[Hl ->] | (body & y & x & -> & ->)].
  - unfold Py.len. destruct (1 <? Z.of_nat (length segment)) eqn:E; [lia | done].
  - rewrite PyFacts.len_app. unfold Py.len. cbn [length].
    destruct (1 <? Z.of_nat (length body) + Z.of_nat 2) eqn:E; [| lia].
    rewrite PyFacts.index_last2.
    rewrite PyFacts.index_last_of_two. cbn [mbind result_bind mret result_ret].
    destruct (Py.contains [x] consonants); [| by rewrite andb_false_r].
    by rewrite andb_true_r.
Qed.

Lemma candidate_head_snoc (h : str) (d : char) :
  candidate_head (h ++ [d]) = stripped_head d h.
Proof.
  unfold candidate_head. by rewrite last_snoc, stripped_head_snoc, N.eqb_refl.
Qed.

(** The recorded count of a candidate: its length minus that of its
    stripped head, which is the length of its own trailing run. *)
Lemma candidate_count (h : str) (d : char) :
  Py.len (h ++ [d]) - Py.len (candidate_head (h ++ [d]))
  = Z.of_nat (trailing_run d (h ++ [d])).
Proof.
  unfold candidate_head. rewrite last_snoc. unfold Py.len.
  rewrite (stripped_head_length d (h ++ [d])) at 1. lia.
Qed.

(** The slice comparison of the scan, decoded. *)
Lemma slice_test (segment_head rh : str) :
  (Py.len rh <=? Py.len segment_head)
  && bool_decide (Py.slice segment_head (Some (- Py.len rh)) None = rh)
  = bool_decide (rh `suffix_of` segment_head ∧ (rh = [] -> segment_head = [])).
Proof.
  destruct rh as [|x rh].
  - change (Py.len []) with 0. rewrite PyFacts.slice_minus_zero.
    destruct (0 <=? Py.len segment_head) eqn:E;
      [| pose proof (PyFacts.len_nonneg segment_head); lia].
    cbn [andb]. apply bool_decide_ext. split.
    + intros ->. split; [done | done].
    + intros [_ H]. by apply H.
  - unfold Py.len. destruct (Z.of_nat (length (x :: rh)) <=? _) eqn:E.
    + cbn [andb]. rewrite PyFacts.slice_last_n by (cbn [length] in *; lia).
      apply bool_decide_ext. split.
      * intros H. split; [| done]. rewrite <- H. apply suffix_drop.
      * intros [[k ->] _]. rewrite length_app.
        replace (length k + length (x :: rh) - length (x :: rh))%nat
          with (length k) by lia.
        by rewrite drop_app_length.
    + cbn [andb]. symmetry. apply bool_decide_eq_false. intros [H _].
      apply suffix_length in H. lia.
Qed.

Lemma match_step_spec (segment_head longest_word : str) (repetition : Z)
    (repeater : str) :
  repeater ≠ [] ->
  match_step segment_head (longest_word, repetition) repeater
  = Ok (if bool_decide (head_matches segment_head repeater)
           && (Py.len longest_word <? Py.len repeater)
        then (repeater, Py.len repeater - Py.len (candidate_head repeater))
        else (longest_word, repetition)).
Proof.
  intros Hne. destruct repeater as [|d h _] using rev_ind; [done |].
  unfold match_step. rewrite PyFacts.index_last.
  cbn [mbind result_bind]. rewrite get_repitition_head_spec.
  cbn [mbind result_bind mret result_ret].
  rewrite slice_test. rewrite stripped_head_snoc, N.eqb_refl.
  rewrite (bool_decide_ext (head_matches segment_head (h ++ [d]))
             (stripped_head d h `suffix_of` segment_head
              ∧ (stripped_head d h = [] -> segment_head = [])))
    by (unfold head_matches; by rewrite candidate_head_snoc).
  rewrite candidate_head_snoc. by destruct (_ && _).
Qed.

Lemma match_step_empty (segment_head : str) (best : str * Z) :
  match_step segment_head best [] = Raise IndexError.
Proof. by destruct best. Qed.

Lemma find_snoc (segment_head : str) (repeaters : list str) (r : str) :
  _find_longest_consonant_repeaters_match segment_head (repeaters ++ [r])
  = best ← _find_longest_consonant_repeaters_match segment_head repeaters;
    match_step segment_head best r.
Proof. unfold _find_longest_consonant_repeaters_match. by rewrite foldl_snoc. Qed.

(** What the scan returns over non-empty candidates: nothing, or the
    first of the longest candidates that pass the test. *)
Lemma find_spec (segment_head : str) (repeaters : list str) :
  Forall (fun r => r ≠ []) repeaters ->
  exists w n,
    _find_longest_consonant_repeaters_match segment_head repeaters = Ok (w, n)
    ∧ (forall r, r ∈ repeaters -> head_matches segment_head r ->
         (length r <= length w)%nat)
    ∧ (w = [] ∧ n = 0
       ∨ n = Py.len w - Py.len (candidate_head w)
         ∧ head_matches segment_head w
         ∧ exists pre post, repeaters = pre ++ w :: post
             ∧ forall r, r ∈ pre -> head_matches segment_head r ->
                 (length r < length w)%nat).
Proof.
  induction repeaters as [|r reps IH] using rev_ind; intros Hne.
  - exists [], 0. split; [reflexivity |]. split; [| by left].
    intros r Hr. by apply elem_of_nil in Hr.
  - apply Forall_app in Hne as [Hreps Hr]. apply Forall_inv in Hr.
    destruct (IH Hreps) as (w & n & Hfind & Hmax & Hw).
    rewrite find_snoc, Hfind. cbn [mbind result_bind].
    rewrite match_step_spec by done. unfold Py.len at 1 2.
    destruct (bool_decide (head_matches segment_head r)) eqn:Em;
      [destruct (Z.of_nat (length w) <? Z.of_nat (length r)) eqn:El |];
      cbn [andb].
    + apply bool_decide_eq_true in Em.
      exists r, (Py.len r - Py.len (candidate_head r)).
      split; [done |]. split.
      * intros r' Hr' Hm'. apply elem_of_app in Hr' as [Hr' | Hr'].
        -- specialize (Hmax r' Hr' Hm'). lia.
        -- apply list_elem_of_singleton in Hr'. by subst.
      * right. split; [done |]. split; [done |].
        exists reps, []. split; [done |].
        intros r' Hr' Hm'. specialize (Hmax r' Hr' Hm'). lia.
    + apply bool_decide_eq_true in Em.
      exists w, n. split; [done |]. split.
      * intros r' Hr' Hm'. apply elem_of_app in Hr' as [Hr' | Hr'].
        -- by apply Hmax.
        -- apply list_elem_of_singleton in Hr'. subst. lia.
      * destruct Hw as [[-> ->] | (Hn & Hm & pre & post & -> & Hpre)].
        -- destruct r; [done |]. cbn [length] in El. lia.
        -- right. split; [done |]. split; [done |].
           exists pre, (post ++ [r]). split; [| done].
           by rewrite <- app_assoc.
    + apply bool_decide_eq_false in Em.
      exists w, n. split; [done |]. split.
      * intros r' Hr' Hm'. apply elem_of_app in Hr' as [Hr' | Hr'].
        -- by apply Hmax.
        -- apply list_elem_of_singleton in Hr'. by subst.
      * destruct Hw as [[-> ->] | (Hn & Hm & pre & post & -> & Hpre)].
        -- by left.
        -- right. split; [done |]. split; [done |].
           exists pre, (post ++ [r]). split; [| done].
           by rewrite <- app_assoc.
Qed.

(** No candidate passes the test: the scan reports no match. *)
Lemma find_none (segment_head : str) (repeaters : list str) :
  Forall (fun r => r ≠ []) repeaters ->
  (forall r, r ∈ repeaters -> ¬ head_matches segment_head r) ->
  _find_longest_consonant_repeaters_match segment_head repeaters = Ok ([], 0).
Proof.
  intros Hne Hno.
  destruct (find_spec segment_head repeaters Hne) as (w & n & Hfind & _ & Hw).
  destruct Hw as [[-> ->] | (_ & Hm & pre & post & -> & _)]; [done |].
  exfalso. apply (Hno w); [| done]. apply elem_of_app. right. apply elem_of_cons. by left.
Qed.

(** *** Rebuilding the index *)

Lemma reset_lookup (cs : str) (st : gmap N (list (list N))) (c : char) :
  c ∈ cs -> foldl (fun m c => <[c := []]> m) st cs !! c = Some [].
Proof.
  induction cs as [|x cs IH] using rev_ind; intros Hc.
  - by apply elem_of_nil in Hc.
  - rewrite foldl_snoc. destruct (decide (x = c)) as [-> | Hne].
    + by rewrite lookup_insert_eq.
    + rewrite lookup_insert_ne by done. apply IH.
      apply elem_of_app in Hc as [Hc | Hc]; [done |].
      apply list_elem_of_singleton in Hc. congruence.
Qed.

Lemma update_snoc (dictionary : list str) (word : str)
    (st : gmap N (list (list N))) :
  _update_consonant_repeaters consonants (dictionary ++ [word]) st
  = m ← _update_consonant_repeaters consonants dictionary st;
    r ← _is_consonant_repeater consonants word;
    if (r : bool) then
      k ← Py.index word (-1);
      l ← dict_get m k;
      mret (<[k := l ++ [word]]> m)
    else mret m.
Proof. unfold _update_consonant_repeaters. by rewrite foldl_snoc. Qed.

(** A rebuild always returns, and leaves a well-formed index, whatever
    the dictionary and whatever [consonants_repeaters] held before. *)
Lemma update_built (dictionary : list str) (st0 : gmap N (list (list N))) :
  exists st, _update_consonant_repeaters consonants dictionary st0 = Ok st
             ∧ index_built consonants st.
Proof.
  induction dictionary as [|word d IH] using rev_ind.
  - eexists. split; [reflexivity |]. intros c Hc. exists [].
    split; [by apply reset_lookup |]. intros w Hw. by apply elem_of_nil in Hw.
  - destruct IH as (m & Hm & Hb). rewrite update_snoc, Hm.
    cbn [mbind result_bind]. rewrite is_consonant_repeater_spec.
    cbn [mbind result_bind].
    destruct (ends_doubled consonants word) eqn:E.
    + apply ends_doubled_true in E as (body & k & -> & Hk).
      rewrite PyFacts.index_last_of_two. cbn [mbind result_bind].
      destruct (Hb k Hk) as (l & Hl & Hws). unfold dict_get. rewrite Hl.
      cbn [mbind result_bind mret result_ret].
      eexists. split; [reflexivity |]. intros c Hc.
      destruct (decide (k = c)) as [-> | Hne].
      * exists (l ++ [body ++ [c; c]]). rewrite lookup_insert_eq. split; [done |].
        intros w Hw. apply elem_of_app in Hw as [Hw | Hw]; [by apply Hws |].
        apply list_elem_of_singleton in Hw. by exists body.
      * rewrite lookup_insert_ne by done. by apply Hb.
    + by exists m.
Qed.

(** *** One segment *)

(** A segment that is not a target is returned as it is, with any index. *)
Lemma segment_not_target (st : gmap N (list (list N))) (segment : str) :
  ends_doubled consonants segment = false ->
  _remove_repeat_consonants_from_segment consonants st segment = Ok segment.
Proof.
  intros E. unfold _remove_repeat_consonants_from_segment.
  by rewrite is_target_spec, E.
Qed.

(** A target segment, against an index that holds candidates for its
    last character. *)
Lemma segment_target (st : gmap N (list (list N))) (body : str) (dup : char)
    (repeaters : list str) :
  dup ∈ consonants ->
  st !! dup = Some repeaters ->
  _remove_repeat_consonants_from_segment consonants st (body ++ [dup; dup])
  = '(longest_word, repetition) ←
      _find_longest_consonant_repeaters_match
        (stripped_head dup (body ++ [dup; dup])) repeaters;
    Ok (stripped_head dup (body ++ [dup; dup])
        ++ replicate (if 0 <? Py.len longest_word
                      then Z.to_nat repetition else 1%nat) dup).
Proof.
  intros Hc Hst. unfold _remove_repeat_consonants_from_segment.
  rewrite is_target_spec.
  assert (ends_doubled consonants (body ++ [dup; dup]) = true) as ->
    by (apply ends_doubled_true; by exists body, dup).
  cbn [mbind result_bind negb].
  rewrite PyFacts.index_last_of_two. cbn [mbind result_bind].
  unfold dict_get. rewrite Hst. cbn [mbind result_bind].
  rewrite get_repitition_head_spec. cbn [mbind result_bind].
  destruct (_find_longest_consonant_repeaters_match _ _) as [[w n] |]; [| done].
  cbn [mbind result_bind mret result_ret]. by destruct (0 <? Py.len w).
Qed.

Lemma built_candidates_nonempty (st : gmap N (list (list N))) (c : char)
    (l : list str) :
  index_built consonants st -> c ∈ consonants -> st !! c = Some l ->
  Forall (fun r => r ≠ []) l.
Proof.
  intros Hb Hc Hl. destruct (Hb c Hc) as (l' & Hl' & Hws).
  assert (l' = l) as -> by congruence.
  apply Forall_forall. intros w Hw. destruct (Hws w Hw) as [body ->].
  by destruct body.
Qed.

(** With a built index every segment is resolved without raising. *)
Lemma segment_total (st : gmap N (list (list N))) (segment : str) :
  index_built consonants st ->
  is_Ok (_remove_repeat_consonants_from_segment consonants st segment).
Proof.
  intros Hb. destruct (ends_doubled consonants segment) eqn:E.
  - apply ends_doubled_true in E as (body & dup & -> & Hc).
    destruct (Hb dup Hc) as (l & Hl & Hws).
    rewrite (segment_target st body dup l Hc Hl).
    destruct (find_spec (stripped_head dup (body ++ [dup; dup])) l)
      as (w & n & -> & _); [by eapply built_candidates_nonempty |].
    apply is_Ok_Ok.
  - rewrite segment_not_target by done. apply is_Ok_Ok.
Qed.

Lemma mapM_cons {A B} (f : A -> result B) (x : A) (l : list A) :
  mapM f (x :: l) = y ← f x; k ← mapM f l; mret (y :: k).
Proof. reflexivity. Qed.

Lemma mapM_total {A B} (f : A -> result B) (l : list A) :
  (forall x, x ∈ l -> is_Ok (f x)) -> is_Ok (mapM f l).
Proof.
  induction l as [|x l IH]; intros Hf; [apply is_Ok_Ok |].
  rewrite mapM_cons. destruct (Hf x) as [y ->]; [apply elem_of_cons; by left |].
  destruct IH as [k ->]; [intros z Hz; apply Hf, elem_of_cons; by right |].
  apply is_Ok_Ok.
Qed.

Lemma mapM_pointwise {A B} (f : A -> result B) (g : A -> B) (l : list A) :
  (forall x, x ∈ l -> f x = Ok (g x)) -> mapM f l = Ok (map g l).
Proof.
  induction l as [|x l IH]; intros Hf; [done |].
  rewrite mapM_cons, (Hf x) by (apply elem_of_cons; by left).
  by rewrite IH by (intros z Hz; apply Hf, elem_of_cons; by right).
Qed.

End ResolverFacts.

(** ** The repeat-consonant resolver: specification claims *)

Lemma split_nonempty (sep : char) (s : str) : Py.split sep s ≠ [].
Proof.
  destruct s as [|c t]; [done |]. cbn [Py.split].
  destruct (N.eqb c sep); [done |]. by destruct (Py.split sep t).
Qed.

Lemma join_split (sep : char) (s : str) : Py.join [sep] (Py.split sep s) = s.
Proof.
  induction s as [|c t IH]; [done |]. cbn [Py.split].
  pose proof (split_nonempty sep t) as Hne.
  destruct (Py.split sep t) as [|w ws] eqn:Es; [done |].
  destruct (N.eqb c sep) eqn:E.
  - apply N.eqb_eq in E. subst c.
    change (Py.join [sep] ([] :: w :: ws)) with (sep :: Py.join [sep] (w :: ws)).
    by rewrite IH.
  - destruct ws as [|w' ws].
    + cbn in *. by subst.
    + change (Py.join [sep] ((c :: w) :: w' :: ws))
        with (c :: Py.join [sep] (w :: w' :: ws)).
      by rewrite IH.
Qed.

Section TextResolver.

Variable consonants : str.

(** A target segment whose last character has no entry in the index:
    the lookup [consonants_repeaters[dup]] raises. *)
Lemma segment_no_entry (st : gmap N (list (list N))) (body : str) (dup : char) :
  dup ∈ consonants -> st !! dup = None ->
  _remove_repeat_consonants_from_segment consonants st (body ++ [dup; dup])
  = Raise KeyError.
Proof.
  intros Hc Hst. unfold _remove_repeat_consonants_from_segment.
  rewrite is_target_spec.
  assert (ends_doubled consonants (body ++ [dup; dup]) = true) as ->
    by (apply ends_doubled_true; by exists body, dup).
  cbn [mbind result_bind negb]. rewrite PyFacts.index_last_of_two.
  cbn [mbind result_bind]. unfold dict_get. by rewrite Hst.
Qed.

(** On an index without entries for the consonants, as it is before the
    first rebuild, a segment is returned as it is or the lookup raises. *)
Lemma segment_unbuilt (st : gmap N (list (list N))) (segment : str) :
  (forall c, c ∈ consonants -> st !! c = None) ->
  _remove_repeat_consonants_from_segment consonants st segment
  = if ends_doubled consonants segment then Raise KeyError else Ok segment.
Proof.
  intros Hst. destruct (ends_doubled consonants segment) eqn:E.
  - apply ends_doubled_true in E as (body & dup & -> & Hc).
    apply segment_no_entry; [done | by apply Hst].
  - by apply segment_not_target.
Qed.

(** A target segment against a built index in which no candidate
    matches its stripped head: one copy of the consonant is kept. *)
Lemma segment_fallback (st : gmap N (list (list N))) (body : str) (dup : char) :
  index_built consonants st -> dup ∈ consonants ->
  (forall repeaters r, st !! dup = Some repeaters -> r ∈ repeaters ->
     ¬ candidate_head r `suffix_of` stripped_head dup (body ++ [dup; dup])) ->
  _remove_repeat_consonants_from_segment consonants st (body ++ [dup; dup])
  = Ok (stripped_head dup (body ++ [dup; dup]) ++ [dup]).
Proof.
  intros Hb Hc Hno. destruct (Hb dup Hc) as (l & Hl & Hws).
  rewrite (segment_target consonants st body dup l Hc Hl), find_none.
  - reflexivity.
  - by eapply built_candidates_nonempty.
  - intros r Hr [Hm _]. by apply (Hno l r).
Qed.

Lemma mapM_raise {A B} (f : A -> result B) (l : list A) (e : exn) :
  (forall x, x ∈ l -> f x = Raise e ∨ is_Ok (f x)) ->
  (exists x, x ∈ l ∧ f x = Raise e) ->
  mapM f l = Raise e.
Proof.
  induction l as [|a l IH]; intros Hall (x & Hx & Hfx).
  - by apply elem_of_nil in Hx.
  - rewrite mapM_cons.
    destruct (Hall a) as [-> | [y Hy]]; [apply elem_of_cons; by left | done |].
    rewrite Hy. cbn [mbind result_bind].
    apply elem_of_cons in Hx as [-> | Hx]; [congruence |].
    rewrite IH; [done | | by exists x].
    intros z Hz. apply Hall, elem_of_cons. by right.
Qed.

(** The loop over lines and segments, on a text without a target
    segment: every segment and so the text comes back as it is,
    whatever the index holds. *)
Lemma lines_pass_through (st : gmap N (list (list N))) (text : str) :
  (forall line segment, line ∈ Py.split 10%N text ->
     segment ∈ Py.split 32%N line ->
     ends_doubled consonants segment = false) ->
  (mapM (fun line =>
           segments ← mapM (_remove_repeat_consonants_from_segment consonants st)
                           (Py.split 32%N line);
           mret (Py.join [32%N] segments))
        (Py.split 10%N text)
   ≫= fun modified_lines => mret (Py.join [10%N] modified_lines, st))
  = Ok (text, st).
Proof.
  intros Hnone. rewrite (mapM_pointwise _ id).
  - cbn [mbind result_bind mret result_ret]. by rewrite map_id, join_split.
  - intros line Hl. rewrite (mapM_pointwise _ id).
    + cbn [mbind result_bind mret result_ret]. by rewrite map_id, join_split.
    + intros seg Hs. apply segment_not_target. by eapply Hnone.
Qed.

(** The same loop on an index without entries for the consonants, on a
    text that has a target segment: the lookup raises. *)
Lemma lines_raise (st : gmap N (list (list N))) (text : str) :
  (forall c, c ∈ consonants -> st !! c = None) ->
  (exists line segment, line ∈ Py.split 10%N text
     ∧ segment ∈ Py.split 32%N line
     ∧ ends_doubled consonants segment = true) ->
  (mapM (fun line =>
           segments ← mapM (_remove_repeat_consonants_from_segment consonants st)
                           (Py.split 32%N line);
           mret (Py.join [32%N] segments))
        (Py.split 10%N text)
   ≫= fun modified_lines => mret (Py.join [10%N] modified_lines, st))
  = Raise KeyError.
Proof.
  intros Hst (line & segment & Hl & Hs & Ht).
  assert (forall l : str,
            (exists seg, seg ∈ Py.split 32%N l
               ∧ ends_doubled consonants seg = true) ->
            mapM (_remove_repeat_consonants_from_segment consonants st)
                 (Py.split 32%N l) = Raise KeyError) as Hraise.
  { intros l (seg & Hseg & Hd). apply mapM_raise.
    - intros x _. rewrite segment_unbuilt by done.
      destruct (ends_doubled consonants x); [by left | right; apply is_Ok_Ok].
    - exists seg. split; [done |]. by rewrite segment_unbuilt, Hd. }
  rewrite (mapM_raise _ _ KeyError); [done | |].
  - intros l _.
    destruct (decide (Exists (fun seg => ends_doubled consonants seg = true)
                             (Py.split 32%N l))) as [He | Hn].
    + left. apply Exists_exists in He. by rewrite Hraise.
    + right. apply not_Exists_Forall in Hn; [| intros x; apply _].
      rewrite (mapM_pointwise _ id).
      * apply is_Ok_Ok.
      * intros seg Hseg. apply segment_not_target.
        apply (proj1 (Forall_forall _ _) Hn) in Hseg.
        apply not_true_is_false. exact Hseg.
  - exists line. split; [done |]. rewrite Hraise; [done |]. by exists segment.
Qed.

End TextResolver.

(** C1, as amended.  On an index rebuilt from any dictionary, when the
    scan finds a match for a target segment the recorded repeat count is
    at least 1 and is the length of the run of the duplicated consonant
    that ends the matched dictionary word; the resolver writes exactly
    that many copies after the stripped head.  The count is not bounded
    by the run in the input segment. *)
Theorem C1_repeat_count_of_match
    (consonants : str) (dictionary : list str) (st0 st : gmap N (list (list N)))
    (body : str) (dup : char) (repeaters : list str)
    (longest_word : str) (repetition : Z) :
  let segment := body ++ [dup; dup] in
  _update_consonant_repeaters consonants dictionary st0 = Ok st ->
  dup ∈ consonants ->
  st !! dup = Some repeaters ->
  _find_longest_consonant_repeaters_match (stripped_head dup segment) repeaters
  = Ok (longest_word, repetition) ->
  longest_word ≠ [] ->
  1 <= repetition
  ∧ repetition = Z.of_nat (trailing_run dup longest_word)
  ∧ _remove_repeat_consonants_from_segment consonants st segment
    = Ok (stripped_head dup segment ++ replicate (Z.to_nat repetition) dup)
  ∧ trailing_run dup
      (stripped_head dup segment ++ replicate (Z.to_nat repetition) dup)
    = Z.to_nat repetition.
Proof.
  intros segment Hup Hc Hst Hfind Hne.
  destruct (update_built consonants dictionary st0) as (st' & Hup' & Hb).
  assert (st' = st) as -> by congruence.
  pose proof (built_candidates_nonempty consonants st dup repeaters Hb Hc Hst)
    as Hnonempty.
  destruct (find_spec (stripped_head dup segment) repeaters Hnonempty)
    as (w & n & Hfind' & _ & Hw).
  rewrite Hfind in Hfind'. injection Hfind' as <- <-.
  destruct Hw as [[-> _] | (Hn & _ & pre & post & Hreps & _)]; [done |].
  destruct (Hb dup Hc) as (l & Hl & Hws).
  assert (l = repeaters) as -> by congruence.
  destruct (Hws longest_word) as [wbody Hwb].
  { rewrite Hreps. apply elem_of_app. right. apply elem_of_cons. by left. }
  assert (repetition = Z.of_nat (trailing_run dup longest_word)) as Hrep.
  { rewrite Hn, Hwb.
    replace (wbody ++ [dup; dup]) with ((wbody ++ [dup]) ++ [dup])
      by (by rewrite <- app_assoc).
    apply candidate_count. }
  assert (1 <= repetition) as Hge.
  { rewrite Hrep, Hwb.
    replace (wbody ++ [dup; dup]) with ((wbody ++ [dup]) ++ [dup])
      by (by rewrite <- app_assoc).
    rewrite trailing_run_snoc, N.eqb_refl. lia. }
  split; [done |]. split; [done |]. split.
  - unfold segment. rewrite (segment_target consonants st body dup repeaters Hc Hst).
    fold segment. rewrite Hfind. cbn [mbind result_bind].
    unfold Py.len. destruct longest_word; [done |]. cbn [length].
    by destruct (0 <? Z.of_nat (S (length longest_word))) eqn:E; [| lia].
  - apply trailing_run_app_replicate, stripped_head_last.
Qed.

Lemma C1_repeat_count_of_match_witness :
  let st := <[0x0E21%N := [Sample.um5]]>
              (foldl (fun m c => <[c := []]> m) ∅ Thai.consonants) in
  1 <= 5
  ∧ 5 = Z.of_nat (trailing_run 0x0E21%N Sample.um5)
  ∧ _remove_repeat_consonants_from_segment Thai.consonants st Sample.um2
    = Ok (stripped_head 0x0E21%N Sample.um2 ++ replicate (Z.to_nat 5) 0x0E21%N)
  ∧ trailing_run 0x0E21%N
      (stripped_head 0x0E21%N Sample.um2 ++ replicate (Z.to_nat 5) 0x0E21%N)
    = Z.to_nat 5.
Proof.
  intros st.
  apply (C1_repeat_count_of_match Thai.consonants [Sample.um5] ∅ st
           [0x0E2D; 0x0E37]%N 0x0E21%N [Sample.um5] Sample.um5 5).
  - vm_compute. reflexivity.
  - apply PyFacts.contains_char. vm_compute. reflexivity.
  - vm_compute. reflexivity.
  - vm_compute. reflexivity.
  - discriminate.
Defined.

(** C1 as stated fails: with the dictionary of the docstring, อืมมมมม,
    the segment อืมม has a trailing run of two, yet the match is found
    with count five and five copies are written. *)
Lemma C1_count_exceeds_input_run :
  exists st repeaters,
    _update_consonant_repeaters Thai.consonants [Sample.um5] ∅ = Ok st
    ∧ st !! 0x0E21%N = Some repeaters
    ∧ _find_longest_consonant_repeaters_match
        (stripped_head 0x0E21%N Sample.um2) repeaters = Ok (Sample.um5, 5)
    ∧ _remove_repeat_consonants_from_segment Thai.consonants st Sample.um2
      = Ok Sample.um5
    ∧ trailing_run 0x0E21%N Sample.um2 = 2%nat
    ∧ ¬ (5 <= Z.of_nat (trailing_run 0x0E21%N Sample.um2)).
Proof.
  eexists. exists [Sample.um5].
  split; [vm_compute; reflexivity |].
  split; [vm_compute; reflexivity |].
  split; [vm_compute; reflexivity |].
  split; [vm_compute; reflexivity |].
  split; [vm_compute; reflexivity |].
  vm_compute. intros H. by apply H.
Qed.

(** C3, at the input where the code departs from it.  The dictionary
    word งง has an empty stripped head, every head ends with the empty
    string and งง is longer than the empty best match, yet the scan does
    not adopt it for the head มึน: the slice [segment_head[-0:]] is the
    whole head.  The resolver therefore turns มึนงงง into มึนง. *)
Theorem C3_empty_stripped_head_not_adopted :
  candidate_head Sample.ngong = []
  ∧ candidate_head Sample.ngong `suffix_of` Sample.muen
  ∧ (length (@nil N) < length Sample.ngong)%nat
  ∧ _find_longest_consonant_repeaters_match Sample.muen [Sample.ngong]
    = Ok ([], 0)
  ∧ (st ← _update_consonant_repeaters Thai.consonants [Sample.ngong] ∅;
     _remove_repeat_consonants_from_segment Thai.consonants st
       Sample.muen_ngong3)
    = Ok (Sample.muen ++ [0x0E07%N]).
Proof.
  split; [reflexivity |].
  split; [apply suffix_nil |].
  split; [cbn; lia |].
  split; vm_compute; reflexivity.
Qed.

(** C5, as amended.  A segment that ends in a doubled consonant: on an
    index rebuilt from any dictionary, when its stripped head ends with
    the stripped head of no candidate stored for that consonant, it is
    resolved to the stripped head followed by the consonant once; on an
    index that has no entry for the consonant, as before the first
    rebuild, the lookup raises [KeyError] and nothing is returned. *)
Theorem C5_no_match_one_occurrence
    (consonants : str) (st : gmap N (list (list N)))
    (body : str) (dup : char) :
  let segment := body ++ [dup; dup] in
  dup ∈ consonants ->
  (forall (dictionary : list str) (st0 : gmap N (list (list N))),
     _update_consonant_repeaters consonants dictionary st0 = Ok st ->
     (forall repeaters r, st !! dup = Some repeaters -> r ∈ repeaters ->
        ¬ candidate_head r `suffix_of` stripped_head dup segment) ->
     _remove_repeat_consonants_from_segment consonants st segment
     = Ok (stripped_head dup segment ++ [dup]))
  ∧ (st !! dup = None ->
     _remove_repeat_consonants_from_segment consonants st segment
     = Raise KeyError).
Proof.
  intros segment Hc. split.
  - intros dictionary st0 Hup Hno.
    destruct (update_built consonants dictionary st0) as (st' & Hup' & Hb).
    assert (st' = st) as -> by congruence.
    destruct (Hb dup Hc) as (l & Hl & Hws).
    unfold segment. rewrite (segment_target consonants st body dup l Hc Hl).
    fold segment. rewrite find_none.
    + reflexivity.
    + by eapply built_candidates_nonempty.
    + intros r Hr [Hm _]. by apply (Hno l r).
  - intros Hst. by apply segment_no_entry.
Qed.

Lemma C5_no_match_one_occurrence_witness :
  _remove_repeat_consonants_from_segment Thai.consonants
    (<[0x0E14%N := [Sample.kdd]]>
       (foldl (fun m c => <[c := []]> m) ∅ Thai.consonants))
    ([0x0E40; 0x0E23; 0x0E34; 0x0E48; 0x0E14] ++ [0x0E14; 0x0E14])%N
  = Ok (stripped_head 0x0E14%N
          ([0x0E40; 0x0E23; 0x0E34; 0x0E48; 0x0E14] ++ [0x0E14; 0x0E14])%N
        ++ [0x0E14%N])
  ∧ _remove_repeat_consonants_from_segment Thai.consonants ∅
      ([0x0E40; 0x0E23; 0x0E34; 0x0E48; 0x0E14] ++ [0x0E14; 0x0E14])%N
    = Raise KeyError.
Proof.
  split.
  - pose proof (C5_no_match_one_occurrence Thai.consonants
                  (<[0x0E14%N := [Sample.kdd]]>
                     (foldl (fun m c => <[c := []]> m) ∅ Thai.consonants))
                  [0x0E40; 0x0E23; 0x0E34; 0x0E48; 0x0E14]%N 0x0E14%N) as H.
    cbv zeta in H. destruct H as [H _].
    + apply PyFacts.contains_char. vm_compute. reflexivity.
    + apply (H [Sample.kdd] ∅).
      * vm_compute. reflexivity.
      * intros repeaters r Hst Hr.
        assert (repeaters = [Sample.kdd]) as ->
          by (vm_compute in Hst; injection Hst as <-; reflexivity).
        apply list_elem_of_singleton in Hr. subst r.
        apply (bool_decide_eq_false_1 _). vm_compute. reflexivity.
  - pose proof (C5_no_match_one_occurrence Thai.consonants ∅
                  [0x0E40; 0x0E23; 0x0E34; 0x0E48; 0x0E14]%N 0x0E14%N) as H.
    cbv zeta in H. destruct H as [_ H].
    + apply PyFacts.contains_char. vm_compute. reflexivity.
    + apply H, lookup_empty.
Defined.

(** C5 as stated fails: เริ่ดดด is longer than one character, ends with
    the consonant ด written twice, and on the index as it is before any
    rebuild no candidate matches its stripped head, there being none;
    yet the resolver does not return เริ่ด: the lookup raises [KeyError],
    also through [remove_repeat_consonants] with the flag off. *)
Lemma C5_raises_before_rebuild :
  1 < Py.len Sample.roed3
  ∧ Py.index Sample.roed3 (-1) = Ok 0x0E14%N
  ∧ Py.index Sample.roed3 (-2) = Ok 0x0E14%N
  ∧ 0x0E14%N ∈ Thai.consonants
  ∧ (forall repeaters r,
       (∅ : gmap N (list (list N))) !! 0x0E14%N = Some repeaters ->
       r ∈ repeaters ->
       ¬ candidate_head r `suffix_of` stripped_head 0x0E14%N Sample.roed3)
  ∧ _remove_repeat_consonants_from_segment Thai.consonants ∅ Sample.roed3
    = Raise KeyError
  ∧ _remove_repeat_consonants_from_segment Thai.consonants ∅ Sample.roed3
    ≠ Ok (stripped_head 0x0E14%N Sample.roed3 ++ [0x0E14%N])
  ∧ remove_repeat_consonants Thai.consonants [] ∅ Sample.roed3 (Some []) false
    = Raise KeyError.
Proof.
  split; [reflexivity |].
  split; [reflexivity |].
  split; [reflexivity |].
  split; [apply PyFacts.contains_char; vm_compute; reflexivity |].
  split; [intros repeaters r Hst; by rewrite lookup_empty in Hst |].
  split; [vm_compute; reflexivity |].
  split; [vm_compute; discriminate |].
  vm_compute. reflexivity.
Qed.

(** ** The repetition-mark expander *)

Section MaiyamokFacts.

Variable word_tokenize : str -> list str.

Lemma index_raise {A} (l : list A) (i : Z) (e : exn) :
  Py.index l i = Raise e -> e = IndexError.
Proof.
  unfold Py.index. destruct (_ <? 0); [congruence |].
  destruct (l !! _); congruence.
Qed.

Lemma body_raise (sent : list str) (j : Z) (text : str) (st : list str * Z)
    (e : exn) :
  maiyamok_body sent j text st = Raise e -> e = IndexError.
Proof.
  destruct st as [lw i]. unfold maiyamok_body.
  destruct (Py.isspace text).
  - destruct (Py.index sent (j + 1)) as [nxt |] eqn:En;
      [| intros [= <-]; by eapply index_raise].
    cbn [mbind result_bind mret result_ret].
    destruct (Py.contains mark nxt); [done |].
    destruct (bool_decide _).
    + destruct (Py.index lw (i - 1)) eqn:El; [done |].
      intros [= <-]. by eapply index_raise.
    + by destruct (Py.contains mark _).
  - cbn [mbind result_bind mret result_ret].
    destruct (bool_decide _).
    + destruct (Py.index lw (i - 1)) eqn:El; [done |].
      intros [= <-]. by eapply index_raise.
    + by destruct (Py.contains mark _).
Qed.

Lemma loop_raise (sent : list str) (rest : list str) (j : Z)
    (st : list str * Z) (e : exn) :
  maiyamok_loop sent j rest st = Raise e -> e = IndexError.
Proof.
  revert j st. induction rest as [|text rest IH]; intros j st; [done |].
  cbn [maiyamok_loop].
  destruct (maiyamok_body sent j text st) as [st' |] eqn:Eb.
  - apply IH.
  - intros [= <-]. by eapply body_raise.
Qed.

Lemma loop_app (sent : list str) (pre post : list str) (j : Z)
    (st : list str * Z) :
  maiyamok_loop sent j (pre ++ post) st
  = st' ← maiyamok_loop sent j pre st;
    maiyamok_loop sent (j + Py.len pre) post st'.
Proof.
  revert j st. induction pre as [|text pre IH]; intros j st.
  - cbn. by rewrite Z.add_0_r.
  - cbn [app maiyamok_loop].
    destruct (maiyamok_body sent j text st) as [st' |]; [| done].
    cbn [mbind result_bind]. rewrite IH. unfold Py.len. cbn [length].
    by replace (j + 1 + Z.of_nat (length pre)) with (j + Z.of_nat (S (length pre)))
      by lia.
Qed.

(** A whitespace-only token in last position: the look-ahead
    [sent[j + 1]] is out of range. *)
Lemma body_last_space (pre : list str) (text : str) (st : list str * Z) :
  Py.isspace text = true ->
  maiyamok_body (pre ++ [text]) (Py.len pre) text st = Raise IndexError.
Proof.
  intros Hs. destruct st as [lw i]. unfold maiyamok_body. rewrite Hs.
  replace (Py.len pre + 1) with (Py.len (pre ++ [text]))
    by (rewrite PyFacts.len_app; reflexivity).
  by rewrite PyFacts.index_past_end.
Qed.

End MaiyamokFacts.

(** C10.  A token sequence whose last token is whitespace-only makes
    [maiyamok] raise [IndexError], whether the tokens are given as a list
    or come from the tokenizer: no token list is returned. *)
Theorem C10_trailing_space_raises
    (word_tokenize : str -> list str) (sent : str + list str) (text : str) :
  last (tokens_of word_tokenize sent) = Some text ->
  Py.isspace text = true ->
  maiyamok word_tokenize sent = Raise IndexError.
Proof.
  intros Hlast Hs. unfold maiyamok.
  destruct (tokens_of word_tokenize sent) as [|x pre _] using rev_ind; [done |].
  rewrite last_snoc in Hlast. injection Hlast as ->.
  rewrite loop_app. rewrite Z.add_0_l.
  destruct (maiyamok_loop (pre ++ [text]) 0 pre ([], 0)) as [st' | e] eqn:El.
  - cbn [mbind result_bind maiyamok_loop]. by rewrite body_last_space.
  - apply loop_raise in El. by subst e.
Qed.

Lemma C10_trailing_space_raises_witness :
  maiyamok (fun _ => []) (inr [Sample.khon; [32%N]]) = Raise IndexError.
Proof.
  apply (C10_trailing_space_raises (fun _ => []) (inr [Sample.khon; [32%N]])
           [32%N]).
  - reflexivity.
  - reflexivity.
Defined.

Section MaiyamokExpansion.

Variable word_tokenize : str -> list str.

Lemma contains_mark (text : str) :
  Py.contains mark text = true <-> 0x0E46%N ∈ text.
Proof. apply PyFacts.contains_char. Qed.

Lemma contains_space_mark (text : str) :
  Py.contains space_mark text = true -> Py.contains mark text = true.
Proof.
  rewrite contains_mark. induction text as [|x t IH]; cbn [Py.contains].
  - rewrite orb_false_r, bool_decide_eq_true. intros H.
    by apply prefix_nil_inv in H.
  - rewrite orb_true_iff, bool_decide_eq_true. intros [H | H].
    + destruct H as [k Hk]. injection Hk as -> ->.
      apply elem_of_cons. right. apply elem_of_cons. by left.
    + apply elem_of_cons. right. by apply IH.
Qed.


(** A token without the mark that is not suppressed is appended as it
    is. *)
Lemma body_plain (sent : list str) (j : Z) (text : str) (lw : list str) (i : Z) :
  Py.contains mark text = false ->
  suppressed sent j text = Ok false ->
  maiyamok_body sent j text (lw, i) = Ok (lw ++ [text], i + 1).
Proof.
  intros Hm Hsup. unfold maiyamok_body. fold (suppressed sent j text).
  rewrite Hsup. cbn [mbind result_bind mret result_ret].
  destruct (Py.contains space_mark text) eqn:Esm.
  { apply contains_space_mark in Esm. congruence. }
  rewrite bool_decide_eq_false_2, Hm; [done |].
  intros <-. by vm_compute in Hm.
Qed.

(** The bare mark after at least one emitted token: the last emitted
    token is appended once more. *)
Lemma body_mark (sent : list str) (j : Z) (lw : list str) (t : str) :
  maiyamok_body sent j mark (lw ++ [t], Py.len (lw ++ [t]))
  = Ok ((lw ++ [t]) ++ [t], Py.len (lw ++ [t]) + 1).
Proof.
  unfold maiyamok_body. cbn [Py.isspace mark forallb Py.is_space].
  change (Py.isspace mark) with false. cbn [mbind result_bind mret result_ret].
  change (Py.contains space_mark mark) with false.
  rewrite bool_decide_eq_true_2 by done.
  rewrite PyFacts.len_app. change (Py.len [t]) with 1.
  replace (Py.len lw + 1 - 1) with (Z.of_nat (length lw)) by (unfold Py.len; lia).
  rewrite PyFacts.index_nat, list_lookup_middle by done. done.
Qed.









End MaiyamokExpansion.




(** ** The regular-expression engine *)

Module Engine.

Lemma take_drop_while (P : N -> bool) (s : str) :
  take_while P s ++ drop_while P s = s.
Proof.
  induction s as [|c t IH]; [done |]. cbn.
  destruct (P c); [| done]. cbn. by rewrite IH.
Qed.

Lemma drop_while_length (P : N -> bool) (s : str) :
  (length (drop_while P s) <= length s)%nat.
Proof.
  induction s as [|c t IH]; [done |]. cbn. destruct (P c); cbn; lia.
Qed.

Lemma take_while_all (P : N -> bool) (s : str) :
  Forall (fun c => P c = true) (take_while P s).
Proof.
  induction s as [|c t IH]; [constructor |]. cbn.
  destruct (P c) eqn:E; by constructor.
Qed.

Lemma drop_while_head (P : N -> bool) (s : str) (c : char) :
  head (drop_while P s) = Some c -> P c = false.
Proof.
  induction s as [|x t IH]; [done |]. cbn.
  destruct (P x) eqn:E; [done |]. cbn. by intros [= <-].
Qed.

(** Splitting off a run: what the run is followed by does not satisfy
    [P]. *)
Lemma drop_while_app (P : N -> bool) (run rest : str) :
  Forall (fun c => P c = true) run ->
  (forall c, head rest = Some c -> P c = false) ->
  drop_while P (run ++ rest) = rest ∧ take_while P (run ++ rest) = run.
Proof.
  intros Hrun Hrest. induction Hrun as [|c run Hc Hrun IH]; cbn.
  - destruct rest as [|x rest]; [done |]. cbn. by rewrite (Hrest x).
  - rewrite Hc. destruct IH as [-> ->]. done.
Qed.

Lemma take_prefix_of_run (P : N -> bool) (s : str) :
  take (length s - length (drop_while P s)) s = take_while P s.
Proof.
  pose proof (take_drop_while P s) as H.
  assert (length s = length (take_while P s) + length (drop_while P s))%nat
    as Hl by (by rewrite <- length_app, H).
  replace (length s - length (drop_while P s))%nat
    with (length (take_while P s)) by lia.
  transitivity (take (length (take_while P s))
                  (take_while P s ++ drop_while P s)); [by rewrite H |].
  apply take_app_length.
Qed.

Lemma rmatch_star (r : regex) (b : bool) (s : str) (g : list (nat * list N))
    (k : bool -> str -> list (nat * list N) -> option (str * list (nat * list N))) :
  rmatch (Star r) b s g k = iterate (rmatch r) k (length s) b s g.
Proof. reflexivity. Qed.

Lemma iterate_cls (cs : str)
    (k : bool -> str -> list (nat * list N) -> option (str * list (nat * list N)))
    (n : nat) (b : bool) (s : str) (g : list (nat * list N)) :
  (length s <= n)%nat ->
  iterate (rmatch (Cls cs)) k n b s g = star_cls cs k b s g.
Proof.
  revert b s. induction n as [|n IH]; intros b s Hn.
  - destruct s; [done | cbn in Hn; lia].
  - destruct s as [|c t]; [done |]. cbn [iterate rmatch star_cls].
    destruct (in_class cs c); [| done].
    rewrite IH by (cbn in Hn; lia). done.
Qed.

(** [[cs]*] then [k]. *)
Lemma rmatch_star_cls (cs : str) (b : bool) (s : str) (g : list (nat * list N))
    (k : bool -> str -> list (nat * list N) -> option (str * list (nat * list N))) :
  rmatch (Star (Cls cs)) b s g k = star_cls cs k b s g.
Proof. rewrite rmatch_star. by apply iterate_cls. Qed.

(** Nothing stops a greedy class at the end of a match: it takes the
    whole run. *)
Lemma star_cls_accept (cs : str) (b : bool) (s : str) (g : list (nat * list N)) :
  star_cls cs accept b s g = Some (drop_while (in_class cs) s, g).
Proof.
  revert b. induction s as [|c t IH]; intros b; [done |]. cbn.
  destruct (in_class cs c); [| done]. by rewrite IH.
Qed.

(** [[cs]+] at the end of a pattern. *)
Lemma rmatch_plus_cls (cs : str) (b : bool) (s : str) :
  rmatch (Plus (Cls cs)) b s [] accept
  = match s with
    | c :: t => if in_class cs c
                then Some (drop_while (in_class cs) t, [])
                else None
    | [] => None
    end.
Proof.
  unfold Plus. cbn [rmatch]. destruct s as [|c t]; [done |].
  destruct (in_class cs c); [| done].
  change (rmatch (Star (Cls cs)) false t [] accept
          = Some (drop_while (in_class cs) t, [])).
  by rewrite rmatch_star_cls, star_cls_accept.
Qed.

Lemma sub_pieces_nil (repl : match_obj -> result str) : sub_pieces repl [] = Ok [].
Proof. reflexivity. Qed.

Lemma sub_pieces_keep (repl : match_obj -> result str) (c : char)
    (ps : list piece) :
  sub_pieces repl (Keep c :: ps) = out ← sub_pieces repl ps; Ok (c :: out).
Proof.
  unfold sub_pieces. rewrite mapM_cons. cbn [mbind result_bind mret result_ret].
  by destruct (mapM _ ps).
Qed.

Lemma sub_pieces_hit (repl : match_obj -> result str) (m : match_obj)
    (ps : list piece) :
  sub_pieces repl (Hit m :: ps)
  = x ← repl m; out ← sub_pieces repl ps; Ok (x ++ out).
Proof.
  unfold sub_pieces. rewrite mapM_cons. destruct (repl m); [| done].
  cbn [mbind result_bind mret result_ret]. by destruct (mapM _ ps).
Qed.

(** Where the pattern matches nowhere the text is copied. *)
Lemma scan_no_match (r : regex) (repl : match_obj -> result str) (fuel : nat)
    (b : bool) (s : str) :
  (length s < fuel)%nat ->
  rmatch r b s [] accept = None ->
  (forall s', s' `suffix_of` s -> rmatch r false s' [] accept = None) ->
  sub_pieces repl (scan fuel r b s) = Ok s.
Proof.
  revert b s. induction fuel as [|fuel IH]; intros b s Hf Hb Hno; [lia |].
  cbn [scan]. rewrite Hb.
  destruct s as [|c t]; [done |].
  rewrite sub_pieces_keep, IH; [done | cbn in Hf; lia | |].
  - apply Hno. by apply suffix_cons_r.
  - intros s' Hs. apply Hno. by apply suffix_cons_r.
Qed.

End Engine.

(** ** Tone-mark runs and dangling marks *)

Section KeepLast.

Variable P : N -> bool.

Lemma keep_last_cons (c : char) (t : str) :
  keep_last_of_runs P (c :: t)
  = if P c && match t with x :: _ => P x | [] => false end
    then keep_last_of_runs P t
    else c :: keep_last_of_runs P t.
Proof. reflexivity. Qed.

Lemma keep_last_run (c : char) (t : str) :
  P c = true ->
  keep_last_of_runs P (c :: t)
  = default c (last (c :: take_while P t))
    :: keep_last_of_runs P (drop_while P t).
Proof.
  revert c. induction t as [|x t IH]; intros c Hc.
  - rewrite keep_last_cons, Hc. done.
  - rewrite keep_last_cons, Hc. cbn [take_while drop_while andb].
    destruct (P x) eqn:Ex.
    + rewrite (IH x Ex). f_equal.
      rewrite !last_cons. by destruct (last (take_while P t)).
    + done.
Qed.


(** After a character outside the class the rest is treated on its own. *)
Lemma keep_last_app (pre s : str) :
  (forall c, last pre = Some c -> P c = false) ->
  keep_last_of_runs P (pre ++ s) = keep_last_of_runs P pre ++ keep_last_of_runs P s.
Proof.
  induction pre as [|c pre IH]; intros Hl; [done |].
  destruct pre as [|x pre].
  - cbn [app]. rewrite !keep_last_cons, (Hl c) by done. done.
  - change ((c :: x :: pre) ++ s) with (c :: (x :: pre) ++ s).
    rewrite (keep_last_cons c ((x :: pre) ++ s)), (keep_last_cons c (x :: pre)).
    rewrite IH by (intros c' Hc'; apply Hl; by rewrite last_cons_cons).
    cbn [app]. by destruct (P c && P x).
Qed.


End KeepLast.

Section TonePass.

Variable tonemarks : str.

Lemma last_char_ok (c : char) (run : str) (g : list (nat * list N)) :
  _last_char (MatchObj (c :: run) g) = Ok [default c (last (c :: run))].
Proof.
  unfold _last_char, group. cbn [m_text].
  destruct (c :: run) as [|x h _] eqn:E using rev_ind; [done |].
  rewrite PyFacts.index_last, last_snoc. done.
Qed.

Lemma tone_scan (fuel : nat) (b : bool) (s : str) :
  (length s < fuel)%nat ->
  sub_pieces _last_char (scan fuel (_RE_TONEMARKS tonemarks) b s)
  = Ok (keep_last_of_runs (in_class tonemarks) s).
Proof.
  revert b s. induction fuel as [|fuel IH]; intros b s Hf; [lia |].
  cbn [scan]. unfold _RE_TONEMARKS at 1. rewrite Engine.rmatch_plus_cls.
  destruct s as [|c t]; [done |].
  destruct (in_class tonemarks c) eqn:Ec.
  - pose proof (Engine.drop_while_length (in_class tonemarks) t) as Hd.
    destruct (0 <? length (c :: t) - length (drop_while (in_class tonemarks) t))%nat
      eqn:En; [| cbn [length] in En; lia].
    rewrite Engine.sub_pieces_hit.
    replace (take (length (c :: t) - length (drop_while (in_class tonemarks) t))
               (c :: t))
      with (c :: take_while (in_class tonemarks) t).
    2:{ symmetry.
        transitivity (take_while (in_class tonemarks) (c :: t));
          [| cbn [take_while]; by rewrite Ec].
        rewrite <- Engine.take_prefix_of_run. cbn [drop_while]. by rewrite Ec. }
    rewrite last_char_ok. cbn [mbind result_bind].
    rewrite IH by (cbn [length] in Hf; lia). cbn [mbind result_bind].
    by rewrite keep_last_run.
  - rewrite Engine.sub_pieces_keep, IH by (cbn [length] in Hf; lia).
    cbn. by rewrite Ec.
Qed.

Lemma tone_pass_spec (text : str) :
  re_sub (_RE_TONEMARKS tonemarks) _last_char text
  = Ok (keep_last_of_runs (in_class tonemarks) text).
Proof. apply tone_scan. lia. Qed.

End TonePass.

Lemma in_class_true (cs : str) (c : char) : in_class cs c = true <-> c ∈ cs.
Proof. apply bool_decide_eq_true. Qed.

Lemma in_class_false (cs : str) (c : char) : in_class cs c = false <-> c ∉ cs.
Proof. apply bool_decide_eq_false. Qed.



Section Dangling.

Variables above_v below_v tonemarks : str.

Lemma dangling_spec (text : str) :
  remove_dangling above_v below_v tonemarks text
  = Ok (drop_while (in_class (_DANGLING_CHARS above_v below_v tonemarks)) text).
Proof.
  unfold remove_dangling, re_sub.
  set (D := _DANGLING_CHARS above_v below_v tonemarks).
  assert (forall s, rmatch (_RE_REMOVE_DANGLINGS above_v below_v tonemarks)
                      false s [] accept = None) as Hno by done.
  cbn [scan]. unfold _RE_REMOVE_DANGLINGS at 1. fold D. cbn [rmatch].
  change (rmatch (Cls D) true text []
            (fun b s' g' => rmatch (Star (Cls D)) b s' g' accept))
    with (rmatch (Plus (Cls D)) true text [] accept).
  rewrite Engine.rmatch_plus_cls.
  destruct text as [|c t]; [done |]. cbn [drop_while].
  destruct (in_class D c) eqn:Ec.
  - pose proof (Engine.drop_while_length (in_class D) t) as Hd.
    destruct (0 <? length (c :: t) - length (drop_while (in_class D) t))%nat
      eqn:En; [| cbn [length] in En; lia].
    rewrite Engine.sub_pieces_hit. cbn [expand flat_map mbind result_bind mret result_ret].
    rewrite Engine.scan_no_match; [done | cbn [length]; lia | apply Hno |].
    intros s' _. apply Hno.
  - rewrite Engine.sub_pieces_keep.
    rewrite Engine.scan_no_match; [done | cbn [length]; lia | apply Hno |].
    intros s' _. apply Hno.
Qed.

End Dangling.

(** C9.  [remove_dangling] removes the leading run of non-base
    characters and nothing else: a text that is such a run followed by a
    rest starting with a base character (or empty) comes back as that
    rest, whatever marks the rest holds further on. *)
Theorem C9_dangling_only_at_start
    (above_v below_v tonemarks : str) (run rest : str) :
  Forall (fun c => c ∈ _DANGLING_CHARS above_v below_v tonemarks) run ->
  (forall c, head rest = Some c -> c ∉ _DANGLING_CHARS above_v below_v tonemarks) ->
  remove_dangling above_v below_v tonemarks (run ++ rest) = Ok rest.
Proof.
  intros Hrun Hrest. rewrite dangling_spec. f_equal.
  apply Engine.drop_while_app.
  - eapply Forall_impl; [exact Hrun |]. intros c Hc. by apply in_class_true.
  - intros c Hc. by apply in_class_false, Hrest.
Qed.

Lemma C9_dangling_only_at_start_witness :
  remove_dangling Thai.above_vowels Thai.below_vowels Thai.tonemarks
    ([0x0E48; 0x0E34] ++ [0x0E01; 0x0E48; 0x0E34])%N
  = Ok [0x0E01; 0x0E48; 0x0E34]%N.
Proof.
  apply C9_dangling_only_at_start.
  - repeat constructor; apply in_class_true; reflexivity.
  - intros c [= <-]. apply in_class_false. reflexivity.
Defined.

(** ** Spaces and newlines *)

Module Blank.

Lemma is_blank_cases (c : char) :
  is_blank c = true <-> c = 32%N ∨ c = 10%N.
Proof.
  unfold is_blank. rewrite in_class_true. rewrite !elem_of_cons.
  split; [intros [? | [? | H]]; [by left | by right | by apply elem_of_nil in H]
         | intros [-> | ->]; [by left | right; by left]].
Qed.

Lemma space_is_blank (c : char) : is_blank c = true -> Py.is_space c = true.
Proof. intros H. by apply is_blank_cases in H as [-> | ->]. Qed.

Lemma newline_then_blanks (b : bool) (s : str) (g : list (nat * list N)) :
  rmatch (Cat (Lit 10%N) (Star (Cls [32; 10]%N))) b s g accept
  = match s with
    | x :: t => if N.eqb x 10 then Some (drop_while is_blank t, g) else None
    | [] => None
    end.
Proof.
  destruct s as [|x t]; [done |].
  change (rmatch (Cat (Lit 10%N) (Star (Cls [32; 10]%N))) b (x :: t) g accept)
    with (if N.eqb x 10
          then rmatch (Star (Cls [32; 10]%N)) false t g accept else None).
  by rewrite Engine.rmatch_star_cls, Engine.star_cls_accept.
Qed.

(** The newline pattern at one position: it matches when the run of
    blanks that starts there holds a newline, and then takes the whole
    run. *)
Lemma star_cls_newline (b : bool) (s : str) (g : list (nat * list N)) :
  star_cls [32; 10]%N
    (fun b' s' g' =>
       rmatch (Cat (Lit 10%N) (Star (Cls [32; 10]%N))) b' s' g' accept) b s g
  = if in_class (take_while is_blank s) 10%N
    then Some (drop_while is_blank s, g) else None.
Proof.
  revert b. induction s as [|c t IH]; intros b; [done |].
  cbn [star_cls take_while drop_while]. fold (is_blank c).
  rewrite newline_then_blanks.
  destruct (is_blank c) eqn:Ec.
  - rewrite IH.
    destruct (in_class (take_while is_blank t) 10%N) eqn:Et.
    + assert (in_class (c :: take_while is_blank t) 10%N = true) as ->; [| done].
      apply in_class_true. apply elem_of_cons. right. by apply in_class_true.
    + destruct (N.eqb c 10) eqn:E10.
      * apply N.eqb_eq in E10. subst c.
        assert (in_class (10%N :: take_while is_blank t) 10%N = true) as ->;
          [| done].
        apply in_class_true. apply elem_of_cons. by left.
      * assert (in_class (c :: take_while is_blank t) 10%N = false) as ->;
          [| done].
        apply in_class_false. intros H. apply elem_of_cons in H as [H | H].
        -- subst c. by rewrite N.eqb_refl in E10.
        -- apply in_class_false in Et. done.
  - destruct (N.eqb c 10) eqn:E10; [| done].
    apply N.eqb_eq in E10. subst c. by vm_compute in Ec.
Qed.

Lemma rmatch_newlines (b : bool) (s : str) :
  rmatch _RE_REMOVE_NEWLINES b s [] accept
  = if in_class (take_while is_blank s) 10%N
    then Some (drop_while is_blank s, []) else None.
Proof.
  change (rmatch _RE_REMOVE_NEWLINES b s [] accept)
    with (rmatch (Star (Cls [32; 10]%N)) b s []
            (fun b' s' g' =>
               rmatch (Cat (Lit 10%N) (Star (Cls [32; 10]%N))) b' s' g' accept)).
  rewrite Engine.rmatch_star_cls. apply star_cls_newline.
Qed.

Lemma newline_runs_replaced (t : str) :
  newline_runs true t = newline_runs false (drop_while is_blank t).
Proof.
  induction t as [|c t IH]; [done |]. cbn [newline_runs drop_while].
  destruct (is_blank c) eqn:Ec; [done |].
  cbn [newline_runs]. by rewrite Ec.
Qed.

Lemma newline_scan (fuel : nat) (b : bool) (s : str) :
  (length s < fuel)%nat ->
  sub_pieces (expand [TChr 10%N]) (scan fuel _RE_REMOVE_NEWLINES b s)
  = Ok (newline_runs false s).
Proof.
  revert b s. induction fuel as [|fuel IH]; intros b s Hf; [lia |].
  cbn [scan]. rewrite rmatch_newlines.
  destruct s as [|c t]; [done |].
  destruct (in_class (take_while is_blank (c :: t)) 10%N) eqn:Enl.
  - assert (is_blank c = true) as Ec.
    { cbn [take_while] in Enl. destruct (is_blank c); [done |].
      by vm_compute in Enl. }
    cbn [drop_while]. rewrite Ec.
    pose proof (Engine.drop_while_length is_blank t) as Hd.
    destruct (0 <? length (c :: t) - length (drop_while is_blank t))%nat
      eqn:En; [| cbn [length] in En; lia].
    rewrite Engine.sub_pieces_hit.
    cbn [expand flat_map mbind result_bind mret result_ret app].
    rewrite IH by (cbn [length] in Hf; lia). cbn [mbind result_bind].
    cbn [newline_runs]. rewrite Ec, Enl. by rewrite newline_runs_replaced.
  - rewrite Engine.sub_pieces_keep, IH by (cbn [length] in Hf; lia).
    cbn [mbind result_bind newline_runs]. rewrite Enl.
    by destruct (is_blank c).
Qed.

(** The newline pass always returns. *)
Lemma newline_pass_spec (text : str) :
  re_sub _RE_REMOVE_NEWLINES (expand [TChr 10%N]) text
  = Ok (newline_runs false text).
Proof. apply newline_scan. lia. Qed.

(** *** The loop that halves runs of spaces *)

Lemma replace_spaces_hit (t : str) :
  Py.replace [32; 32]%N [32%N] (32 :: 32 :: t)%N
  = 32%N :: Py.replace [32; 32]%N [32%N] t.
Proof.
  unfold Py.replace. cbn [Py.replace_from length Nat.sub].
  rewrite bool_decide_eq_true_2 by (by exists t). reflexivity.
Qed.

Lemma replace_spaces_miss (c : char) (t : str) :
  ¬ [32; 32]%N `prefix_of` c :: t ->
  Py.replace [32; 32]%N [32%N] (c :: t)
  = c :: Py.replace [32; 32]%N [32%N] t.
Proof.
  intros H. unfold Py.replace. cbn [Py.replace_from].
  by rewrite bool_decide_eq_false_2.
Qed.

Lemma contains_cons (sub : str) (c : char) (t : str) :
  Py.contains sub (c :: t)
  = bool_decide (sub `prefix_of` c :: t) || Py.contains sub t.
Proof. reflexivity. Qed.

Lemma replace_spaces_length (n : nat) (s : str) :
  (length s <= n)%nat ->
  (length (Py.replace [32; 32]%N [32%N] s) <= length s)%nat
  ∧ (Py.contains [32; 32]%N s = true ->
     (length (Py.replace [32; 32]%N [32%N] s) < length s)%nat).
Proof.
  revert s. induction n as [|n IH]; intros s Hn.
  - destruct s; [| cbn in Hn; lia]. split; [done |]. by vm_compute.
  - destruct s as [|c t]; [split; [done | by vm_compute] |].
    destruct (decide ([32; 32]%N `prefix_of` c :: t)) as [Hp | Hp].
    + destruct Hp as [k Hk]. injection Hk as -> ->.
      rewrite replace_spaces_hit. cbn [length] in *.
      destruct (IH k) as [Hle _]; [lia |]. split; lia.
    + rewrite replace_spaces_miss by done. cbn [length] in *.
      destruct (IH t) as [Hle Hlt]; [lia |]. split; [lia |].
      rewrite contains_cons, bool_decide_eq_false_2 by done. cbn [orb].
      intros Hc. specialize (Hlt Hc). lia.
Qed.

(** The loop ends with no two spaces in a row left. *)
Lemma replace_while_spaces (fuel : nat) (s : str) :
  (length s <= fuel)%nat ->
  Py.contains [32; 32]%N (replace_while fuel [32; 32]%N [32%N] s) = false.
Proof.
  revert s. induction fuel as [|fuel IH]; intros s Hf.
  - by destruct s; [| cbn in Hf; lia].
  - cbn [replace_while]. destruct (Py.contains [32; 32]%N s) eqn:Ec; [| done].
    apply IH. destruct (replace_spaces_length (length s) s) as [_ Hlt]; [done |].
    specialize (Hlt Ec). lia.
Qed.

(** A text without two spaces in a row goes through the loop unchanged. *)
Lemma replace_while_fixed (fuel : nat) (old new s : str) :
  Py.contains old s = false -> replace_while fuel old new s = s.
Proof. intros H. destruct fuel; [done |]. cbn. by rewrite H. Qed.

(** *** Runs with a newline *)

Lemma no_adjacent_cons (c : char) (t : str) :
  no_adjacent_blanks (c :: t)
  = negb (is_blank c && match t with x :: _ => is_blank x | [] => false end)
    && no_adjacent_blanks t.
Proof. reflexivity. Qed.

Lemma newline_runs_cons (replaced : bool) (c : char) (t : str) :
  newline_runs replaced (c :: t)
  = if is_blank c then
      if replaced then newline_runs true t
      else if in_class (take_while is_blank (c :: t)) 10%N
           then 10%N :: newline_runs true t
           else c :: newline_runs false t
    else c :: newline_runs false t.
Proof. reflexivity. Qed.

(** After the newline pass on a text without double spaces no two blanks
    are neighbours. *)
Lemma newline_runs_isolated (s : str) (replaced : bool) :
  Py.contains [32; 32]%N s = false ->
  no_adjacent_blanks (newline_runs replaced s) = true
  ∧ (replaced = true ->
     forall x, head (newline_runs replaced s) = Some x -> is_blank x = false).
Proof.
  revert replaced. induction s as [|c t IH]; intros replaced Hc; [done |].
  rewrite contains_cons in Hc. apply orb_false_iff in Hc as [Hp Ht].
  apply bool_decide_eq_false in Hp.
  rewrite newline_runs_cons. destruct (is_blank c) eqn:Ec.
  - destruct replaced.
    + by apply IH.
    + destruct (in_class (take_while is_blank (c :: t)) 10%N) eqn:Enl.
      * split; [| done]. rewrite no_adjacent_cons.
        destruct (IH true Ht) as [-> Hhead].
        destruct (newline_runs true t) as [|x u] eqn:Eu; [done |].
        by rewrite (Hhead eq_refl x).
      * split; [| done]. rewrite no_adjacent_cons.
        destruct (IH false Ht) as [-> _]. rewrite andb_true_r.
        destruct t as [|x t']; [cbn; by rewrite andb_false_r |].
        assert (is_blank x = false) as Ex.
        { destruct (is_blank x) eqn:Ex; [| done]. exfalso.
          cbn [take_while] in Enl. rewrite Ec, Ex in Enl.
          apply in_class_false in Enl.
          apply is_blank_cases in Ec as [-> | ->];
            [| apply Enl, elem_of_cons; by left].
          apply is_blank_cases in Ex as [-> | ->].
          - apply Hp. by exists t'.
          - apply Enl. apply elem_of_cons. right. apply elem_of_cons. by left. }
        rewrite newline_runs_cons, Ex. by rewrite Ex, andb_false_r.
  - split.
    + rewrite no_adjacent_cons. destruct (IH false Ht) as [-> _].
      by rewrite Ec.
    + intros _ x [= <-]. done.
Qed.

(** Text whose blanks are already isolated goes through the newline
    pass unchanged. *)
Lemma newline_runs_fixed (s : str) :
  no_adjacent_blanks s = true -> newline_runs false s = s.
Proof.
  induction s as [|c t IH]; intros Hs; [done |].
  rewrite no_adjacent_cons in Hs. apply andb_true_iff in Hs as [Hc Ht].
  rewrite newline_runs_cons. destruct (is_blank c) eqn:Ec;
    [| by rewrite IH].
  assert (take_while is_blank t = [] ∧ drop_while is_blank t = t) as [Htw Hdw].
  { destruct t as [|x t']; [done |]. cbn in Hc. cbn.
    destruct (is_blank x); [done | done]. }
  cbn [take_while]. rewrite Ec, Htw.
  destruct (in_class [c] 10%N) eqn:E10.
  - apply in_class_true, list_elem_of_singleton in E10. subst c.
    by rewrite newline_runs_replaced, Hdw, IH.
  - by rewrite IH.
Qed.

Lemma take_while_app_stop (P : N -> bool) (pre s : str) :
  Exists (fun c => P c = false) pre ->
  take_while P (pre ++ s) = take_while P pre.
Proof.
  induction 1 as [c pre Hc | c pre _ IH]; cbn.
  - by rewrite Hc.
  - by rewrite IH.
Qed.

Lemma last_exists (P : N -> bool) (pre : str) (x : char) :
  last pre = Some x -> P x = false -> Exists (fun c => P c = false) pre.
Proof.
  intros Hl Hx. apply Exists_exists. exists x. split; [| done].
  by apply last_Some_elem_of.
Qed.

(** The text before a maximal run is treated on its own. *)
Lemma newline_runs_app (pre s : str) (x : char) (replaced : bool) :
  last pre = Some x -> is_blank x = false ->
  newline_runs replaced (pre ++ s)
  = newline_runs replaced pre ++ newline_runs false s.
Proof.
  revert replaced. induction pre as [|c pre IH]; intros replaced Hl Hx; [done |].
  destruct pre as [|y pre].
  - injection Hl as ->. cbn [app]. rewrite !newline_runs_cons, Hx. done.
  - rewrite last_cons_cons in Hl.
    change ((c :: y :: pre) ++ s) with (c :: (y :: pre) ++ s).
    rewrite !newline_runs_cons.
    rewrite !(IH _ Hl Hx).
    replace (take_while is_blank (c :: (y :: pre) ++ s))
      with (take_while is_blank (c :: y :: pre)).
    2:{ symmetry. apply (take_while_app_stop is_blank (c :: y :: pre) s).
        apply (last_exists is_blank _ x); [by rewrite last_cons_cons | done]. }
    destruct (is_blank c); [| done]. destruct replaced; [done |].
    by destruct (in_class _ _).
Qed.

(** A maximal run of blanks that holds a newline becomes one newline. *)
Lemma newline_runs_run (run post : str) :
  run ≠ [] ->
  Forall (fun c => is_blank c = true) run -> 10%N ∈ run ->
  (forall c, head post = Some c -> is_blank c = false) ->
  newline_runs false (run ++ post) = 10%N :: newline_runs false post.
Proof.
  intros Hne Hrun Hnl Hpost.
  destruct (Engine.drop_while_app is_blank run post Hrun Hpost) as [Hd Htw].
  destruct run as [|c run]; [done |].
  change ((c :: run) ++ post) with (c :: run ++ post).
  rewrite newline_runs_cons.
  change (c :: run ++ post) with ((c :: run) ++ post). rewrite Htw.
  assert (is_blank c = true) as -> by (by apply Forall_inv in Hrun).
  assert (in_class (c :: run) 10%N = true) as -> by (by apply in_class_true).
  rewrite newline_runs_replaced. f_equal. f_equal.
  cbn [app drop_while] in Hd.
  by assert (is_blank c = true) as Hc by (by apply Forall_inv in Hrun);
    rewrite Hc in Hd.
Qed.

End Blank.

Module Strip.

Lemma no_adjacent_app (a b : str) :
  no_adjacent_blanks (a ++ b) = true ->
  no_adjacent_blanks a = true ∧ no_adjacent_blanks b = true.
Proof.
  induction a as [|c a IH]; [done |].
  change ((c :: a) ++ b) with (c :: a ++ b).
  rewrite !Blank.no_adjacent_cons, !andb_true_iff.
  intros [Hc Hab]. destruct (IH Hab) as [Ha Hb]. split; [| done].
  split; [| done]. destruct a as [|x a]; [by rewrite andb_false_r | done].
Qed.

Lemma rstrip_prefix (s : str) :
  s = Py.rstrip s ++ reverse (take_while Py.is_space (reverse s)).
Proof.
  unfold Py.rstrip, Py.lstrip. rewrite <- reverse_app.
  by rewrite Engine.take_drop_while, reverse_involutive.
Qed.

Lemma lstrip_suffix (s : str) :
  s = take_while Py.is_space s ++ Py.lstrip s.
Proof. unfold Py.lstrip. by rewrite Engine.take_drop_while. Qed.

Lemma strip_no_adjacent (s : str) :
  no_adjacent_blanks s = true -> no_adjacent_blanks (Py.strip s) = true.
Proof.
  intros Hs. unfold Py.strip.
  rewrite (lstrip_suffix s) in Hs. apply no_adjacent_app in Hs as [_ Hs].
  rewrite (rstrip_prefix (Py.lstrip s)) in Hs.
  by apply no_adjacent_app in Hs as [Hs _].
Qed.

Lemma strip_last (s : str) (c : char) :
  last (Py.strip s) = Some c -> Py.is_space c = false.
Proof.
  unfold Py.strip, Py.rstrip, Py.lstrip. rewrite last_reverse.
  apply Engine.drop_while_head.
Qed.

Lemma strip_head (s : str) (c : char) :
  head (Py.strip s) = Some c -> Py.is_space c = false.
Proof.
  unfold Py.strip. intros Hh.
  pose proof (rstrip_prefix (Py.lstrip s)) as Hp.
  destruct (Py.rstrip (Py.lstrip s)) as [|x u]; [done |].
  injection Hh as ->. apply (Engine.drop_while_head Py.is_space s).
  fold (Py.lstrip s). by rewrite Hp.
Qed.

(** A text that neither starts nor ends with whitespace is its own
    [strip]. *)
Lemma strip_fixed (s : str) :
  (forall c, head s = Some c -> Py.is_space c = false) ->
  (forall c, last s = Some c -> Py.is_space c = false) ->
  Py.strip s = s.
Proof.
  intros Hh Hl. unfold Py.strip.
  assert (forall u, (forall c, head u = Some c -> Py.is_space c = false) ->
                    Py.lstrip u = u) as Hfix.
  { intros [|x u] Hu; [done |]. unfold Py.lstrip. cbn. by rewrite (Hu x). }
  rewrite (Hfix s Hh). unfold Py.rstrip.
  rewrite Hfix; [apply reverse_involutive |].
  intros c Hc. apply Hl. by rewrite <- head_reverse.
Qed.

(** Isolated blanks: no pair of blanks occurs as a substring. *)
Lemma no_adjacent_contains (a b : char) (s : str) :
  no_adjacent_blanks s = true -> is_blank a = true -> is_blank b = true ->
  Py.contains [a; b] s = false.
Proof.
  intros Hs Ha Hb. induction s as [|c t IH]; [by vm_compute |].
  rewrite Blank.no_adjacent_cons in Hs. apply andb_true_iff in Hs as [Hc Ht].
  rewrite Blank.contains_cons, (IH Ht), orb_false_r.
  apply bool_decide_eq_false. intros [k Hk].
  injection Hk as -> Hk. subst t. cbn in Hc. by rewrite Ha, Hb in Hc.
Qed.

End Strip.

Lemma remove_dup_spaces_spec (text : str) :
  remove_dup_spaces text
  = Ok (Py.strip
          (newline_runs false
             (replace_while (length text) [32; 32]%N [32%N] text))).
Proof.
  unfold remove_dup_spaces. by rewrite Blank.newline_pass_spec.
Qed.

(** What [remove_dup_spaces] returns: blanks are isolated, and there is
    no whitespace at either end. *)
Lemma remove_dup_spaces_post (text : str) :
  exists out, remove_dup_spaces text = Ok out
    ∧ no_adjacent_blanks out = true
    ∧ (forall c, head out = Some c -> Py.is_space c = false)
    ∧ (forall c, last out = Some c -> Py.is_space c = false).
Proof.
  eexists. split; [apply remove_dup_spaces_spec |]. split; [| split].
  - apply Strip.strip_no_adjacent, Blank.newline_runs_isolated.
    by apply Blank.replace_while_spaces.
  - apply Strip.strip_head.
  - apply Strip.strip_last.
Qed.


(** *** The space loop as a function of the text *)

Module Squeeze.

Lemma keep_last_app_r (P : N -> bool) (a b : str) :
  (forall c, head b = Some c -> P c = false) ->
  keep_last_of_runs P (a ++ b) = keep_last_of_runs P a ++ keep_last_of_runs P b.
Proof.
  intros Hb. induction a as [|c a IH]; [done |].
  change ((c :: a) ++ b) with (c :: a ++ b).
  rewrite !keep_last_cons, IH. destruct a as [|x a].
  - cbn [app]. rewrite andb_false_r.
    destruct b as [|y b]; [by rewrite andb_false_r |].
    by rewrite (Hb y), andb_false_r.
  - cbn [app]. by destruct (P c && P x).
Qed.

Lemma keep_last_head (P : N -> bool) (s : str) (c : char) :
  head s = Some c -> P c = false -> head (keep_last_of_runs P s) = Some c.
Proof.
  destruct s as [|x t]; [done |]. intros [= ->] Hc.
  by rewrite keep_last_cons, Hc.
Qed.

Lemma keep_last_last (P : N -> bool) (s : str) :
  last (keep_last_of_runs P s) = last s.
Proof.
  induction s as [|c t IH]; [done |]. rewrite keep_last_cons.
  destruct t as [|x t]; [by rewrite andb_false_r |].
  destruct (P c && P x).
  - by rewrite IH, last_cons_cons.
  - rewrite last_cons, IH, last_cons_cons, (last_cons x t).
    by destruct (last t).
Qed.

Lemma keep_last_subset (P : N -> bool) (s : str) (c : char) :
  c ∈ keep_last_of_runs P s -> c ∈ s.
Proof.
  induction s as [|x t IH]; [done |]. rewrite keep_last_cons.
  destruct (P x && _); intros H.
  - apply elem_of_cons. right. by apply IH.
  - apply elem_of_cons in H as [-> | H]; [apply elem_of_cons; by left |].
    apply elem_of_cons. right. by apply IH.
Qed.

Lemma keep_last_keeps (P : N -> bool) (s : str) (c : char) :
  c ∈ s -> P c = false -> c ∈ keep_last_of_runs P s.
Proof.
  intros Hc HP. induction s as [|x t IH]; [done |]. rewrite keep_last_cons.
  apply elem_of_cons in Hc as [<- | Hc].
  - rewrite HP. apply elem_of_cons. by left.
  - destruct (P x && _); [by apply IH |].
    apply elem_of_cons. right. by apply IH.
Qed.

Lemma keep_last_nonempty (P : N -> bool) (s : str) :
  s ≠ [] -> keep_last_of_runs P s ≠ [].
Proof.
  intros Hs Hk. pose proof (keep_last_last P s) as Hl. rewrite Hk in Hl.
  symmetry in Hl. by apply last_None in Hl.
Qed.

(** One pass of [replace("  ", " ")] keeps the first character... *)
Lemma replace_spaces_head (s : str) :
  head (Py.replace [32; 32]%N [32%N] s) = head s.
Proof.
  destruct s as [|c t]; [done |].
  destruct (decide ([32; 32]%N `prefix_of` c :: t)) as [Hp | Hp].
  - destruct Hp as [k Hk]. injection Hk as -> ->.
    by rewrite Blank.replace_spaces_hit.
  - by rewrite Blank.replace_spaces_miss.
Qed.

Lemma keep_last_cons_head (c : char) (u v : str) :
  head u = head v ->
  keep_last_of_runs is_sp u = keep_last_of_runs is_sp v ->
  keep_last_of_runs is_sp (c :: u) = keep_last_of_runs is_sp (c :: v).
Proof.
  intros Hh Hk. rewrite !keep_last_cons, Hk.
  destruct u as [|x u], v as [|y v]; try done.
  by injection Hh as ->.
Qed.

(** ... and what the runs of spaces reduce to. *)
Lemma replace_spaces_squeeze (n : nat) (s : str) :
  (length s <= n)%nat ->
  keep_last_of_runs is_sp (Py.replace [32; 32]%N [32%N] s)
  = keep_last_of_runs is_sp s.
Proof.
  revert s. induction n as [|n IH]; intros s Hn.
  - by destruct s; [| cbn in Hn; lia].
  - destruct s as [|c t]; [done |].
    destruct (decide ([32; 32]%N `prefix_of` c :: t)) as [Hp | Hp].
    + destruct Hp as [k Hk]. injection Hk as -> ->.
      rewrite Blank.replace_spaces_hit. cbn [length] in Hn.
      rewrite (keep_last_cons is_sp 32%N (32%N :: k)).
      change (is_sp 32%N) with true. cbn [andb].
      apply keep_last_cons_head; [apply replace_spaces_head |].
      apply IH. lia.
    + rewrite Blank.replace_spaces_miss by done. cbn [length] in Hn.
      apply keep_last_cons_head; [apply replace_spaces_head |].
      apply IH. lia.
Qed.

Lemma squeeze_fixed (s : str) :
  Py.contains [32; 32]%N s = false -> keep_last_of_runs is_sp s = s.
Proof.
  induction s as [|c t IH]; [done |]. rewrite Blank.contains_cons.
  intros H. apply orb_false_iff in H as [Hp Ht].
  apply bool_decide_eq_false in Hp. rewrite keep_last_cons, (IH Ht).
  destruct (is_sp c && _) eqn:E; [| done].
  exfalso. apply andb_true_iff in E as [Ec Ex].
  destruct t as [|x t]; [done |].
  apply N.eqb_eq in Ec, Ex. subst. apply Hp. by exists t.
Qed.

(** The loop of [remove_dup_spaces] reduces every run of spaces to one
    space. *)
Lemma replace_while_squeeze (fuel : nat) (s : str) :
  (length s <= fuel)%nat ->
  replace_while fuel [32; 32]%N [32%N] s = keep_last_of_runs is_sp s.
Proof.
  intros Hf. rewrite <- (squeeze_fixed (replace_while fuel _ _ s))
    by (by apply Blank.replace_while_spaces).
  clear Hf. revert s. induction fuel as [|fuel IH]; intros s; [done |].
  cbn [replace_while]. destruct (Py.contains [32; 32]%N s); [| done].
  rewrite IH. by apply (replace_spaces_squeeze (length s)).
Qed.

End Squeeze.

(** *** A run between two visible characters *)

Module Interior.

Lemma not_space_not_blank (c : char) : Py.is_space c = false -> is_blank c = false.
Proof.
  intros H. destruct (is_blank c) eqn:E; [| done].
  apply Blank.space_is_blank in E. congruence.
Qed.

Lemma not_blank_not_sp (c : char) : is_blank c = false -> is_sp c = false.
Proof.
  intros H. destruct (is_sp c) eqn:E; [| done].
  apply N.eqb_eq in E. subst c. by vm_compute in H.
Qed.

Lemma remove_dup_spaces_squeezed (text : str) :
  remove_dup_spaces text
  = Ok (Py.strip (newline_runs false (keep_last_of_runs is_sp text))).
Proof.
  rewrite remove_dup_spaces_spec. by rewrite Squeeze.replace_while_squeeze.
Qed.

Lemma newline_runs_last (s : str) (x : char) (replaced : bool) :
  last s = Some x -> is_blank x = false ->
  last (newline_runs replaced s) = Some x.
Proof.
  revert replaced. induction s as [|c t IH]; intros replaced Hl Hx; [done |].
  destruct t as [|y t].
  - injection Hl as ->. by rewrite Blank.newline_runs_cons, Hx.
  - rewrite last_cons_cons in Hl. rewrite Blank.newline_runs_cons.
    assert (forall r z, last (z :: newline_runs r (y :: t)) = Some x) as Hz.
    { intros r z. rewrite last_cons. by rewrite (IH r Hl Hx). }
    destruct (is_blank c); [destruct replaced;
      [by apply IH | destruct (in_class _ _)] |]; apply Hz.
Qed.

Lemma newline_runs_head (s : str) (y : char) (replaced : bool) :
  head s = Some y -> is_blank y = false ->
  head (newline_runs replaced s) = Some y.
Proof.
  destruct s as [|c t]; [done |]. intros [= ->] Hy.
  by rewrite Blank.newline_runs_cons, Hy.
Qed.

(** Before [strip]: the run becomes one newline, the two sides are
    treated on their own. *)
Lemma collapse_run (pre run post : str) (x y : char) :
  run ≠ [] -> Forall (fun c => is_blank c = true) run -> 10%N ∈ run ->
  last pre = Some x -> is_blank x = false ->
  head post = Some y -> is_blank y = false ->
  newline_runs false (keep_last_of_runs is_sp (pre ++ run ++ post))
  = newline_runs false (keep_last_of_runs is_sp pre)
    ++ [10%N] ++ newline_runs false (keep_last_of_runs is_sp post).
Proof.
  intros Hne Hrun Hnl Hx Hbx Hy Hby.
  rewrite keep_last_app
    by (intros c Hc; rewrite Hx in Hc; injection Hc as <-;
        by apply not_blank_not_sp).
  rewrite Squeeze.keep_last_app_r
    by (intros c Hc; rewrite Hy in Hc; injection Hc as <-;
        by apply not_blank_not_sp).
  rewrite (Blank.newline_runs_app _ _ x)
    by (by rewrite ?Squeeze.keep_last_last).
  f_equal. apply Blank.newline_runs_run.
  - by apply Squeeze.keep_last_nonempty.
  - apply Forall_forall. intros c Hc. apply Squeeze.keep_last_subset in Hc.
    by apply (proj1 (Forall_forall _ _) Hrun).
  - by apply Squeeze.keep_last_keeps.
  - intros c Hc.
    rewrite (Squeeze.keep_last_head is_sp post y Hy) in Hc
      by (by apply not_blank_not_sp).
    by injection Hc as <-.
Qed.

Lemma drop_while_app_stop (P : N -> bool) (a s : str) :
  Exists (fun c => P c = false) a ->
  drop_while P (a ++ s) = drop_while P a ++ s.
Proof.
  induction 1 as [c a Hc | c a _ IH]; cbn [app drop_while].
  - by rewrite Hc.
  - destruct (P c); [apply IH | done].
Qed.

Lemma lstrip_app (a s : str) (x : char) :
  last a = Some x -> Py.is_space x = false ->
  Py.lstrip (a ++ s) = Py.lstrip a ++ s.
Proof.
  intros Hl Hx. apply drop_while_app_stop.
  by apply (Blank.last_exists Py.is_space a x).
Qed.

Lemma lstrip_fixed (u : str) (y : char) :
  head u = Some y -> Py.is_space y = false -> Py.lstrip u = u.
Proof.
  destruct u as [|c t]; [done |]. intros [= ->] Hy.
  unfold Py.lstrip. cbn. by rewrite Hy.
Qed.

Lemma rstrip_fixed (u : str) (x : char) :
  last u = Some x -> Py.is_space x = false -> Py.rstrip u = u.
Proof.
  intros Hl Hx. unfold Py.rstrip.
  rewrite (lstrip_fixed (reverse u) x); [apply reverse_involutive | | done].
  by rewrite head_reverse.
Qed.

Lemma rstrip_app (u b : str) (y : char) :
  head b = Some y -> Py.is_space y = false ->
  Py.rstrip (u ++ b) = u ++ Py.rstrip b.
Proof.
  intros Hh Hy. unfold Py.rstrip. rewrite reverse_app.
  rewrite (lstrip_app (reverse b) (reverse u) y);
    [| by rewrite last_reverse | done].
  by rewrite reverse_app, reverse_involutive.
Qed.

Lemma lstrip_last (a : str) (x : char) :
  last a = Some x -> Py.is_space x = false -> last (Py.lstrip a) = Some x.
Proof.
  intros Hl Hx. induction a as [|c a IH]; [done |].
  unfold Py.lstrip. cbn [drop_while]. destruct (Py.is_space c) eqn:Ec; [| done].
  destruct a as [|d a]; [injection Hl as ->; congruence |].
  rewrite last_cons_cons in Hl. by apply IH.
Qed.

(** A run of blanks with a newline in it, between a character [x] and a
    character [y] that are not whitespace, is one newline in the
    output. *)
Lemma remove_dup_spaces_run (pre run post : str) (x y : char) :
  run ≠ [] -> Forall (fun c => is_blank c = true) run -> 10%N ∈ run ->
  last pre = Some x -> Py.is_space x = false ->
  head post = Some y -> Py.is_space y = false ->
  exists pre' post',
    remove_dup_spaces pre = Ok pre' ∧ remove_dup_spaces post = Ok post'
    ∧ remove_dup_spaces (pre ++ run ++ post) = Ok (pre' ++ [10%N] ++ post').
Proof.
  intros Hne Hrun Hnl Hx Hsx Hy Hsy.
  pose proof (not_space_not_blank x Hsx) as Hbx.
  pose proof (not_space_not_blank y Hsy) as Hby.
  eexists _, _. rewrite !remove_dup_spaces_squeezed.
  split; [reflexivity |]. split; [reflexivity |]. f_equal.
  rewrite (collapse_run pre run post x y) by done.
  set (mp := newline_runs false (keep_last_of_runs is_sp pre)).
  set (mq := newline_runs false (keep_last_of_runs is_sp post)).
  assert (last mp = Some x) as Hmp.
  { apply newline_runs_last; [| done]. by rewrite Squeeze.keep_last_last. }
  assert (head mq = Some y) as Hmq.
  { apply newline_runs_head; [| done].
    apply Squeeze.keep_last_head; [done | by apply not_blank_not_sp]. }
  unfold Py.strip.
  rewrite (lstrip_app mp _ x) by done.
  rewrite (lstrip_fixed mq y) by done.
  rewrite (rstrip_fixed (Py.lstrip mp) x) by (by try apply lstrip_last).
  rewrite app_assoc, (rstrip_app _ mq y) by done.
  by rewrite <- app_assoc.
Qed.

End Interior.

(** C8.  For every text [remove_dup_spaces] returns an output in which
    no two spaces are neighbours, every newline stands alone (no newline
    or space next to it), and there is no whitespace at either end.  A
    maximal run of spaces and newlines that holds a newline, between two
    characters that are not whitespace, is exactly one newline in the
    output, the text on either side being collapsed on its own; and the
    newline pass, [_RE_REMOVE_NEWLINES.sub("\n", _)], does the same to
    every such run in its input. *)
Theorem C8_space_newline_collapse :
  (forall text : str,
     exists out, remove_dup_spaces text = Ok out
       ∧ Py.contains [32; 32]%N out = false
       ∧ Py.contains [10; 10]%N out = false
       ∧ Py.contains [32; 10]%N out = false
       ∧ Py.contains [10; 32]%N out = false
       ∧ (forall c, head out = Some c -> Py.is_space c = false)
       ∧ (forall c, last out = Some c -> Py.is_space c = false))
  ∧ (forall (pre run post : str) (x y : char),
       run ≠ [] -> Forall (fun c => is_blank c = true) run -> 10%N ∈ run ->
       last pre = Some x -> Py.is_space x = false ->
       head post = Some y -> Py.is_space y = false ->
       exists pre' post',
         remove_dup_spaces pre = Ok pre' ∧ remove_dup_spaces post = Ok post'
         ∧ remove_dup_spaces (pre ++ run ++ post)
           = Ok (pre' ++ [10%N] ++ post'))
  ∧ (forall pre run post : str,
       run ≠ [] -> Forall (fun c => is_blank c = true) run -> 10%N ∈ run ->
       (forall c, last pre = Some c -> is_blank c = false) ->
       (forall c, head post = Some c -> is_blank c = false) ->
       exists pre' post',
         re_sub _RE_REMOVE_NEWLINES (expand [TChr 10%N]) pre = Ok pre'
         ∧ re_sub _RE_REMOVE_NEWLINES (expand [TChr 10%N]) post = Ok post'
         ∧ re_sub _RE_REMOVE_NEWLINES (expand [TChr 10%N]) (pre ++ run ++ post)
           = Ok (pre' ++ [10%N] ++ post')).
Proof.
  split; [| split].
  - intros text.
    destruct (remove_dup_spaces_post text) as (out & Hout & Hadj & Hh & Hl).
    exists out. split; [done |].
    split; [by apply Strip.no_adjacent_contains |].
    split; [by apply Strip.no_adjacent_contains |].
    split; [by apply Strip.no_adjacent_contains |].
    split; [by apply Strip.no_adjacent_contains |]. done.
  - apply Interior.remove_dup_spaces_run.
  - intros pre run post Hne Hrun Hnl Hpre Hpost.
    eexists _, _. rewrite !Blank.newline_pass_spec.
    split; [reflexivity |]. split; [reflexivity |]. f_equal.
    destruct (last pre) as [x |] eqn:El.
    + rewrite (Blank.newline_runs_app pre _ x false El (Hpre x eq_refl)).
      f_equal. by apply Blank.newline_runs_run.
    + apply last_None in El. subst pre. cbn [app].
      by apply Blank.newline_runs_run.
Qed.

Lemma C8_space_newline_collapse_witness :
  exists pre' post',
    remove_dup_spaces [32; 0x0E01; 32; 32; 0x0E01]%N = Ok pre'
    ∧ remove_dup_spaces [0x0E02; 32; 0x0E03; 10]%N = Ok post'
    ∧ remove_dup_spaces
        ([32; 0x0E01; 32; 32; 0x0E01] ++ [32; 32; 10; 10; 32]
         ++ [0x0E02; 32; 0x0E03; 10])%N
      = Ok (pre' ++ [10%N] ++ post').
Proof.
  destruct C8_space_newline_collapse as (_ & H & _).
  apply (H [32; 0x0E01; 32; 32; 0x0E01]%N [32; 32; 10; 10; 32]%N
           [0x0E02; 32; 0x0E03; 10]%N 0x0E01%N 0x0E02%N).
  - discriminate.
  - repeat constructor.
  - apply in_class_true. reflexivity.
  - reflexivity.
  - reflexivity.
  - reflexivity.
  - reflexivity.
Defined.

(** ** The normalize pipeline *)

Module Inert.

Lemma rmatch_dead (r : regex) :
  forall (b : bool) (s : str) (g : list (nat * list N))
         (k : bool -> str -> list (nat * list N) -> option (str * list (nat * list N))),
    (forall b' s' g', s' `suffix_of` s -> k b' s' g' = None) ->
    rmatch r b s g k = None.
Proof.
  induction r as [c | cs | cs | | r1 IH1 r2 IH2 | r1 IH1 | i r1 IH1];
    intros b s g k Hk.
  - destruct s as [|x t]; [done |]. cbn. destruct (N.eqb x c); [| done].
    apply Hk. by apply suffix_cons_r.
  - destruct s as [|x t]; [done |]. cbn. destruct (in_class cs x); [| done].
    apply Hk. by apply suffix_cons_r.
  - destruct s as [|x t]; [done |]. cbn. destruct (in_class cs x); [done |].
    apply Hk. by apply suffix_cons_r.
  - cbn. destruct b; [| done]. by apply Hk.
  - cbn [rmatch]. apply IH1. intros b' s' g' Hs. apply IH2.
    intros b'' s'' g'' Hs'. apply Hk. by etrans.
  - rewrite Engine.rmatch_star.
    assert (forall n b' s' g', s' `suffix_of` s ->
              iterate (rmatch r1) k n b' s' g' = None) as Hit.
    { induction n as [|n IHn]; intros b' s' g' Hs; cbn [iterate].
      - by apply Hk.
      - rewrite IH1; [by apply Hk |].
        intros b'' s'' g'' Hs'. apply IHn. by etrans. }
    by apply Hit.
  - cbn [rmatch]. apply IH1. intros b' s' g' Hs. by apply Hk.
Qed.

(** A pattern that demands a character absent from the text matches
    nowhere in it. *)
Lemma no_match (P : N -> bool) (r : regex) :
  demands P r = true ->
  forall (b : bool) (s : str) (g : list (nat * list N))
         (k : bool -> str -> list (nat * list N) -> option (str * list (nat * list N))),
    Forall (fun c => P c = false) s -> rmatch r b s g k = None.
Proof.
  induction r as [c | cs | cs | | r1 IH1 r2 IH2 | r1 IH1 | i r1 IH1];
    cbn [demands]; intros Hd b s g k Hs; try done.
  - destruct s as [|x t]; [done |]. cbn. destruct (N.eqb x c) eqn:E; [| done].
    apply N.eqb_eq in E. subst x. apply Forall_inv in Hs. congruence.
  - destruct s as [|x t]; [done |]. cbn. destruct (in_class cs x) eqn:E; [| done].
    apply in_class_true in E. rewrite forallb_forall in Hd.
    apply list_elem_of_In in E. apply Hd in E. apply Forall_inv in Hs. congruence.
  - cbn [rmatch]. apply orb_true_iff in Hd as [Hd | Hd].
    + by apply IH1.
    + apply rmatch_dead. intros b' s' g' [u ->]. apply IH2; [done |].
      by apply Forall_app in Hs as [_ Hs].
  - cbn [rmatch]. by apply IH1.
Qed.

Lemma sub_inert (P : N -> bool) (r : regex) (repl : match_obj -> result str)
    (text : str) :
  demands P r = true -> Forall (fun c => P c = false) text ->
  re_sub r repl text = Ok text.
Proof.
  intros Hd Ht. unfold re_sub. apply Engine.scan_no_match; [lia | |].
  - by apply (no_match P).
  - intros s' [u ->]. apply (no_match P); [done |].
    by apply Forall_app in Ht as [_ Ht].
Qed.

Lemma sub_pairs_inert (P : N -> bool) (pairs : list (regex * list titem))
    (text : str) :
  Forall (fun pair => demands P (fst pair) = true) pairs ->
  Forall (fun c => P c = false) text ->
  sub_pairs pairs text = Ok text.
Proof.
  intros Hp Ht. unfold sub_pairs. revert Hp.
  induction pairs as [|pair pairs IH] using rev_ind; intros Hp; [done |].
  apply Forall_app in Hp as [Hp Hd]. apply Forall_inv in Hd.
  rewrite foldl_snoc, IH by done. cbn [mbind result_bind].
  by apply (sub_inert P).
Qed.

End Inert.

Module Passes.

(** *** Zero-width characters *)

Lemma replace_single (ch : char) (s : str) :
  Py.replace [ch] [] s = filter (fun c => c ≠ ch) s.
Proof.
  unfold Py.replace. induction s as [|c t IH]; [done |].
  cbn [Py.replace_from length Nat.sub].
  destruct (decide (c = ch)) as [-> | Hne].
  - rewrite bool_decide_eq_true_2 by (by exists t).
    rewrite filter_cons_False by (by intros H). by rewrite IH.
  - rewrite bool_decide_eq_false_2.
    + rewrite filter_cons_True by done. by rewrite IH.
    + intros [k Hk]. by injection Hk as -> _.
Qed.

Lemma filter_absent (ch : char) (s : str) :
  ch ∉ s -> filter (fun c => c ≠ ch) s = s.
Proof.
  induction s as [|c t IH]; intros Hn; [done |].
  apply not_elem_of_cons in Hn as [Hne Hn].
  rewrite filter_cons_True by done. by rewrite IH.
Qed.

Lemma replace_while_single (ch : char) (s : str) :
  replace_while (length s) [ch] [] s = filter (fun c => c ≠ ch) s.
Proof.
  destruct (Py.contains [ch] s) eqn:Ec.
  - destruct s as [|c t]; [by vm_compute in Ec |].
    cbn [length replace_while]. rewrite Ec, replace_single.
    apply Blank.replace_while_fixed, PyFacts.contains_char_false.
    intros H. apply list_elem_of_filter in H as [H _]. done.
  - rewrite Blank.replace_while_fixed by done.
    apply PyFacts.contains_char_false in Ec. by rewrite filter_absent.
Qed.

Lemma remove_zw_spec (text : str) :
  remove_zw text
  = filter (fun c => c ≠ 0x200C%N) (filter (fun c => c ≠ 0x200B%N) text).
Proof.
  unfold remove_zw, _ZERO_WIDTH_CHARS. cbn [foldl].
  by rewrite !replace_while_single.
Qed.



Lemma remove_zw_subset (text : str) (c : char) :
  c ∈ remove_zw text -> c ∈ text.
Proof.
  rewrite remove_zw_spec. intros H.
  apply list_elem_of_filter in H as [_ H].
  by apply list_elem_of_filter in H as [_ H].
Qed.

(** *** Characters of the output of [remove_dup_spaces] *)

Lemma replace_spaces_subset (n : nat) (s : str) (c : char) :
  (length s <= n)%nat -> c ∈ Py.replace [32; 32]%N [32%N] s -> c ∈ s.
Proof.
  revert s. induction n as [|n IH]; intros s Hn.
  - destruct s; [done | cbn in Hn; lia].
  - destruct s as [|x t]; [done |].
    destruct (decide ([32; 32]%N `prefix_of` x :: t)) as [Hp | Hp].
    + destruct Hp as [k Hk]. injection Hk as -> ->.
      rewrite Blank.replace_spaces_hit. cbn [length] in Hn.
      intros H. apply elem_of_cons in H as [-> | H]; [apply elem_of_cons; by left |].
      apply elem_of_cons. right. apply elem_of_cons. right. apply IH; [lia | done].
    + rewrite Blank.replace_spaces_miss by done. cbn [length] in Hn.
      intros H. apply elem_of_cons in H as [-> | H]; [apply elem_of_cons; by left |].
      apply elem_of_cons. right. apply IH; [lia | done].
Qed.

Lemma replace_while_spaces_subset (fuel : nat) (s : str) (c : char) :
  c ∈ replace_while fuel [32; 32]%N [32%N] s -> c ∈ s.
Proof.
  revert s. induction fuel as [|fuel IH]; intros s; [done |].
  cbn [replace_while]. destruct (Py.contains _ s); [| done].
  intros H. apply IH in H. by apply (replace_spaces_subset (length s)) in H.
Qed.

Lemma take_while_subset (P : N -> bool) (s : str) (c : char) :
  c ∈ take_while P s -> c ∈ s.
Proof.
  intros H. rewrite <- (Engine.take_drop_while P s). apply elem_of_app. by left.
Qed.

Lemma newline_runs_subset (replaced : bool) (s : str) (c : char) :
  c ∈ newline_runs replaced s -> c ∈ s.
Proof.
  revert replaced. induction s as [|x t IH]; intros replaced; [done |].
  rewrite Blank.newline_runs_cons.
  destruct (is_blank x); [destruct replaced;
    [| destruct (in_class (take_while is_blank (x :: t)) 10%N) eqn:Enl] |].
  - intros H. apply elem_of_cons. right. by apply IH in H.
  - intros H. apply elem_of_cons in H as [-> | H].
    + apply in_class_true in Enl. by apply take_while_subset in Enl.
    + apply elem_of_cons. right. by apply IH in H.
  - intros H. apply elem_of_cons in H as [-> | H]; [apply elem_of_cons; by left |].
    apply elem_of_cons. right. by apply IH in H.
  - intros H. apply elem_of_cons in H as [-> | H]; [apply elem_of_cons; by left |].
    apply elem_of_cons. right. by apply IH in H.
Qed.

Lemma strip_subset (s : str) (c : char) : c ∈ Py.strip s -> c ∈ s.
Proof.
  unfold Py.strip. intros H.
  rewrite (Strip.lstrip_suffix s). apply elem_of_app. right.
  rewrite (Strip.rstrip_prefix (Py.lstrip s)). apply elem_of_app. by left.
Qed.

Lemma remove_dup_spaces_subset (text out : str) (c : char) :
  remove_dup_spaces text = Ok out -> c ∈ out -> c ∈ text.
Proof.
  rewrite remove_dup_spaces_spec. intros [= <-] H.
  apply strip_subset, newline_runs_subset in H.
  by apply replace_while_spaces_subset in H.
Qed.



End Passes.

Section NormalizeFacts.

Variables above_v below_v follow_v lead_v tonemarks : str.

Let rules : str := rule_chars above_v below_v follow_v lead_v tonemarks.

(** Membership in a concatenation of tables. *)
Ltac member :=
  intros; rewrite ?elem_of_app, ?elem_of_cons in *; intuition auto.

Lemma forallb_in_class (R cs : str) :
  (forall c, c ∈ cs -> c ∈ R) -> forallb (in_class R) cs = true.
Proof.
  intros H. apply forallb_forall. intros c Hc.
  apply in_class_true, H. by apply list_elem_of_In.
Qed.

Lemma reorder_demands :
  Forall (fun pair => demands (in_class rules) (fst pair) = true)
         (_REORDER_PAIRS above_v below_v follow_v tonemarks).
Proof.
  unfold _REORDER_PAIRS, rules, rule_chars.
  repeat apply Forall_cons_2; [| | | | | apply Forall_nil_2]; cbn [fst demands Plus].
  - apply orb_true_iff. left. apply in_class_true. member.
  - apply orb_true_iff. left. apply orb_true_iff. left.
    apply forallb_in_class. member.
  - apply orb_true_iff. left. apply in_class_true. member.
  - apply orb_true_iff. left. apply orb_true_iff. left.
    apply forallb_in_class. member.
  - apply orb_true_iff. right. apply in_class_true. member.
Qed.

Lemma norepeat_demands :
  Forall (fun pair => demands (in_class rules) (fst pair) = true)
         (_NOREPEAT_PAIRS above_v below_v follow_v lead_v).
Proof.
  unfold _NOREPEAT_PAIRS. apply Forall_fmap, Forall_forall. intros ch Hch.
  cbn [fst demands Plus compose]. apply orb_true_iff. right.
  apply in_class_true. unfold _NOREPEAT_CHARS in Hch.
  unfold rules, rule_chars. revert Hch. member.
Qed.

Lemma tone_demands : demands (in_class rules) (_RE_TONEMARKS tonemarks) = true.
Proof.
  cbn [_RE_TONEMARKS demands Plus]. apply orb_true_iff. left.
  apply forallb_in_class. unfold rules, rule_chars. member.
Qed.

Lemma dangling_demands :
  demands (in_class rules) (_RE_REMOVE_DANGLINGS above_v below_v tonemarks) = true.
Proof.
  cbn [_RE_REMOVE_DANGLINGS demands Plus orb]. apply orb_true_iff. left.
  apply forallb_in_class. unfold _DANGLING_CHARS, rules, rule_chars. member.
Qed.

(** On a text without rule characters the vowel and tone passes and the
    trimmer change nothing. *)
Lemma marks_passes_idle (text : str) :
  Forall (fun c => c ∉ rules) text ->
  remove_repeat_vowels above_v below_v follow_v lead_v tonemarks text = Ok text
  ∧ remove_dangling above_v below_v tonemarks text = Ok text.
Proof.
  intros Ht.
  assert (Forall (fun c => in_class rules c = false) text) as Ht'.
  { eapply Forall_impl; [exact Ht |]. intros c Hc. by apply in_class_false. }
  split.
  - unfold remove_repeat_vowels, reorder_vowels.
    rewrite (Inert.sub_pairs_inert (in_class rules)) by (apply reorder_demands || done).
    cbn [mbind result_bind].
    rewrite (Inert.sub_pairs_inert (in_class rules)) by (apply norepeat_demands || done).
    cbn [mbind result_bind].
    apply (Inert.sub_inert (in_class rules)); [apply tone_demands | done].
  - apply (Inert.sub_inert (in_class rules)); [apply dangling_demands | done].
Qed.

Lemma normalize_idle (text : str) :
  Forall (fun c => c ∉ rules) text ->
  normalize above_v below_v follow_v lead_v tonemarks text
  = remove_dup_spaces (remove_zw text).
Proof.
  intros Ht. unfold normalize.
  destruct (remove_dup_spaces_post (remove_zw text)) as (y & Hy & _).
  rewrite Hy. cbn [mbind result_bind].
  assert (Forall (fun c => c ∉ rules) y) as Hyr.
  { apply Forall_forall. intros c Hc.
    apply (Passes.remove_dup_spaces_subset _ _ c Hy), Passes.remove_zw_subset in Hc.
    by apply (proj1 (Forall_forall _ _) Ht). }
  destruct (marks_passes_idle y Hyr) as [-> Hd]. done.
Qed.

End NormalizeFacts.




(** A second way in: two tone-mark/vowel pairs in a row are swapped
    pair by pair, which leaves a new pair to swap. *)
Example normalize_twice_marks :
  let norm := normalize Thai.above_vowels Thai.below_vowels
                Thai.follow_vowels Thai.lead_vowels Thai.tonemarks in
  norm Sample.k_marks = Ok [0x0E01; 0x0E34; 0x0E48; 0x0E34; 0x0E48]%N
  ∧ norm [0x0E01; 0x0E34; 0x0E48; 0x0E34; 0x0E48]%N
    = Ok [0x0E01; 0x0E34; 0x0E48]%N.
Proof. split; vm_compute; reflexivity. Qed.

(** * Further properties of the module's functions *)

(** ** The index and the scan *)

Section IndexContents.

Variable consonants : str.

Lemma reset_other (cs : str) (st : gmap N (list (list N))) (k : char) :
  k ∉ cs -> foldl (fun m c => <[c := []]> m) st cs !! k = st !! k.
Proof.
  induction cs as [|x cs IH] using rev_ind; intros Hk; [done |].
  rewrite foldl_snoc. apply not_elem_of_app in Hk as [Hk Hx].
  rewrite lookup_insert_ne; [by apply IH |].
  intros ->. apply Hx. by apply list_elem_of_singleton.
Qed.

Lemma ends_with_double_true (c : char) (w : str) :
  ends_with_double c w = true <-> exists body, w = body ++ [c; c].
Proof.
  unfold ends_with_double. split.
  - destruct (reverse w) as [|a [|b t]] eqn:E; try done.
    rewrite andb_true_iff, !N.eqb_eq. intros [-> ->].
    exists (reverse t). rewrite <- (reverse_involutive w), E.
    rewrite !reverse_cons. by rewrite <- app_assoc.
  - intros [body ->]. rewrite reverse_app. cbn. by rewrite N.eqb_refl.
Qed.

Lemma ends_with_double_other (c k : char) (body : str) :
  c ≠ k -> ends_with_double c (body ++ [k; k]) = false.
Proof.
  intros Hne. destruct (ends_with_double c (body ++ [k; k])) eqn:E; [| done].
  apply ends_with_double_true in E as [body' E].
  apply (f_equal last) in E.
  rewrite !last_app in E. cbn in E. congruence.
Qed.

Lemma update_contents (dictionary : list str) (st : gmap N (list (list N))) :
  exists st',
    _update_consonant_repeaters consonants dictionary st = Ok st'
    ∧ (forall c, c ∈ consonants ->
         st' !! c
         = Some (filter (fun w => ends_with_double c w = true) dictionary))
    ∧ (forall k, k ∉ consonants -> st' !! k = st !! k).
Proof.
  induction dictionary as [|word d IH] using rev_ind.
  - eexists. split; [reflexivity |]. split.
    + intros c Hc. by apply reset_lookup.
    + intros k Hk. by apply reset_other.
  - destruct IH as (m & Hm & Hin & Hout). rewrite update_snoc, Hm.
    cbn [mbind result_bind]. rewrite is_consonant_repeater_spec.
    cbn [mbind result_bind].
    destruct (ends_doubled consonants word) eqn:E.
    + apply ends_doubled_true in E as (body & k & -> & Hk).
      rewrite PyFacts.index_last_of_two. cbn [mbind result_bind].
      unfold dict_get. rewrite (Hin k Hk).
      cbn [mbind result_bind mret result_ret].
      eexists. split; [reflexivity |]. split.
      * intros c Hc. rewrite filter_app.
        destruct (decide (k = c)) as [-> | Hne].
        -- rewrite lookup_insert_eq. f_equal. f_equal.
           rewrite filter_cons_True; [done |].
           apply ends_with_double_true. by exists body.
        -- rewrite lookup_insert_ne by done. rewrite (Hin c Hc).
           rewrite filter_cons_False, app_nil_r; [done |].
           rewrite ends_with_double_other by done. done.
      * intros c Hc. rewrite lookup_insert_ne; [by apply Hout |].
        intros ->. done.
    + exists m. split; [done |]. split; [| done].
      intros c Hc. rewrite filter_app, filter_cons_False, app_nil_r;
        [by apply Hin |].
      intros Hw. apply ends_with_double_true in Hw as [body ->].
      assert (ends_doubled consonants (body ++ [c; c]) = true) as Ht
        by (apply ends_doubled_true; by exists body, c).
      congruence.
Qed.

End IndexContents.

(** [_get_repitition_head] never raises: it returns the text without its
    whole trailing run of [dup], the text is that head followed by copies
    of [dup], the head does not end with [dup], and stripping the head
    again changes nothing. *)
Theorem get_repitition_head_strips_run (text : str) (dup : char) :
  exists head k,
    _get_repitition_head text dup = Ok head
    ∧ text = head ++ replicate k dup
    ∧ last head ≠ Some dup
    ∧ _get_repitition_head head dup = Ok head.
Proof.
  exists (stripped_head dup text), (trailing_run dup text).
  split; [apply get_repitition_head_spec |].
  split; [apply stripped_head_run |].
  split; [apply stripped_head_last |].
  rewrite get_repitition_head_spec. f_equal.
  pose proof (stripped_head_last dup text) as Hl.
  destruct (stripped_head dup text) as [|x h _] using rev_ind; [done |].
  rewrite stripped_head_snoc. destruct (N.eqb x dup) eqn:E; [| done].
  apply N.eqb_eq in E. subst. by rewrite last_snoc in Hl.
Qed.

(** [_is_consonant_repeater] never raises, whatever the word (empty and
    one-character words included), and answers [True] exactly for the
    words that end with a consonant written twice. *)
Theorem is_consonant_repeater_iff (consonants : str) (word : str) :
  exists b,
    _is_consonant_repeater consonants word = Ok b
    ∧ (b = true <-> exists body c, word = body ++ [c; c] ∧ c ∈ consonants).
Proof.
  exists (ends_doubled consonants word).
  split; [apply is_consonant_repeater_spec | apply ends_doubled_true].
Qed.

Lemma is_consonant_repeater_iff_witness :
  _is_consonant_repeater Thai.consonants Sample.kk = Ok true.
Proof.
  destruct (is_consonant_repeater_iff Thai.consonants Sample.kk)
    as (b & Hb & Hiff).
  rewrite Hb. f_equal. apply Hiff. exists [], 0x0E01%N.
  split; [reflexivity | apply in_class_true; reflexivity].
Defined.

(** [_update_consonant_repeaters] never raises.  Afterwards the entry of
    each consonant [c] is exactly the list of the dictionary's words that
    end with [cc], in the dictionary's order and with its duplicates;
    what was stored under a consonant before is gone, and keys that are
    not consonants keep their entries. *)
Theorem update_consonant_repeaters_contents
    (consonants : str) (dictionary : list str) (st : gmap N (list (list N))) :
  exists st',
    _update_consonant_repeaters consonants dictionary st = Ok st'
    ∧ (forall c, c ∈ consonants ->
         st' !! c
         = Some (filter (fun w => ends_with_double c w = true) dictionary))
    ∧ (forall k, k ∉ consonants -> st' !! k = st !! k).
Proof. apply update_contents. Qed.

Lemma update_consonant_repeaters_contents_witness :
  exists st',
    _update_consonant_repeaters Thai.consonants
      [Sample.um5; Sample.muen; Sample.um2] ∅ = Ok st'
    ∧ st' !! 0x0E21%N = Some [Sample.um5; Sample.um2].
Proof.
  destruct (update_consonant_repeaters_contents Thai.consonants
              [Sample.um5; Sample.muen; Sample.um2] ∅) as (st' & H & Hin & _).
  exists st'. split; [exact H |].
  rewrite Hin; [reflexivity | apply in_class_true; reflexivity].
Defined.

(** Rebuilding the index from the same dictionary a second time gives
    the same index. *)
Theorem update_consonant_repeaters_again
    (consonants : str) (dictionary : list str) (st st' : gmap N (list (list N))) :
  _update_consonant_repeaters consonants dictionary st = Ok st' ->
  _update_consonant_repeaters consonants dictionary st' = Ok st'.
Proof.
  intros H1.
  destruct (update_contents consonants dictionary st) as (r1 & Hr1 & Hin1 & Hout1).
  assert (r1 = st') as -> by congruence.
  destruct (update_contents consonants dictionary st') as (r2 & Hr2 & Hin2 & Hout2).
  rewrite Hr2. f_equal. apply map_eq. intros k.
  destruct (decide (k ∈ consonants)) as [Hk | Hk].
  - by rewrite Hin1, Hin2.
  - by apply Hout2.
Qed.

Lemma update_consonant_repeaters_again_witness :
  _update_consonant_repeaters Thai.consonants [Sample.um5; Sample.muen; Sample.kdd]
    (<[0x0E14%N := [Sample.kdd]]>
       (<[0x0E21%N := [Sample.um5]]>
          (foldl (fun m c => <[c := []]> m) ∅ Thai.consonants)))
  = Ok (<[0x0E14%N := [Sample.kdd]]>
          (<[0x0E21%N := [Sample.um5]]>
             (foldl (fun m c => <[c := []]> m) ∅ Thai.consonants))).
Proof.
  apply (update_consonant_repeaters_again Thai.consonants
           [Sample.um5; Sample.muen; Sample.kdd] ∅).
  vm_compute. reflexivity.
Defined.

Section ScanFacts.

Lemma find_raise_stays (segment_head : str) (repeaters : list str) (e : exn) :
  foldl (fun acc repeater => best ← acc; match_step segment_head best repeater)
        (Raise e) repeaters = Raise e.
Proof. induction repeaters as [|r reps IH]; [done |]. cbn. apply IH. Qed.

Lemma find_app (segment_head : str) (pre post : list str) :
  _find_longest_consonant_repeaters_match segment_head (pre ++ post)
  = foldl (fun acc repeater => best ← acc; match_step segment_head best repeater)
          (_find_longest_consonant_repeaters_match segment_head pre) post.
Proof. unfold _find_longest_consonant_repeaters_match. apply foldl_app. Qed.

End ScanFacts.

(** [_find_longest_consonant_repeaters_match] over non-empty candidate
    words returns.  It returns the empty word (with count 0) exactly when
    no candidate passes the test of the scan; otherwise it returns a
    candidate that passes, no passing candidate is longer, every passing
    candidate listed before it is strictly shorter, and the count is the
    length of the candidate minus that of its stripped head. *)
Theorem find_longest_first_of_longest
    (segment_head : str) (repeaters : list str) :
  Forall (fun r => r ≠ []) repeaters ->
  exists w n,
    _find_longest_consonant_repeaters_match segment_head repeaters = Ok (w, n)
    ∧ (w = [] <-> forall r, r ∈ repeaters -> ¬ head_matches segment_head r)
    ∧ (w = [] -> n = 0)
    ∧ (w ≠ [] ->
       head_matches segment_head w
       ∧ n = Py.len w - Py.len (candidate_head w)
       ∧ (forall r, r ∈ repeaters -> head_matches segment_head r ->
            (length r <= length w)%nat)
       ∧ exists pre post, repeaters = pre ++ w :: post
           ∧ forall r, r ∈ pre -> head_matches segment_head r ->
               (length r < length w)%nat).
Proof.
  intros Hne.
  destruct (find_spec segment_head repeaters Hne) as (w & n & Hfind & Hmax & Hw).
  exists w, n. split; [done |]. split; [| split].
  - split.
    + intros -> r Hr Hm. specialize (Hmax r Hr Hm).
      apply (proj1 (Forall_forall _ _) Hne) in Hr.
      destruct r; [done | cbn in Hmax; lia].
    + intros Hno. destruct Hw as [[-> _] | (_ & Hm & pre & post & -> & _)];
        [done |].
      exfalso. apply (Hno w); [| done].
      apply elem_of_app. right. apply elem_of_cons. by left.
  - intros ->. destruct Hw as [[_ ->] | (_ & _ & pre & post & -> & _)]; [done |].
    apply Forall_app in Hne as [_ Hne]. by apply Forall_inv in Hne.
  - intros Hw'. destruct Hw as [[-> _] | (Hn & Hm & Hfirst)]; [done |]. done.
Qed.

Lemma find_longest_first_of_longest_witness :
  exists w n,
    _find_longest_consonant_repeaters_match [0x0E2D; 0x0E37]%N
      [Sample.kdd; Sample.um2; Sample.um5; Sample.um5] = Ok (w, n)
    ∧ (w = [] <-> forall r, r ∈ [Sample.kdd; Sample.um2; Sample.um5; Sample.um5] ->
                    ¬ head_matches [0x0E2D; 0x0E37]%N r)
    ∧ (w = [] -> n = 0)
    ∧ (w ≠ [] ->
       head_matches [0x0E2D; 0x0E37]%N w
       ∧ n = Py.len w - Py.len (candidate_head w)
       ∧ (forall r, r ∈ [Sample.kdd; Sample.um2; Sample.um5; Sample.um5] ->
            head_matches [0x0E2D; 0x0E37]%N r -> (length r <= length w)%nat)
       ∧ exists pre post,
           [Sample.kdd; Sample.um2; Sample.um5; Sample.um5] = pre ++ w :: post
           ∧ forall r, r ∈ pre -> head_matches [0x0E2D; 0x0E37]%N r ->
               (length r < length w)%nat).
Proof.
  apply find_longest_first_of_longest. repeat constructor; discriminate.
Defined.

(** An empty candidate word makes the scan raise [IndexError]
    ([repeater[-1]]), whatever comes after it. *)
Theorem find_longest_empty_candidate_raises
    (segment_head : str) (pre post : list str) :
  Forall (fun r => r ≠ []) pre ->
  _find_longest_consonant_repeaters_match segment_head (pre ++ [] :: post)
  = Raise IndexError.
Proof.
  intros Hne. rewrite find_app.
  destruct (find_spec segment_head pre Hne) as (w & n & -> & _).
  cbn [foldl mbind result_bind]. rewrite match_step_empty.
  apply find_raise_stays.
Qed.

Lemma find_longest_empty_candidate_raises_witness :
  _find_longest_consonant_repeaters_match Sample.muen
    ([Sample.um5] ++ [] :: [Sample.ngong]) = Raise IndexError.
Proof.
  apply find_longest_empty_candidate_raises. repeat constructor; discriminate.
Defined.

(** ** One segment, then the text *)

Section SegmentFacts.

Variable consonants : str.

Lemma stripped_head_of_result (head : str) (dup : char) (n : nat) :
  last head ≠ Some dup -> stripped_head dup (head ++ replicate n dup) = head.
Proof.
  intros Hl. unfold stripped_head.
  rewrite trailing_run_app_replicate by done.
  rewrite length_app, length_replicate.
  replace (length head + n - n)%nat with (length head) by lia.
  apply take_app_length.
Qed.

Lemma replicate_two_end (dup : char) (n : nat) :
  (2 <= n)%nat -> replicate n dup = replicate (n - 2) dup ++ [dup; dup].
Proof.
  intros Hn. replace n with ((n - 2) + 2)%nat at 1 by lia.
  by rewrite replicate_add.
Qed.

(** What a built index does to a segment that ends in a doubled
    consonant. *)
Lemma segment_result (st : gmap N (list (list N))) (body : str) (dup : char) :
  index_built consonants st -> dup ∈ consonants ->
  exists n,
    _remove_repeat_consonants_from_segment consonants st (body ++ [dup; dup])
    = Ok (stripped_head dup (body ++ [dup; dup]) ++ replicate n dup)
    ∧ (1 <= n)%nat
    ∧ _remove_repeat_consonants_from_segment consonants st
        (stripped_head dup (body ++ [dup; dup]) ++ replicate n dup)
      = Ok (stripped_head dup (body ++ [dup; dup]) ++ replicate n dup).
Proof.
  intros Hb Hc. destruct (Hb dup Hc) as (l & Hl & Hws).
  set (seg := body ++ [dup; dup]). set (head := stripped_head dup seg).
  pose proof (stripped_head_last dup seg) as Hlast. fold head in Hlast.
  pose proof (built_candidates_nonempty consonants st dup l Hb Hc Hl) as Hne.
  destruct (find_spec head l Hne) as (w & k & Hfind & _ & Hw).
  unfold seg at 1. rewrite (segment_target consonants st body dup l Hc Hl).
  fold seg. fold head. rewrite Hfind. cbn [mbind result_bind].
  destruct Hw as [[-> ->] | (Hk & _ & pre & post & Hreps & _)].
  - exists 1%nat. split; [done |]. split; [done |].
    apply segment_not_target.
    destruct (ends_doubled consonants (head ++ replicate 1 dup)) eqn:E; [| done].
    exfalso. apply ends_doubled_true in E as (b' & c' & E & _).
    cbn [replicate] in E.
    replace (b' ++ [c'; c']) with ((b' ++ [c']) ++ [c']) in E
      by (by rewrite <- app_assoc).
    apply app_inj_tail in E as [E1 E2]. subst c'.
    apply Hlast. rewrite E1. apply last_snoc.
  - destruct (Hws w) as [wbody Hwb].
    { rewrite Hreps. apply elem_of_app. right. apply elem_of_cons. by left. }
    assert (k = Z.of_nat (trailing_run dup w)) as Hrun.
    { rewrite Hk, Hwb.
      replace (wbody ++ [dup; dup]) with ((wbody ++ [dup]) ++ [dup])
        by (by rewrite <- app_assoc).
      apply candidate_count. }
    assert (2 <= trailing_run dup w)%nat as H2.
    { rewrite Hwb.
      replace (wbody ++ [dup; dup]) with ((wbody ++ [dup]) ++ [dup])
        by (by rewrite <- app_assoc).
      rewrite !trailing_run_snoc, !N.eqb_refl. lia. }
    assert ((0 <? Py.len w) = true) as ->.
    { unfold Py.len. rewrite Hwb, length_app. cbn [length]. lia. }
    exists (trailing_run dup w). rewrite Hrun, Nat2Z.id.
    split; [done |]. split; [lia |].
    rewrite (replicate_two_end dup (trailing_run dup w)) by done.
    rewrite app_assoc.
    rewrite (segment_target consonants st _ dup l Hc Hl).
    rewrite <- app_assoc, <- replicate_two_end by done.
    rewrite stripped_head_of_result by done.
    rewrite Hfind. cbn [mbind result_bind].
    assert ((0 <? Py.len w) = true) as ->.
    { unfold Py.len. rewrite Hwb, length_app. cbn [length]. lia. }
    by rewrite Hrun, Nat2Z.id.
Qed.

Lemma segment_fixed (st : gmap N (list (list N))) (segment out : str) :
  index_built consonants st ->
  _remove_repeat_consonants_from_segment consonants st segment = Ok out ->
  _remove_repeat_consonants_from_segment consonants st out = Ok out.
Proof.
  intros Hb Hout. destruct (ends_doubled consonants segment) eqn:E.
  - apply ends_doubled_true in E as (body & dup & -> & Hc).
    destruct (segment_result st body dup Hb Hc) as (n & Hn & _ & Hfix).
    rewrite Hn in Hout. by injection Hout as <-.
  - rewrite segment_not_target in Hout by done. injection Hout as <-.
    by apply segment_not_target.
Qed.

Lemma segment_subset (st : gmap N (list (list N))) (segment out : str) (c : char) :
  index_built consonants st ->
  _remove_repeat_consonants_from_segment consonants st segment = Ok out ->
  c ∈ out -> c ∈ segment.
Proof.
  intros Hb Hout Hc. destruct (ends_doubled consonants segment) eqn:E.
  - apply ends_doubled_true in E as (body & dup & -> & Hd).
    destruct (segment_result st body dup Hb Hd) as (n & Hn & _ & _).
    rewrite Hn in Hout. injection Hout as <-.
    apply elem_of_app in Hc as [Hc | Hc].
    + unfold stripped_head in Hc.
      rewrite <- (take_drop (length (body ++ [dup; dup])
                             - trailing_run dup (body ++ [dup; dup]))
                    (body ++ [dup; dup])).
      apply elem_of_app. by left.
    + apply elem_of_replicate in Hc as [-> _].
      apply elem_of_app. right. apply elem_of_cons. by left.
  - rewrite segment_not_target in Hout by done. by injection Hout as <-.
Qed.

End SegmentFacts.

(** A segment that does not end with a consonant written twice, so also
    the empty segment and a one-character segment, comes back unchanged
    whatever [consonants_repeaters] holds; a segment that does, when the
    index has no entry for its last character, raises [KeyError]. *)
Theorem segment_guard_and_lookup
    (consonants : str) (st : gmap N (list (list N))) :
  (forall segment : str,
     ¬ (exists body c, segment = body ++ [c; c] ∧ c ∈ consonants) ->
     _remove_repeat_consonants_from_segment consonants st segment = Ok segment)
  ∧ (forall (body : str) (dup : char),
       dup ∈ consonants -> st !! dup = None ->
       _remove_repeat_consonants_from_segment consonants st (body ++ [dup; dup])
       = Raise KeyError).
Proof.
  split.
  - intros segment Hno. apply segment_not_target.
    destruct (ends_doubled consonants segment) eqn:E; [| done].
    by apply ends_doubled_true in E.
  - intros body dup Hc Hst. unfold _remove_repeat_consonants_from_segment.
    rewrite is_target_spec.
    assert (ends_doubled consonants (body ++ [dup; dup]) = true) as ->
      by (apply ends_doubled_true; by exists body, dup).
    cbn [mbind result_bind negb]. rewrite PyFacts.index_last_of_two.
    cbn [mbind result_bind]. unfold dict_get. by rewrite Hst.
Qed.

Lemma segment_guard_and_lookup_witness :
  _remove_repeat_consonants_from_segment Thai.consonants ∅ Sample.muen
  = Ok Sample.muen
  ∧ _remove_repeat_consonants_from_segment Thai.consonants ∅
      ([0x0E2D; 0x0E37] ++ [0x0E21; 0x0E21])%N = Raise KeyError.
Proof.
  destruct (segment_guard_and_lookup Thai.consonants ∅) as [H1 H2]. split.
  - apply (H1 Sample.muen). intros (body & c & E & _).
    apply (f_equal reverse) in E. rewrite reverse_app in E.
    vm_compute in E. injection E as E1 E2 _. congruence.
  - apply H2; [apply PyFacts.contains_char | ]; vm_compute; reflexivity.
Defined.

(** With an index left by a rebuild, the resolver returns for every
    segment, and changes nothing but the trailing run: the output is the
    segment itself, or the segment's stripped head followed by one or
    more copies of its last character. *)
Theorem segment_only_trailing_run_changes
    (consonants : str) (dictionary : list str)
    (st0 st : gmap N (list (list N))) (segment : str) :
  _update_consonant_repeaters consonants dictionary st0 = Ok st ->
  exists out,
    _remove_repeat_consonants_from_segment consonants st segment = Ok out
    ∧ (out = segment
       ∨ exists dup n,
           last segment = Some dup ∧ dup ∈ consonants ∧ (1 <= n)%nat
           ∧ out = stripped_head dup segment ++ replicate n dup).
Proof.
  intros Hup.
  destruct (update_built consonants dictionary st0) as (st' & Hup' & Hb).
  assert (st' = st) as -> by congruence.
  destruct (ends_doubled consonants segment) eqn:E.
  - apply ends_doubled_true in E as (body & dup & -> & Hc).
    destruct (segment_result consonants st body dup Hb Hc) as (n & Hn & H1 & _).
    eexists. split; [exact Hn |]. right. exists dup, n.
    split; [| done].
    replace (body ++ [dup; dup]) with ((body ++ [dup]) ++ [dup])
      by (by rewrite <- app_assoc).
    apply last_snoc.
  - exists segment. split; [by apply segment_not_target | by left].
Qed.

Lemma segment_only_trailing_run_changes_witness :
  exists out,
    _remove_repeat_consonants_from_segment Thai.consonants
      (<[0x0E21%N := [Sample.um5]]>
         (foldl (fun m c => <[c := []]> m) ∅ Thai.consonants)) Sample.um2
    = Ok out
    ∧ (out = Sample.um2
       ∨ exists dup n,
           last Sample.um2 = Some dup ∧ dup ∈ Thai.consonants ∧ (1 <= n)%nat
           ∧ out = stripped_head dup Sample.um2 ++ replicate n dup).
Proof.
  apply (segment_only_trailing_run_changes Thai.consonants [Sample.um5] ∅).
  vm_compute. reflexivity.
Defined.

(** With an index left by a rebuild, resolving a resolved segment again
    changes nothing. *)
Theorem segment_resolved_is_stable
    (consonants : str) (dictionary : list str)
    (st0 st : gmap N (list (list N))) (segment out : str) :
  _update_consonant_repeaters consonants dictionary st0 = Ok st ->
  _remove_repeat_consonants_from_segment consonants st segment = Ok out ->
  _remove_repeat_consonants_from_segment consonants st out = Ok out.
Proof.
  intros Hup Hout.
  destruct (update_built consonants dictionary st0) as (st' & Hup' & Hb).
  assert (st' = st) as -> by congruence.
  by apply (segment_fixed consonants st segment).
Qed.

Lemma segment_resolved_is_stable_witness :
  _remove_repeat_consonants_from_segment Thai.consonants
    (<[0x0E21%N := [Sample.um5]]>
       (foldl (fun m c => <[c := []]> m) ∅ Thai.consonants)) Sample.um5
  = Ok Sample.um5.
Proof.
  apply (segment_resolved_is_stable Thai.consonants [Sample.um5] ∅ _ Sample.um2).
  - vm_compute. reflexivity.
  - vm_compute. reflexivity.
Defined.

Module Lines.

Lemma split_cons (sep c : char) (t : str) :
  Py.split sep (c :: t)
  = if N.eqb c sep then [] :: Py.split sep t
    else match Py.split sep t with
         | [] => [[c]]
         | w :: ws => (c :: w) :: ws
         end.
Proof. reflexivity. Qed.

(** The pieces of a split hold no separator, and only characters of the
    text. *)
Lemma split_pieces (sep : char) (s : str) :
  Forall (fun w => (sep ∉ w) ∧ forall c, c ∈ w -> c ∈ s) (Py.split sep s).
Proof.
  induction s as [|c t IH].
  - cbn [Py.split]. repeat constructor; [by intros H%elem_of_nil | done].
  - rewrite split_cons. destruct (N.eqb c sep) eqn:E.
    + constructor; [split; [by intros H%elem_of_nil | by intros x Hx%elem_of_nil] |].
      eapply Forall_impl; [exact IH |]. intros w [Hs Hw]. split; [done |].
      intros x Hx. apply elem_of_cons. right. by apply Hw.
    + apply N.eqb_neq in E.
      pose proof (split_nonempty sep t) as Hne.
      destruct (Py.split sep t) as [|w ws]; [done |].
      * apply Forall_cons in IH as [[Hs Hw] IH]. constructor.
        -- split.
           ++ intros H. apply elem_of_cons in H as [H | H]; [congruence | done].
           ++ intros x Hx. apply elem_of_cons in Hx as [-> | Hx];
                [apply elem_of_cons; by left |].
              apply elem_of_cons. right. by apply Hw.
        -- eapply Forall_impl; [exact IH |]. intros w' [Hs' Hw']. split; [done |].
           intros x Hx. apply elem_of_cons. right. by apply Hw'.
Qed.

Lemma split_no_sep (sep : char) (w : str) : sep ∉ w -> Py.split sep w = [w].
Proof.
  induction w as [|c t IH]; intros Hn; [done |].
  apply not_elem_of_cons in Hn as [Hne Hn]. rewrite split_cons.
  destruct (N.eqb sep c) eqn:E; [apply N.eqb_eq in E; congruence |].
  rewrite N.eqb_sym, E. by rewrite IH.
Qed.

Lemma split_app_sep (sep : char) (w rest : str) :
  sep ∉ w -> Py.split sep (w ++ sep :: rest) = w :: Py.split sep rest.
Proof.
  induction w as [|c t IH]; intros Hn.
  - cbn [app]. by rewrite split_cons, N.eqb_refl.
  - apply not_elem_of_cons in Hn as [Hne Hn]. cbn [app].
    rewrite split_cons. destruct (N.eqb c sep) eqn:E;
      [apply N.eqb_eq in E; congruence |].
    by rewrite IH.
Qed.

(** Joining pieces that hold no separator and splitting again gives the
    pieces back. *)
Lemma split_join (sep : char) (parts : list str) :
  parts ≠ [] -> Forall (fun w => sep ∉ w) parts ->
  Py.split sep (Py.join [sep] parts) = parts.
Proof.
  intros Hne Hp. induction Hp as [|w ws Hw Hws IH]; [done |].
  destruct ws as [|w' ws].
  - cbn [Py.join]. by apply split_no_sep.
  - change (Py.join [sep] (w :: w' :: ws))
      with (w ++ sep :: Py.join [sep] (w' :: ws)).
    rewrite split_app_sep by done. by rewrite IH.
Qed.

Lemma join_subset (sep : char) (parts : list str) (c : char) :
  c ∈ Py.join [sep] parts -> c = sep ∨ exists w, w ∈ parts ∧ c ∈ w.
Proof.
  induction parts as [|w ws IH]; [by intros H%elem_of_nil |].
  destruct ws as [|w' ws].
  - cbn [Py.join]. intros H. right. exists w. split; [apply elem_of_cons; by left | done].
  - change (Py.join [sep] (w :: w' :: ws))
      with (w ++ sep :: Py.join [sep] (w' :: ws)).
    intros H. apply elem_of_app in H as [H | H].
    + right. exists w. split; [apply elem_of_cons; by left | done].
    + apply elem_of_cons in H as [-> | H]; [by left |].
      destruct (IH H) as [-> | (v & Hv & Hc)]; [by left |].
      right. exists v. split; [apply elem_of_cons; by right | done].
Qed.

Lemma mapM_Forall2 {A B} (f : A -> result B) (l : list A) (k : list B) :
  mapM f l = Ok k -> Forall2 (fun x y => f x = Ok y) l k.
Proof.
  revert k. induction l as [|x l IH]; intros k.
  - intros [= <-]. constructor.
  - rewrite mapM_cons. destruct (f x) as [y |] eqn:Ey; [| done].
    cbn [mbind result_bind]. destruct (mapM f l) as [k' |]; [| done].
    cbn [mbind result_bind mret result_ret]. intros [= <-].
    constructor; [done | by apply IH].
Qed.

Lemma mapM_fixed {A} (f : A -> result A) (l : list A) :
  Forall (fun x => f x = Ok x) l -> mapM f l = Ok l.
Proof.
  intros H. rewrite (mapM_pointwise f id).
  - by rewrite map_id.
  - intros x Hx. by apply (proj1 (Forall_forall _ _) H).
Qed.

End Lines.

Section TextFacts.

Variable consonants : str.
Variable thai_words : list str.

(** The lines and segments of the output of [remove_repeat_consonants],
    for a built index [st']. *)
Lemma resolve_layout (st' : gmap N (list (list N))) (text : str) :
  index_built consonants st' ->
  exists out,
    (mapM (fun line =>
             segments ← mapM (_remove_repeat_consonants_from_segment consonants st')
                             (Py.split 32%N line);
             mret (Py.join [32%N] segments))
          (Py.split 10%N text)
     ≫= fun modified_lines => mret (Py.join [10%N] modified_lines, st'))
    = Ok (out, st')
    ∧ Forall2
        (fun line line' =>
           Forall2 (fun seg seg' =>
                      _remove_repeat_consonants_from_segment consonants st' seg
                      = Ok seg')
                   (Py.split 32%N line) (Py.split 32%N line'))
        (Py.split 10%N text) (Py.split 10%N out).
Proof.
  intros Hb.
  set (per_line := fun line : list N =>
         mapM (_remove_repeat_consonants_from_segment consonants st')
              (Py.split 32%N line)
         ≫= fun segments => mret (Py.join [32%N] segments)).
  assert (forall line, 10%N ∉ line ->
            exists line', per_line line = Ok line' ∧ (10%N ∉ line')
              ∧ Forall2 (fun seg seg' =>
                           _remove_repeat_consonants_from_segment consonants st' seg
                           = Ok seg')
                        (Py.split 32%N line) (Py.split 32%N line')) as Hline.
  { intros line Hnl. unfold per_line.
    destruct (mapM_total (_remove_repeat_consonants_from_segment consonants st')
                (Py.split 32%N line)) as [segs Hsegs];
      [intros x _; by apply segment_total |].
    rewrite Hsegs. cbn [mbind result_bind mret result_ret].
    apply Lines.mapM_Forall2 in Hsegs.
    pose proof (Lines.split_pieces 32%N line) as Hp.
    assert (Forall (fun w => (32%N ∉ w) ∧ forall c, c ∈ w -> c ∈ line) segs) as Hs.
    { clear -Hsegs Hp Hb. induction Hsegs as [|x y l k Hxy _ IH]; [constructor |].
      apply Forall_cons in Hp as [[Hx Hsub] Hp]. constructor; [| by apply IH].
      split.
      - intros H. by apply (segment_subset consonants st' x y 32%N Hb Hxy) in H.
      - intros c Hc. apply Hsub.
        by apply (segment_subset consonants st' x y c Hb Hxy). }
    eexists. split; [reflexivity |]. split.
    - intros H. apply Lines.join_subset in H as [H | (w & Hw & Hc)]; [done |].
      apply (proj1 (Forall_forall _ _) Hs) in Hw as [_ Hw]. by apply Hw in Hc.
    - rewrite Lines.split_join; [done | |].
      + intros ->. apply Forall2_nil_inv_r in Hsegs.
        by apply split_nonempty in Hsegs.
      + eapply Forall_impl; [exact Hs |]. by intros w [H _]. }
  pose proof (Lines.split_pieces 10%N text) as Hp.
  assert (exists ls, mapM per_line (Py.split 10%N text) = Ok ls
            ∧ Forall (fun l => 10%N ∉ l) ls
            ∧ Forall2
                (fun line line' =>
                   Forall2 (fun seg seg' =>
                              _remove_repeat_consonants_from_segment consonants st' seg
                              = Ok seg')
                           (Py.split 32%N line) (Py.split 32%N line'))
                (Py.split 10%N text) ls) as (ls & Hls & Hno & HF).
  { clear -Hline Hp. induction Hp as [|line lines [Hl _] _ IH].
    - exists []. repeat constructor.
    - destruct IH as (ls & Hls & Hno & HF).
      destruct (Hline line Hl) as (line' & Hl' & Hnl' & HF').
      exists (line' :: ls). rewrite mapM_cons, Hl', Hls.
      split; [done |]. split; by constructor. }
  rewrite Hls. cbn [mbind result_bind mret result_ret].
  eexists. split; [reflexivity |].
  rewrite Lines.split_join; [done | | done].
  intros ->. apply Forall2_nil_inv_r in HF. by apply split_nonempty in HF.
Qed.

Lemma update_or_keep (st : gmap N (list (list N))) (dictionary : list str)
    (dictionary_updated : bool) :
  dictionary_updated = true ∨ index_built consonants st ->
  exists st',
    (if dictionary_updated
     then _update_consonant_repeaters consonants dictionary st
     else mret st) = Ok st'
    ∧ index_built consonants st'.
Proof.
  intros Hpre. destruct dictionary_updated.
  - apply update_built.
  - destruct Hpre as [? | Hb]; [done |]. by exists st.
Qed.

End TextFacts.

(** When [remove_repeat_consonants] runs with the rebuild flag set, or on
    an index left by an earlier rebuild, the output has the lines of the
    input and each line the segments of the input line, one for one:
    every newline and every space stays where it was, and each segment is
    what the resolver makes of the input segment on its own. *)
Theorem resolve_keeps_layout
    (consonants : str) (thai_words : list str) (st : gmap N (list (list N)))
    (text : str) (dictionary : option (list str)) (dictionary_updated : bool) :
  dictionary_updated = true ∨ index_built consonants st ->
  exists out st',
    remove_repeat_consonants consonants thai_words st text dictionary
      dictionary_updated = Ok (out, st')
    ∧ Forall2
        (fun line line' =>
           Forall2 (fun seg seg' =>
                      _remove_repeat_consonants_from_segment consonants st' seg
                      = Ok seg')
                   (Py.split 32%N line) (Py.split 32%N line'))
        (Py.split 10%N text) (Py.split 10%N out).
Proof.
  intros Hpre. unfold remove_repeat_consonants.
  destruct (update_or_keep consonants st (from_option id thai_words dictionary)
              dictionary_updated Hpre) as (st' & -> & Hb).
  cbn [mbind result_bind].
  destruct (resolve_layout consonants st' text Hb) as (out & Hout & HF).
  exists out, st'. split; [exact Hout | exact HF].
Qed.

Lemma resolve_keeps_layout_witness :
  exists out st',
    remove_repeat_consonants Thai.consonants [] ∅ Sample.two_lines
      (Some [Sample.um5]) true = Ok (out, st')
    ∧ Forall2
        (fun line line' =>
           Forall2 (fun seg seg' =>
                      _remove_repeat_consonants_from_segment Thai.consonants st' seg
                      = Ok seg')
                   (Py.split 32%N line) (Py.split 32%N line'))
        (Py.split 10%N Sample.two_lines) (Py.split 10%N out).
Proof.
  apply (resolve_keeps_layout Thai.consonants [] ∅ Sample.two_lines
           (Some [Sample.um5]) true).
  left. reflexivity.
Defined.

(** Resolving the output again with the index the first call left
    (rebuild flag off) returns the same text; so does a second call with
    the flag on and the same dictionary when the first call rebuilt as
    well. *)
Theorem resolve_twice_is_once
    (consonants : str) (thai_words : list str) (st st' : gmap N (list (list N)))
    (text out : str) (dictionary : option (list str)) (dictionary_updated : bool) :
  dictionary_updated = true ∨ index_built consonants st ->
  remove_repeat_consonants consonants thai_words st text dictionary
    dictionary_updated = Ok (out, st') ->
  remove_repeat_consonants consonants thai_words st' out dictionary false
  = Ok (out, st')
  ∧ (dictionary_updated = true ->
     remove_repeat_consonants consonants thai_words st' out dictionary true
     = Ok (out, st')).
Proof.
  intros Hpre Hrun.
  assert (index_built consonants st'
          ∧ (dictionary_updated = true ->
             _update_consonant_repeaters consonants
               (from_option id thai_words dictionary) st' = Ok st')
          ∧ Forall2
              (fun line line' =>
                 Forall2 (fun seg seg' =>
                            _remove_repeat_consonants_from_segment consonants st' seg
                            = Ok seg')
                         (Py.split 32%N line) (Py.split 32%N line'))
              (Py.split 10%N text) (Py.split 10%N out)) as (Hb & Hup & HF).
  { unfold remove_repeat_consonants in Hrun.
    destruct (update_or_keep consonants st (from_option id thai_words dictionary)
                dictionary_updated Hpre) as (st1 & Hst1 & Hb).
    rewrite Hst1 in Hrun. cbn [mbind result_bind] in Hrun.
    destruct (resolve_layout consonants st1 text Hb) as (out1 & Hout1 & HF).
    rewrite Hout1 in Hrun. injection Hrun as <- <-.
    split; [done |]. split; [| done].
    intros ->.
    destruct (update_contents consonants (from_option id thai_words dictionary) st)
      as (r1 & Hr1 & Hin1 & Hout).
    assert (r1 = st1) as -> by congruence.
    destruct (update_contents consonants (from_option id thai_words dictionary) st1)
      as (r2 & Hr2 & Hin2 & Hout2).
    rewrite Hr2. f_equal. apply map_eq. intros k.
    destruct (decide (k ∈ consonants)) as [Hk | Hk].
    - by rewrite Hin1, Hin2.
    - by apply Hout2. }
  assert (mapM (fun line =>
                  segments ← mapM (_remove_repeat_consonants_from_segment consonants st')
                                  (Py.split 32%N line);
                  mret (Py.join [32%N] segments))
               (Py.split 10%N out)
          = Ok (Py.split 10%N out)) as Hfix.
  { apply Lines.mapM_fixed. apply Forall_forall. intros line' Hl'.
    apply list_elem_of_lookup in Hl' as [i Hi].
    destruct (Forall2_lookup_r _ _ _ _ _ HF Hi) as (line & _ & Hsegs).
    rewrite Lines.mapM_fixed.
    - cbn [mbind result_bind mret result_ret]. by rewrite join_split.
    - apply Forall_forall. intros seg' Hs'.
      apply list_elem_of_lookup in Hs' as [j Hj].
      destruct (Forall2_lookup_r _ _ _ _ _ Hsegs Hj) as (seg & _ & Hseg).
      by apply (segment_fixed consonants st' seg). }
  split.
  - unfold remove_repeat_consonants. cbn [mbind result_bind mret result_ret].
    rewrite Hfix. cbn [mbind result_bind mret result_ret].
    by rewrite join_split.
  - intros Ht. unfold remove_repeat_consonants. rewrite (Hup Ht).
    cbn [mbind result_bind mret result_ret].
    rewrite Hfix. cbn [mbind result_bind mret result_ret].
    by rewrite join_split.
Qed.

Lemma resolve_twice_is_once_witness :
  let st' := <[0x0E21%N := [Sample.um5]]>
               (foldl (fun m c => <[c := []]> m) ∅ Thai.consonants) in
  remove_repeat_consonants Thai.consonants [] st'
    [0x0E2D; 0x0E37; 0x0E21; 0x0E21; 0x0E21; 0x0E21; 0x0E21; 32;
     0x0E01; 0x0E14; 10; 0x0E01]%N (Some [Sample.um5]) false
  = Ok ([0x0E2D; 0x0E37; 0x0E21; 0x0E21; 0x0E21; 0x0E21; 0x0E21; 32;
         0x0E01; 0x0E14; 10; 0x0E01]%N, st')
  ∧ (true = true ->
     remove_repeat_consonants Thai.consonants [] st'
       [0x0E2D; 0x0E37; 0x0E21; 0x0E21; 0x0E21; 0x0E21; 0x0E21; 32;
        0x0E01; 0x0E14; 10; 0x0E01]%N (Some [Sample.um5]) true
     = Ok ([0x0E2D; 0x0E37; 0x0E21; 0x0E21; 0x0E21; 0x0E21; 0x0E21; 32;
            0x0E01; 0x0E14; 10; 0x0E01]%N, st')).
Proof.
  intros st'.
  apply (resolve_twice_is_once Thai.consonants [] ∅ st' Sample.two_lines _
           (Some [Sample.um5]) true).
  - left. reflexivity.
  - vm_compute. reflexivity.
Defined.

(** ** The repeat-consonant resolver on a text *)

(** C2, as amended.  [remove_repeat_consonants] returns normally, for
    every text and dictionary, when the rebuild flag is set or the index
    it finds was left by an earlier rebuild; it leaves a built index; a
    text none of whose segments ends in a doubled consonant comes back
    unchanged; and the output has the lines and segments of the text,
    one for one, a segment that ends in a doubled consonant and whose
    stripped head matches no candidate of the index being the stripped
    head followed by the consonant once.  A text none of whose segments
    ends in a doubled consonant, the empty text included, comes back
    unchanged for every value of the flag and whatever the index holds.
    With the flag off and an index that has no entry for any consonant,
    as before the first rebuild, every text with a segment that ends in a
    doubled consonant raises [KeyError]. *)
Theorem C2_returns_normally
    (consonants : str) (thai_words : list str) (st : gmap N (list (list N)))
    (text : str) (dictionary : option (list str)) (dictionary_updated : bool) :
  (dictionary_updated = true ∨ index_built consonants st ->
   exists out st',
     remove_repeat_consonants consonants thai_words st text dictionary
       dictionary_updated = Ok (out, st')
     ∧ index_built consonants st'
     ∧ ((forall line segment, line ∈ Py.split 10%N text ->
           segment ∈ Py.split 32%N line ->
           ends_doubled consonants segment = false) ->
        out = text)
     ∧ Forall2
         (fun line line' =>
            Forall2
              (fun seg seg' =>
                 forall body dup,
                   seg = body ++ [dup; dup] -> dup ∈ consonants ->
                   (forall repeaters r,
                      st' !! dup = Some repeaters -> r ∈ repeaters ->
                      ¬ candidate_head r `suffix_of` stripped_head dup seg) ->
                   seg' = stripped_head dup seg ++ [dup])
              (Py.split 32%N line) (Py.split 32%N line'))
         (Py.split 10%N text) (Py.split 10%N out))
  ∧ ((forall line segment, line ∈ Py.split 10%N text ->
        segment ∈ Py.split 32%N line ->
        ends_doubled consonants segment = false) ->
     exists st',
       remove_repeat_consonants consonants thai_words st text dictionary
         dictionary_updated = Ok (text, st')
       ∧ (dictionary_updated = false -> st' = st))
  ∧ (dictionary_updated = false ->
     (forall c, c ∈ consonants -> st !! c = None) ->
     (exists line segment, line ∈ Py.split 10%N text
        ∧ segment ∈ Py.split 32%N line
        ∧ ends_doubled consonants segment = true) ->
     remove_repeat_consonants consonants thai_words st text dictionary
       dictionary_updated = Raise KeyError).
Proof.
  split; [| split].
  - intros Hpre. unfold remove_repeat_consonants.
    destruct (update_or_keep consonants st (from_option id thai_words dictionary)
                dictionary_updated Hpre) as (st' & -> & Hb).
    cbn [mbind result_bind].
    destruct (resolve_layout consonants st' text Hb) as (out & Hout & HF).
    exists out, st'. split; [exact Hout |]. split; [exact Hb |]. split.
    + intros Hnone.
      pose proof (lines_pass_through consonants st' text Hnone) as Hsame.
      rewrite Hout in Hsame. by injection Hsame as ->.
    + eapply Forall2_impl; [exact HF |]. intros line line' Hsegs.
      eapply Forall2_impl; [exact Hsegs |].
      intros seg seg' Hseg body dup -> Hc Hno.
      rewrite (segment_fallback consonants st' body dup Hb Hc Hno) in Hseg.
      by injection Hseg as <-.
  - intros Hnone. unfold remove_repeat_consonants.
    destruct dictionary_updated.
    + destruct (update_built consonants (from_option id thai_words dictionary) st)
        as (st' & -> & _).
      cbn [mbind result_bind]. exists st'.
      split; [by apply lines_pass_through | done].
    + cbn [mbind result_bind mret result_ret]. exists st.
      split; [by apply lines_pass_through | done].
  - intros -> Hst Htarget. unfold remove_repeat_consonants.
    cbn [mbind result_bind mret result_ret]. by apply lines_raise.
Qed.

Lemma C2_returns_normally_witness :
  (exists out st',
     remove_repeat_consonants Thai.consonants [] ∅ Sample.roed3
       (Some [Sample.um5]) true = Ok (out, st')
     ∧ index_built Thai.consonants st'
     ∧ ((forall line segment, line ∈ Py.split 10%N Sample.roed3 ->
           segment ∈ Py.split 32%N line ->
           ends_doubled Thai.consonants segment = false) ->
        out = Sample.roed3)
     ∧ Forall2
         (fun line line' =>
            Forall2
              (fun seg seg' =>
                 forall body dup,
                   seg = body ++ [dup; dup] -> dup ∈ Thai.consonants ->
                   (forall repeaters r,
                      st' !! dup = Some repeaters -> r ∈ repeaters ->
                      ¬ candidate_head r `suffix_of` stripped_head dup seg) ->
                   seg' = stripped_head dup seg ++ [dup])
              (Py.split 32%N line) (Py.split 32%N line'))
         (Py.split 10%N Sample.roed3) (Py.split 10%N out))
  ∧ (exists st',
       remove_repeat_consonants Thai.consonants [] ∅ Sample.spaced
         (Some [Sample.um5]) false = Ok (Sample.spaced, st')
       ∧ (false = false -> st' = ∅))
  ∧ remove_repeat_consonants Thai.consonants [] ∅ Sample.two_lines
      (Some [Sample.um5]) false = Raise KeyError.
Proof.
  split; [| split].
  - apply (C2_returns_normally Thai.consonants [] ∅ Sample.roed3
             (Some [Sample.um5]) true).
    left. reflexivity.
  - apply (C2_returns_normally Thai.consonants [] ∅ Sample.spaced
             (Some [Sample.um5]) false).
    intros line segment Hl Hs. vm_compute in Hl.
    repeat (apply elem_of_cons in Hl as [-> | Hl];
            [vm_compute in Hs;
             repeat (apply elem_of_cons in Hs as [-> | Hs]; [reflexivity |]);
             by apply elem_of_nil in Hs |]).
    by apply elem_of_nil in Hl.
  - apply (C2_returns_normally Thai.consonants [] ∅ Sample.two_lines
             (Some [Sample.um5]) false).
    + reflexivity.
    + intros c _. apply lookup_empty.
    + exists [0x0E2D; 0x0E37; 0x0E21; 0x0E21; 32; 0x0E01; 0x0E14; 0x0E14;
              0x0E14]%N, Sample.um2.
      split; [| split].
      * vm_compute. apply elem_of_cons. by left.
      * vm_compute. apply elem_of_cons. by left.
      * reflexivity.
Defined.

(** C2 as stated fails: before any rebuild [consonants_repeaters] is
    empty, and with the flag off the lookup for the doubled consonant of
    กก raises [KeyError]. *)
Lemma C2_lookup_raises_without_rebuild :
  remove_repeat_consonants Thai.consonants [] ∅ Sample.kk (Some []) false
  = Raise KeyError.
Proof. vm_compute. reflexivity. Qed.

(** ** Further properties of the repetition-mark expander *)

Section MaiyamokContext.

Variable word_tokenize : str -> list str.

Lemma index_after {A} (p q : list A) :
  Py.index (p ++ q) (Py.len p + 1)
  = match q !! 1%nat with Some x => Ok x | None => Raise IndexError end.
Proof.
  unfold Py.len. replace (Z.of_nat (length p) + 1) with (Z.of_nat (length p + 1))
    by lia.
  rewrite PyFacts.index_nat, lookup_app_r by lia.
  by replace (length p + 1 - length p)%nat with 1%nat by lia.
Qed.

Lemma index_elem {A} (l : list A) (i : Z) (x : A) :
  Py.index l i = Ok x -> x ∈ l.
Proof.
  unfold Py.index. destruct (_ <? 0); [done |].
  destruct (l !! _) eqn:E; [| done]. intros [= <-].
  by eapply list_elem_of_lookup_2.
Qed.

(** The loop body sees of [sent] only the token after the current
    one. *)
Lemma body_shift (p1 p2 : list str) (t : str) (rest : list str)
    (st : list str * Z) :
  maiyamok_body (p1 ++ t :: rest) (Py.len p1) t st
  = maiyamok_body (p2 ++ t :: rest) (Py.len p2) t st.
Proof.
  destruct st as [lw i]. unfold maiyamok_body. by rewrite !index_after.
Qed.

Lemma loop_shift (rest p1 p2 : list str) (st : list str * Z) :
  maiyamok_loop (p1 ++ rest) (Py.len p1) rest st
  = maiyamok_loop (p2 ++ rest) (Py.len p2) rest st.
Proof.
  revert p1 p2 st. induction rest as [|t r IH]; intros p1 p2 st; [done |].
  cbn [maiyamok_loop]. rewrite (body_shift p1 p2).
  destruct (maiyamok_body _ _ _ _) as [st' |]; [| done].
  cbn [mbind result_bind].
  replace (p1 ++ t :: r) with ((p1 ++ [t]) ++ r) by (by rewrite <- app_assoc).
  replace (p2 ++ t :: r) with ((p2 ++ [t]) ++ r) by (by rewrite <- app_assoc).
  replace (Py.len p1 + 1) with (Py.len (p1 ++ [t]))
    by (by rewrite PyFacts.len_app).
  replace (Py.len p2 + 1) with (Py.len (p2 ++ [t]))
    by (by rewrite PyFacts.len_app).
  apply IH.
Qed.

(** What follows a run of tokens whose last one is not whitespace-only
    has no effect on how the run is processed. *)
Lemma loop_prefix (pre p tail1 tail2 : list str) (st : list str * Z) :
  (forall t, last pre = Some t -> Py.isspace t = false) ->
  maiyamok_loop (p ++ pre ++ tail1) (Py.len p) pre st
  = maiyamok_loop (p ++ pre ++ tail2) (Py.len p) pre st.
Proof.
  revert p st. induction pre as [|t r IH]; intros p st Hlast; [done |].
  cbn [maiyamok_loop app].
  assert (maiyamok_body (p ++ t :: r ++ tail1) (Py.len p) t st
          = maiyamok_body (p ++ t :: r ++ tail2) (Py.len p) t st) as ->.
  { destruct st as [lw i]. unfold maiyamok_body. rewrite !index_after.
    destruct r as [|t' r]; [| done].
    by rewrite (Hlast t). }
  destruct (maiyamok_body _ _ _ _) as [st' |]; [| done].
  cbn [mbind result_bind].
  replace (p ++ t :: r ++ tail1) with ((p ++ [t]) ++ r ++ tail1)
    by (by rewrite <- app_assoc).
  replace (p ++ t :: r ++ tail2) with ((p ++ [t]) ++ r ++ tail2)
    by (by rewrite <- app_assoc).
  replace (Py.len p + 1) with (Py.len (p ++ [t]))
    by (by rewrite PyFacts.len_app).
  apply IH. intros x Hx. apply Hlast.
  destruct r as [|t' r]; [done |]. exact Hx.
Qed.

Lemma body_suppressed (p : list str) (ws m : str) (post : list str)
    (st : list str * Z) :
  Py.isspace ws = true -> Py.contains mark m = true ->
  maiyamok_body (p ++ ws :: m :: post) (Py.len p) ws st = Ok st.
Proof.
  intros Hs Hm. destruct st as [lw i]. unfold maiyamok_body.
  rewrite Hs, index_after. cbn [lookup list_lookup].
  cbn [mbind result_bind mret result_ret]. by rewrite Hm.
Qed.

Lemma space_before_mark (pre post : list str) (ws m : str) :
  Py.isspace ws = true -> Py.contains mark m = true ->
  (forall t, last pre = Some t -> Py.isspace t = false) ->
  maiyamok word_tokenize (inr (pre ++ ws :: m :: post))
  = maiyamok word_tokenize (inr (pre ++ m :: post)).
Proof.
  intros Hs Hm Hlast. unfold maiyamok, tokens_of. f_equal.
  rewrite !loop_app.
  pose proof (loop_prefix pre [] (ws :: m :: post) (m :: post) ([], 0) Hlast)
    as Hpre.
  cbn [app] in Hpre. change (Py.len []) with 0 in Hpre. rewrite Hpre. clear Hpre.
  destruct (maiyamok_loop (pre ++ m :: post) 0 pre ([], 0)) as [st' |]; [| done].
  cbn [mbind result_bind]. rewrite Z.add_0_l.
  change (maiyamok_loop (pre ++ ws :: m :: post) (Py.len pre) (ws :: m :: post) st')
    with (maiyamok_body (pre ++ ws :: m :: post) (Py.len pre) ws st'
          ≫= fun st'' =>
               maiyamok_loop (pre ++ ws :: m :: post) (Py.len pre + 1)
                 (m :: post) st'').
  rewrite (body_suppressed pre ws m post st' Hs Hm).
  cbn [mbind result_bind].
  replace (pre ++ ws :: m :: post) with ((pre ++ [ws]) ++ m :: post)
    by (by rewrite <- app_assoc).
  replace (Py.len pre + 1) with (Py.len (pre ++ [ws]))
    by (by rewrite PyFacts.len_app).
  apply (loop_shift (m :: post) (pre ++ [ws]) pre).
Qed.

Lemma leading_mark (rest : list str) :
  maiyamok word_tokenize (inr (mark :: rest)) = Raise IndexError.
Proof. reflexivity. Qed.

(** Tokens without the mark up to one that is not whitespace-only are
    emitted as they are. *)
Lemma loop_plain (pre p : list str) (B : str) (tail : list str)
    (lw : list str) (i : Z) :
  Forall (fun t => Py.contains mark t = false) pre ->
  Py.contains mark B = false -> Py.isspace B = false ->
  maiyamok_loop (p ++ pre ++ B :: tail) (Py.len p) (pre ++ [B]) (lw, i)
  = Ok (lw ++ pre ++ [B], i + Py.len pre + 1).
Proof.
  intros Hpre HB HsB. revert p lw i.
  induction Hpre as [|t r Ht Hr IH]; intros p lw i.
  - cbn [app maiyamok_loop]. rewrite body_plain; [| done |].
    + cbn [mbind result_bind mret result_ret]. do 2 f_equal.
      change (Py.len []) with 0. lia.
    + unfold suppressed. by rewrite HsB.
  - cbn [app maiyamok_loop]. rewrite body_plain; [| done |].
    + cbn [mbind result_bind].
      replace (p ++ t :: r ++ B :: tail) with ((p ++ [t]) ++ r ++ B :: tail)
        by (by rewrite <- app_assoc).
      replace (Py.len p + 1) with (Py.len (p ++ [t]))
        by (by rewrite PyFacts.len_app).
      rewrite IH. rewrite <- app_assoc. do 2 f_equal.
      unfold Py.len. cbn [length]. lia.
    + unfold suppressed. destruct (Py.isspace t); [| done].
      rewrite index_after. destruct r as [|t' r].
      * cbn. by rewrite HB.
      * cbn. apply Forall_cons in Hr as [-> _]. done.
Qed.

(** A run of bare marks after an emitted token repeats that token. *)
Lemma loop_marks (sent : list str) (n : nat) (j : Z) (lw : list str) (B : str) :
  maiyamok_loop sent j (replicate n mark) (lw ++ [B], Py.len (lw ++ [B]))
  = Ok (lw ++ replicate (S n) B, Py.len (lw ++ replicate (S n) B)).
Proof.
  revert j lw. induction n as [|n IH]; intros j lw; [done |].
  cbn [replicate maiyamok_loop]. rewrite body_mark.
  cbn [mbind result_bind].
  replace (Py.len (lw ++ [B]) + 1) with (Py.len ((lw ++ [B]) ++ [B]))
    by (by rewrite (PyFacts.len_app (lw ++ [B]))).
  rewrite IH. rewrite <- !app_assoc. reflexivity.
Qed.

(** Nothing the loop emits holds the mark. *)
Lemma body_mark_free (sent : list str) (j : Z) (text : str)
    (lw lw' : list str) (i i' : Z) :
  Forall (fun t => 0x0E46%N ∉ t) lw ->
  maiyamok_body sent j text (lw, i) = Ok (lw', i') ->
  Forall (fun t => 0x0E46%N ∉ t) lw'.
Proof.
  intros Hlw. unfold maiyamok_body.
  destruct (if Py.isspace text then _ else _) as [[] |]; try done;
    cbn [mbind result_bind mret result_ret].
  - by intros [= <- <-].
  - destruct (bool_decide _).
    + destruct (Py.index lw (i - 1)) as [x |] eqn:Ex; [| done].
      cbn [mbind result_bind mret result_ret]. intros [= <- <-].
      apply Forall_app. split; [done |]. constructor; [| done].
      apply index_elem in Ex. by apply (proj1 (Forall_forall _ _) Hlw).
    + destruct (Py.contains mark _) eqn:Ec; intros [= <- <-].
      * assert (0x0E46%N ∉ Py.replace mark
                  [] (if Py.contains space_mark text
                      then Py.replace space_mark mark text else text)) as Hfree.
        { unfold mark. rewrite Passes.replace_single. intros H.
          apply list_elem_of_filter in H as [H _]. done. }
        rewrite !Forall_app. repeat split; try done; by repeat constructor.
      * apply Forall_app. split; [done |]. constructor; [| done].
        by apply PyFacts.contains_char_false.
Qed.

Lemma loop_mark_free (sent rest : list str) (j : Z)
    (lw lw' : list str) (i i' : Z) :
  Forall (fun t => 0x0E46%N ∉ t) lw ->
  maiyamok_loop sent j rest (lw, i) = Ok (lw', i') ->
  Forall (fun t => 0x0E46%N ∉ t) lw'.
Proof.
  revert j lw i. induction rest as [|text rest IH]; intros j lw i Hlw.
  - by intros [= <- <-].
  - cbn [maiyamok_loop].
    destruct (maiyamok_body sent j text (lw, i)) as [[lw1 i1] |] eqn:Eb; [| done].
    cbn [mbind result_bind]. apply IH. by eapply body_mark_free.
Qed.

End MaiyamokContext.

(** Tokens without the mark, the last of them not whitespace-only,
    followed by [n] bare marks: [maiyamok] returns the tokens as they
    are, the last one [n + 1] times.  With [n = 0]: a token list without
    any mark whose last token is not whitespace-only is returned
    unchanged. *)
Theorem maiyamok_repeats_last_token
    (word_tokenize : str -> list str) (pre : list str) (B : str) (n : nat) :
  Forall (fun t => Py.contains mark t = false) pre ->
  Py.contains mark B = false -> Py.isspace B = false ->
  maiyamok word_tokenize (inr (pre ++ B :: replicate n mark))
  = Ok (pre ++ replicate (S n) B).
Proof.
  intros Hpre HB HsB. unfold maiyamok, tokens_of.
  replace (pre ++ B :: replicate n mark) with ((pre ++ [B]) ++ replicate n mark)
    at 2 by (by rewrite <- app_assoc).
  rewrite loop_app.
  pose proof (loop_plain pre [] B (replicate n mark) [] 0 Hpre HB HsB) as Hrun.
  cbn [app] in Hrun. change (Py.len []) with 0 in Hrun. rewrite Hrun.
  cbn [mbind result_bind app].
  replace (0 + Py.len pre + 1) with (Py.len (pre ++ [B]))
    by (rewrite PyFacts.len_app; change (Py.len [B]) with 1; lia).
  by rewrite loop_marks.
Qed.

Lemma maiyamok_repeats_last_token_witness :
  maiyamok (fun _ => []) (inr ([Sample.khon; [32%N]] ++ Sample.di :: replicate 2 mark))
  = Ok ([Sample.khon; [32%N]] ++ replicate 3 Sample.di).
Proof.
  apply (maiyamok_repeats_last_token (fun _ => []) [Sample.khon; [32%N]]
           Sample.di 2).
  - repeat constructor.
  - reflexivity.
  - reflexivity.
Defined.

(** A whitespace-only token directly before a token that holds the mark
    is dropped: provided the token before it, if any, is not
    whitespace-only, [maiyamok] gives the same result, or raises the same
    exception, as on the list without that whitespace token. *)
Theorem maiyamok_space_before_mark_dropped
    (word_tokenize : str -> list str) (pre post : list str) (ws m : str) :
  Py.isspace ws = true -> Py.contains mark m = true ->
  (forall t, last pre = Some t -> Py.isspace t = false) ->
  maiyamok word_tokenize (inr (pre ++ ws :: m :: post))
  = maiyamok word_tokenize (inr (pre ++ m :: post)).
Proof. apply space_before_mark. Qed.

Lemma maiyamok_space_before_mark_dropped_witness :
  maiyamok (fun _ => []) (inr ([Sample.di] ++ [32%N] :: mark :: [Sample.khon]))
  = maiyamok (fun _ => []) (inr ([Sample.di] ++ mark :: [Sample.khon])).
Proof.
  apply (maiyamok_space_before_mark_dropped (fun _ => []) [Sample.di]
           [Sample.khon] [32%N] mark).
  - reflexivity.
  - reflexivity.
  - intros t [= <-]. reflexivity.
Defined.

(** A bare mark with nothing emitted before it makes [maiyamok] raise
    [IndexError]: as the first token, bare or fused with a space, or
    as the second token after a whitespace-only one. *)
Theorem maiyamok_mark_without_word_raises
    (word_tokenize : str -> list str) (rest : list str) :
  maiyamok word_tokenize (inr (mark :: rest)) = Raise IndexError
  ∧ maiyamok word_tokenize (inr (space_mark :: rest)) = Raise IndexError
  ∧ (forall ws, Py.isspace ws = true ->
       maiyamok word_tokenize (inr (ws :: mark :: rest)) = Raise IndexError).
Proof.
  split; [reflexivity |]. split; [reflexivity |].
  intros ws Hs.
  pose proof (space_before_mark word_tokenize [] rest ws mark Hs eq_refl) as H.
  cbn [app] in H. rewrite H; [reflexivity | done].
Qed.

Lemma maiyamok_mark_without_word_raises_witness :
  maiyamok (fun _ => []) (inr ([32%N] :: mark :: [Sample.di]))
  = Raise IndexError.
Proof.
  destruct (maiyamok_mark_without_word_raises (fun _ => []) [Sample.di])
    as (_ & _ & H).
  apply H. reflexivity.
Defined.

(** No token that [maiyamok] returns holds the mark. *)
Theorem maiyamok_output_has_no_mark
    (word_tokenize : str -> list str) (sent : str + list str) (out : list str) :
  maiyamok word_tokenize sent = Ok out ->
  Forall (fun t => 0x0E46%N ∉ t) out.
Proof.
  unfold maiyamok.
  destruct (maiyamok_loop _ _ _ _) as [[lw i] |] eqn:El; [| done].
  intros [= <-]. by eapply loop_mark_free in El.
Qed.

Lemma maiyamok_output_has_no_mark_witness :
  Forall (fun t => 0x0E46%N ∉ t) [Sample.di; Sample.di].
Proof.
  apply (maiyamok_output_has_no_mark (fun _ => []) (inr [Sample.di_space_mark])).
  reflexivity.
Defined.

(** ** Further properties of the character passes *)

Module Erase.

Lemma filter_all (text : str) : filter (fun c => c ∉ ([] : str)) text = text.
Proof.
  induction text as [|c t IH]; [done |].
  rewrite filter_cons_True by apply not_elem_of_nil. by rewrite IH.
Qed.

(** Erasing the characters of [chars] one after the other, each by the
    [while ch in text] loop, keeps the characters that are not in
    [chars]. *)
Lemma erase_chars (chars text : str) :
  foldl (fun text ch => replace_while (length text) [ch] [] text) text chars
  = filter (fun c => c ∉ chars) text.
Proof.
  revert text. induction chars as [|ch chars IH]; intros text.
  - cbn [foldl]. by rewrite filter_all.
  - cbn [foldl]. rewrite Passes.replace_while_single, IH, list_filter_filter.
    apply list_filter_iff. intros x. rewrite not_elem_of_cons. tauto.
Qed.

Lemma visible_cons (c : char) (t : str) :
  visible (c :: t) = if Py.is_space c then visible t else c :: visible t.
Proof.
  unfold visible. destruct (Py.is_space c) eqn:E.
  - by rewrite filter_cons_False by congruence.
  - by rewrite filter_cons_True by done.
Qed.

Lemma visible_keep_last (P : N -> bool) (s : str) :
  (forall c, P c = true -> Py.is_space c = true) ->
  visible (keep_last_of_runs P s) = visible s.
Proof.
  intros HP. induction s as [|c t IH]; [done |].
  rewrite keep_last_cons. destruct (P c && _) eqn:E.
  - apply andb_true_iff in E as [Hc _]. by rewrite IH, (visible_cons c), (HP c Hc).
  - by rewrite !visible_cons, IH.
Qed.

Lemma visible_newline_runs (replaced : bool) (s : str) :
  visible (newline_runs replaced s) = visible s.
Proof.
  revert replaced. induction s as [|c t IH]; intros replaced; [done |].
  rewrite Blank.newline_runs_cons, (visible_cons c t).
  destruct (is_blank c) eqn:Eb.
  - rewrite (Blank.space_is_blank c Eb). destruct replaced; [apply IH |].
    destruct (in_class _ _).
    + rewrite visible_cons. change (Py.is_space 10) with true. apply IH.
    + rewrite visible_cons, (Blank.space_is_blank c Eb). apply IH.
  - by rewrite visible_cons, IH.
Qed.

Lemma visible_lstrip (s : str) : visible (Py.lstrip s) = visible s.
Proof.
  unfold Py.lstrip. induction s as [|c t IH]; [done |].
  cbn [drop_while]. rewrite (visible_cons c t).
  destruct (Py.is_space c) eqn:E; [done |]. by rewrite visible_cons, E.
Qed.

Lemma visible_strip (s : str) : visible (Py.strip s) = visible s.
Proof.
  unfold Py.strip, Py.rstrip, visible.
  rewrite filter_reverse. fold (visible (Py.lstrip (reverse (Py.lstrip s)))).
  rewrite visible_lstrip. unfold visible. rewrite filter_reverse, reverse_involutive.
  apply visible_lstrip.
Qed.

Lemma is_sp_space (c : char) : is_sp c = true -> Py.is_space c = true.
Proof. unfold is_sp. intros H. apply N.eqb_eq in H. by subst. Qed.

End Erase.

(** [remove_tonemark] returns the characters of the text that are not
    tone marks, in their order: nothing else is removed, nothing is added
    or moved. *)
Theorem remove_tonemark_is_filter (tonemarks text : str) :
  remove_tonemark tonemarks text = filter (fun c => c ∉ tonemarks) text.
Proof. apply Erase.erase_chars. Qed.

(** [remove_zw] returns the characters of the text other than U+200B and
    U+200C, in their order. *)
Theorem remove_zw_is_filter (text : str) :
  remove_zw text = filter (fun c => c ∉ _ZERO_WIDTH_CHARS) text.
Proof. apply Erase.erase_chars. Qed.

(** [remove_dup_spaces] returns a text as it is exactly when no two of
    its neighbouring characters are both a space or a newline and it
    neither starts nor ends with whitespace. *)
Theorem remove_dup_spaces_fixed_points (text : str) :
  remove_dup_spaces text = Ok text
  <-> no_adjacent_blanks text = true
      ∧ (forall c, head text = Some c -> Py.is_space c = false)
      ∧ (forall c, last text = Some c -> Py.is_space c = false).
Proof.
  split.
  - intros Hfix.
    destruct (remove_dup_spaces_post text) as (out & Hout & Hadj & Hh & Hl).
    assert (out = text) as -> by congruence. done.
  - intros (Hadj & Hh & Hl). rewrite remove_dup_spaces_spec. f_equal.
    rewrite Blank.replace_while_fixed by (by apply Strip.no_adjacent_contains).
    rewrite Blank.newline_runs_fixed by done.
    by apply Strip.strip_fixed.
Qed.

Lemma remove_dup_spaces_fixed_points_witness :
  remove_dup_spaces [0x0E01; 32; 0x0E02; 10; 0x0E04]%N
  = Ok [0x0E01; 32; 0x0E02; 10; 0x0E04]%N.
Proof.
  apply (proj2 (remove_dup_spaces_fixed_points
                  [0x0E01; 32; 0x0E02; 10; 0x0E04]%N)).
  split; [reflexivity |]. split; intros c [= <-]; reflexivity.
Defined.

(** [remove_dup_spaces] removes or rewrites whitespace only: the
    characters that are not whitespace come back all, in their order. *)
Theorem remove_dup_spaces_keeps_visible (text : str) :
  exists out, remove_dup_spaces text = Ok out ∧ visible out = visible text.
Proof.
  eexists. split; [apply Interior.remove_dup_spaces_squeezed |].
  rewrite Erase.visible_strip, Erase.visible_newline_runs.
  apply Erase.visible_keep_last, Erase.is_sp_space.
Qed.

(** ** Further properties of the normaliser *)

Module Tidy.

(** A substitution with a template always returns. *)
Lemma sub_expand_total (r : regex) (tpl : list titem) (text : str) :
  is_Ok (re_sub r (expand tpl) text).
Proof.
  unfold re_sub, sub_pieces.
  destruct (mapM_total
              (fun p => match p with
                        | Keep c => mret [c]
                        | Hit m => expand tpl m
                        end)
              (scan (S (length text)) r true text)) as [parts ->].
  - intros [c | m] _; apply is_Ok_Ok.
  - apply is_Ok_Ok.
Qed.

Lemma sub_pairs_cons (r : regex) (tpl : list titem)
    (pairs : list (regex * list titem)) (text out : str) :
  re_sub r (expand tpl) text = Ok out ->
  sub_pairs ((r, tpl) :: pairs) text = sub_pairs pairs out.
Proof. intros H. unfold sub_pairs. cbn [foldl mbind result_bind fst snd]. by rewrite H. Qed.

Lemma sub_pairs_total (pairs : list (regex * list titem)) (text : str) :
  is_Ok (sub_pairs pairs text).
Proof.
  revert text. induction pairs as [|[r tpl] pairs IH]; intros text;
    [apply is_Ok_Ok |].
  destruct (sub_expand_total r tpl text) as [out Hout].
  rewrite (sub_pairs_cons r tpl pairs text out Hout). apply IH.
Qed.

Lemma no_adjacent_step (P : N -> bool) (c : char) (t : str) :
  no_adjacent P (c :: t)
  = negb (P c && match t with x :: _ => P x | [] => false end)
    && no_adjacent P t.
Proof. reflexivity. Qed.

Lemma keep_last_head_class (P : N -> bool) (s : str) :
  match keep_last_of_runs P s with x :: _ => P x | [] => false end
  = match s with x :: _ => P x | [] => false end.
Proof.
  induction s as [|c t IH]; [done |]. rewrite keep_last_cons.
  destruct (P c) eqn:Ec; [| done]. cbn [andb].
  destruct t as [|x t]; [done |].
  destruct (P x) eqn:Ex; [| done]. by rewrite IH.
Qed.

(** After the collapse of runs no two neighbours are of the class. *)
Lemma keep_last_no_adjacent (P : N -> bool) (s : str) :
  no_adjacent P (keep_last_of_runs P s) = true.
Proof.
  induction s as [|c t IH]; [done |]. rewrite keep_last_cons.
  destruct (P c && match t with x :: _ => P x | [] => false end) eqn:E; [done |].
  rewrite no_adjacent_step, keep_last_head_class, E. done.
Qed.

Lemma no_adjacent_drop_while (P Q : N -> bool) (s : str) :
  no_adjacent P s = true -> no_adjacent P (drop_while Q s) = true.
Proof.
  induction s as [|c t IH]; [done |]. rewrite no_adjacent_step.
  intros H. cbn [drop_while]. destruct (Q c).
  - apply andb_true_iff in H as [_ H]. by apply IH.
  - by rewrite no_adjacent_step.
Qed.

End Tidy.

(** [remove_repeat_vowels] returns for every text, whatever the
    character tables, and in what it returns no two neighbouring
    characters are both tone marks. *)
Theorem remove_repeat_vowels_returns
    (above_v below_v follow_v lead_v tonemarks : str) (text : str) :
  exists out,
    remove_repeat_vowels above_v below_v follow_v lead_v tonemarks text = Ok out
    ∧ no_adjacent (in_class tonemarks) out = true.
Proof.
  unfold remove_repeat_vowels, reorder_vowels.
  destruct (Tidy.sub_pairs_total
              (_REORDER_PAIRS above_v below_v follow_v tonemarks) text)
    as [y ->].
  cbn [mbind result_bind].
  destruct (Tidy.sub_pairs_total
              (_NOREPEAT_PAIRS above_v below_v follow_v lead_v) y) as [z ->].
  cbn [mbind result_bind]. rewrite tone_pass_spec.
  eexists. split; [reflexivity |]. apply Tidy.keep_last_no_adjacent.
Qed.

(** [normalize] returns for every text, whatever the character tables;
    what it returns has no two neighbouring tone marks and does not start
    with a character of [_DANGLING_CHARS]. *)
Theorem normalize_returns
    (above_v below_v follow_v lead_v tonemarks : str) (text : str) :
  exists out,
    normalize above_v below_v follow_v lead_v tonemarks text = Ok out
    ∧ no_adjacent (in_class tonemarks) out = true
    ∧ (forall c, head out = Some c ->
         c ∉ _DANGLING_CHARS above_v below_v tonemarks).
Proof.
  unfold normalize.
  destruct (remove_dup_spaces_post (remove_zw text)) as (y & -> & _).
  cbn [mbind result_bind].
  unfold remove_repeat_vowels, reorder_vowels.
  destruct (Tidy.sub_pairs_total
              (_REORDER_PAIRS above_v below_v follow_v tonemarks) y)
    as [z ->].
  cbn [mbind result_bind].
  destruct (Tidy.sub_pairs_total
              (_NOREPEAT_PAIRS above_v below_v follow_v lead_v) z) as [w ->].
  cbn [mbind result_bind]. rewrite tone_pass_spec.
  cbn [mbind result_bind]. rewrite dangling_spec.
  eexists. split; [reflexivity |]. split.
  - apply Tidy.no_adjacent_drop_while, Tidy.keep_last_no_adjacent.
  - intros c Hc. apply in_class_false. by eapply Engine.drop_while_head.
Qed.

Lemma normalize_returns_witness :
  exists out,
    normalize Thai.above_vowels Thai.below_vowels Thai.follow_vowels
      Thai.lead_vowels Thai.tonemarks Sample.k_marks = Ok out
    ∧ no_adjacent (in_class Thai.tonemarks) out = true
    ∧ head out ≠ Some 0x0E48%N.
Proof.
  destruct (normalize_returns Thai.above_vowels Thai.below_vowels
              Thai.follow_vowels Thai.lead_vowels Thai.tonemarks
              Sample.k_marks) as (out & H & Hadj & Hd).
  exists out. split; [exact H |]. split; [exact Hadj |].
  intros Hh. apply (Hd _ Hh). apply in_class_true. reflexivity.
Defined.

(** On a text that holds none of the characters the vowel rules, the
    collapse patterns and the trimmer look for, [normalize] does what
    [remove_zw] followed by [remove_dup_spaces] does, and nothing else. *)
Theorem normalize_plain_text
    (above_v below_v follow_v lead_v tonemarks : str) (text : str) :
  Forall (fun c => c ∉ rule_chars above_v below_v follow_v lead_v tonemarks)
         text ->
  normalize above_v below_v follow_v lead_v tonemarks text
  = remove_dup_spaces (remove_zw text).
Proof. apply normalize_idle. Qed.

Lemma normalize_plain_text_witness :
  normalize Thai.above_vowels Thai.below_vowels Thai.follow_vowels
    Thai.lead_vowels Thai.tonemarks Sample.spaced
  = remove_dup_spaces (remove_zw Sample.spaced).
Proof.
  apply (normalize_plain_text Thai.above_vowels Thai.below_vowels
           Thai.follow_vowels Thai.lead_vowels Thai.tonemarks Sample.spaced).
  repeat constructor; apply in_class_false; reflexivity.
Defined.

(** ** The first reordering rule *)

Module Pair.

Lemma pair_match (a : char) (b : bool) (s : str) :
  rmatch (Cat (Lit a) (Lit a)) b s [] accept
  = match s with
    | x :: y :: t => if N.eqb x a && N.eqb y a then Some (t, []) else None
    | _ => None
    end.
Proof.
  cbn [rmatch]. destruct s as [|x [|y t]]; [done | |].
  - by destruct (N.eqb x a).
  - destruct (N.eqb x a); [| done]. by destruct (N.eqb y a).
Qed.

Lemma replace_pair_hit (a c : char) (t : str) :
  Py.replace [a; a] [c] (a :: a :: t) = c :: Py.replace [a; a] [c] t.
Proof.
  unfold Py.replace. cbn [Py.replace_from length Nat.sub].
  rewrite bool_decide_eq_true_2 by (by exists t). reflexivity.
Qed.

Lemma replace_pair_miss (a c x : char) (t : str) :
  ¬ [a; a] `prefix_of` x :: t ->
  Py.replace [a; a] [c] (x :: t) = x :: Py.replace [a; a] [c] t.
Proof.
  intros H. unfold Py.replace. cbn [Py.replace_from].
  by rewrite bool_decide_eq_false_2.
Qed.

(** Substituting a pattern of two equal literals is [str.replace]. *)
Lemma pair_scan (a c : char) (fuel : nat) (b : bool) (s : str) :
  (length s < fuel)%nat ->
  sub_pieces (expand [TChr c]) (scan fuel (Cat (Lit a) (Lit a)) b s)
  = Ok (Py.replace [a; a] [c] s).
Proof.
  revert b s. induction fuel as [|fuel IH]; intros b s Hf; [lia |].
  cbn [scan]. rewrite pair_match.
  destruct s as [|x [|y t]].
  - done.
  - cbn [length] in Hf. rewrite Engine.sub_pieces_keep, IH by (cbn [length]; lia).
    cbn [mbind result_bind]. rewrite replace_pair_miss; [done |].
    intros [k Hk]. discriminate.
  - cbn [length] in Hf. destruct (N.eqb x a && N.eqb y a) eqn:E.
    + apply andb_true_iff in E as [Ex Ey].
      apply N.eqb_eq in Ex. apply N.eqb_eq in Ey. subst x y.
      assert ((0 <? length (a :: a :: t) - length t)%nat = true) as ->
        by (apply Nat.ltb_lt; cbn [length]; lia).
      rewrite Engine.sub_pieces_hit. cbn [expand flat_map mbind result_bind
        mret result_ret app].
      rewrite IH by lia. cbn [mbind result_bind].
      by rewrite replace_pair_hit.
    + rewrite Engine.sub_pieces_keep, IH by (cbn [length]; lia).
      cbn [mbind result_bind].
      rewrite (replace_pair_miss a c x (y :: t)); [done |].
      intros [k Hk]. injection Hk as -> -> _. by rewrite !N.eqb_refl in E.
Qed.

Lemma replace_from_chars (old new : str) (x : char) (s : str) (skip : nat) :
  x ∈ Py.replace_from old new skip s -> x ∈ new ∨ x ∈ s.
Proof.
  revert skip. induction s as [|c t IH]; intros skip; cbn [Py.replace_from].
  - intros H. by apply elem_of_nil in H.
  - destruct skip as [|k].
    + destruct (bool_decide _).
      * intros H. apply elem_of_app in H as [H | H]; [by left |].
        apply IH in H as [H | H]; [by left | right; by apply elem_of_cons; right].
      * intros H. apply elem_of_cons in H as [-> | H];
          [right; apply elem_of_cons; by left |].
        apply IH in H as [H | H]; [by left | right; by apply elem_of_cons; right].
    + intros H. apply IH in H as [H | H];
        [by left | right; by apply elem_of_cons; right].
Qed.

End Pair.

Section Reorder.

Variables above_v below_v follow_v tonemarks : str.

Lemma later_rules_demand :
  Forall (fun pair =>
            demands (in_class (tonemarks ++ [0x0E4C; 0x0E4D; 0x0E45]%N))
                    (fst pair) = true)
         (drop 1 (_REORDER_PAIRS above_v below_v follow_v tonemarks)).
Proof.
  unfold _REORDER_PAIRS. cbn [drop].
  assert (forall cs : str,
            (forall c, c ∈ cs -> c ∈ tonemarks ++ [0x0E4C; 0x0E4D; 0x0E45]%N) ->
            forallb (in_class (tonemarks ++ [0x0E4C; 0x0E4D; 0x0E45]%N)) cs
            = true) as Hall.
  { intros cs H. apply forallb_forall. intros c Hc.
    apply in_class_true, H. by apply list_elem_of_In. }
  repeat apply Forall_cons_2; [| | | | apply Forall_nil_2];
    cbn [fst demands Plus].
  - apply orb_true_iff. left. apply orb_true_iff. left. apply Hall.
    intros c Hc. rewrite !elem_of_app, !elem_of_cons in *. tauto.
  - apply orb_true_iff. left. apply in_class_true.
    rewrite !elem_of_app, !elem_of_cons. tauto.
  - apply orb_true_iff. right. apply orb_true_iff. left. apply Hall.
    intros c Hc. rewrite !elem_of_app. tauto.
  - apply orb_true_iff. right. apply in_class_true.
    rewrite !elem_of_app, !elem_of_cons. tauto.
Qed.

Lemma reorder_first_rule (text : str) :
  0x0E41%N ∉ tonemarks ->
  Forall (fun c => c ∉ tonemarks ++ [0x0E4C; 0x0E4D; 0x0E45]%N) text ->
  reorder_vowels above_v below_v follow_v tonemarks text
  = Ok (Py.replace [0x0E40; 0x0E40]%N [0x0E41%N] text).
Proof.
  intros Hae Ht. unfold reorder_vowels.
  pose proof later_rules_demand as Hd.
  unfold _REORDER_PAIRS in *. cbn [drop] in Hd.
  rewrite (Tidy.sub_pairs_cons _ _ _ text
             (Py.replace [0x0E40; 0x0E40]%N [0x0E41%N] text))
    by (apply Pair.pair_scan; lia).
  apply (Inert.sub_pairs_inert _ _ _ Hd).
  apply Forall_forall. intros c Hc. apply in_class_false.
  apply Pair.replace_from_chars in Hc as [Hc | Hc].
  - apply list_elem_of_singleton in Hc. subst c.
    rewrite !elem_of_app, !elem_of_cons, elem_of_nil.
    intros [H | [H | [H | [H | H]]]]; done.
  - by apply (proj1 (Forall_forall _ _) Ht).
Qed.

End Reorder.

(** On a text without tone marks, Thanthakhat (U+0E4C), Nikhahit
    (U+0E4D) and Lakkhangyao (U+0E45), [reorder_vowels] is
    [text.replace("เเ", "แ")]: each pair of Sara E, left to right and
    without overlap, becomes one Sara Ae, and nothing else changes. *)
Theorem reorder_vowels_double_sara_e
    (above_v below_v follow_v tonemarks : str) (text : str) :
  0x0E41%N ∉ tonemarks ->
  Forall (fun c => c ∉ tonemarks ++ [0x0E4C; 0x0E4D; 0x0E45]%N) text ->
  reorder_vowels above_v below_v follow_v tonemarks text
  = Ok (Py.replace [0x0E40; 0x0E40]%N [0x0E41%N] text).
Proof. apply reorder_first_rule. Qed.

Lemma reorder_vowels_double_sara_e_witness :
  reorder_vowels Thai.above_vowels Thai.below_vowels Thai.follow_vowels
    Thai.tonemarks [0x0E40; 0x0E40; 0x0E40; 0x0E01; 0x0E30]%N
  = Ok (Py.replace [0x0E40; 0x0E40]%N [0x0E41%N]
          [0x0E40; 0x0E40; 0x0E40; 0x0E01; 0x0E30]%N).
Proof.
  apply (reorder_vowels_double_sara_e Thai.above_vowels Thai.below_vowels
           Thai.follow_vowels Thai.tonemarks).
  - apply in_class_false. reflexivity.
  - repeat constructor; apply in_class_false; reflexivity.
Defined.

(** ** The passes that remove repeated vowels and signs *)

Section Chains.

Variable ch : char.
Hypothesis ch_not_space : ch ≠ 32%N.

(** The group of the pattern, [ch] and the spaces after it, and what
    ends the pattern. *)
Let G : regex := Grp 1 (Cat (Lit ch) (Star (Cls [32%N]))).
Let kfin : bool -> str -> list (nat * list N) -> option (str * list (nat * list N)) :=
  fun b s g => rmatch (Lit ch) b s g accept.

Lemma space_class (c : char) : in_class [32%N] c = is_sp c.
Proof.
  unfold is_sp. destruct (N.eqb c 32) eqn:E.
  - apply N.eqb_eq in E. subst. by apply in_class_true, list_elem_of_singleton.
  - apply N.eqb_neq in E. apply in_class_false. intros H.
    by apply list_elem_of_singleton in H.
Qed.

Lemma space_not_ch (c : char) : is_sp c = true -> N.eqb c ch = false.
Proof.
  unfold is_sp. intros H. apply N.eqb_eq in H. subst.
  apply N.eqb_neq. congruence.
Qed.

Lemma follows_cons (c : char) (t : str) :
  follows ch (c :: t) = if is_sp c then follows ch t else N.eqb c ch.
Proof. unfold follows. cbn [drop_while]. by destruct (is_sp c). Qed.

Lemma collapse_cons (d : bool) (c : char) (t : str) :
  collapse_chains ch d (c :: t)
  = if N.eqb c ch then
      if follows ch t then collapse_chains ch true t
      else c :: collapse_chains ch false t
    else if d && is_sp c then collapse_chains ch true t
    else c :: collapse_chains ch false t.
Proof. reflexivity. Qed.

Lemma after_chain_cons (c : char) (t : str) :
  after_chain ch (c :: t)
  = if is_sp c then after_chain ch t
    else if N.eqb c ch then Some (from_option id t (after_chain ch t))
    else None.
Proof. reflexivity. Qed.

Lemma follows_after (t : str) :
  follows ch t = match after_chain ch t with Some _ => true | None => false end.
Proof.
  induction t as [|c t IH]; [done |].
  rewrite follows_cons, after_chain_cons.
  destruct (is_sp c); [exact IH |]. by destruct (N.eqb c ch).
Qed.

Lemma after_chain_skip (t : str) :
  after_chain ch t
  = match drop_while (in_class [32%N]) t with
    | c :: t' =>
        if N.eqb c ch then Some (from_option id t' (after_chain ch t'))
        else None
    | [] => None
    end.
Proof.
  induction t as [|c t IH]; [done |].
  rewrite after_chain_cons. cbn [drop_while]. rewrite space_class.
  destruct (is_sp c); [exact IH | done].
Qed.

Lemma after_chain_length (t r : str) :
  after_chain ch t = Some r -> (length r < length t)%nat.
Proof.
  revert r. induction t as [|c t IH]; intros r; [done |].
  rewrite after_chain_cons. destruct (is_sp c).
  - intros H. apply IH in H. cbn [length]. lia.
  - destruct (N.eqb c ch); [| done].
    destruct (after_chain ch t) as [r' |]; cbn [from_option id].
    + intros [= <-]. specialize (IH r' eq_refl). cbn [length]. lia.
    + intros [= <-]. cbn [length]. lia.
Qed.

(** The spaces and occurrences dropped after a chain has begun, up to
    the last occurrence of the chain. *)
Lemma collapse_after (t r : str) :
  after_chain ch t = Some r ->
  collapse_chains ch true t = ch :: collapse_chains ch false r.
Proof.
  revert r. induction t as [|c t IH]; intros r; [done |].
  rewrite after_chain_cons, collapse_cons.
  destruct (N.eqb c ch) eqn:Ec.
  - apply N.eqb_eq in Ec. subst c.
    assert (is_sp ch = false) as ->.
    { unfold is_sp. by apply N.eqb_neq. }
    rewrite follows_after.
    destruct (after_chain ch t) as [r' |]; cbn [from_option id].
    + intros [= <-]. by apply IH.
    + by intros [= <-].
  - destruct (is_sp c); [| done]. cbn [andb]. apply IH.
Qed.

(** *** The matcher on the pattern *)

Lemma star_cls_commit (cs : str)
    (k : bool -> str -> list (nat * list N) -> option (str * list (nat * list N)))
    (b : bool) (s : str) (g : list (nat * list N)) :
  (forall b' c t g', in_class cs c = true -> k b' (c :: t) g' = None) ->
  (forall b1 b2 s' g', k b1 s' g' = k b2 s' g') ->
  star_cls cs k b s g = k b (drop_while (in_class cs) s) g.
Proof.
  intros Hdead Hb. revert b. induction s as [|c t IH]; intros b; [done |].
  cbn [star_cls drop_while]. destruct (in_class cs c) eqn:E; [| done].
  rewrite IH, (Hdead b c t g E), (Hb false b).
  by destruct (k b _ g).
Qed.

Lemma G_step (b : bool) (c : char) (t : str) (g : list (nat * list N))
    (k : bool -> str -> list (nat * list N) -> option (str * list (nat * list N))) :
  rmatch G b (c :: t) g k
  = if N.eqb c ch
    then star_cls [32%N]
           (fun b' s' g' =>
              k b' s' ((1%nat, take (length (c :: t) - length s') (c :: t)) :: g'))
           false t g
    else None.
Proof.
  unfold G. cbn [rmatch]. destruct (N.eqb c ch); [| done].
  by apply Engine.iterate_cls.
Qed.

Lemma G_nil (b : bool) (g : list (nat * list N))
    (k : bool -> str -> list (nat * list N) -> option (str * list (nat * list N))) :
  rmatch G b [] g k = None.
Proof. reflexivity. Qed.

Lemma iterate_step (n : nat) (b : bool) (s : str) (g : list (nat * list N)) :
  iterate (rmatch G) kfin (S n) b s g
  = match rmatch G b s g (fun b' s' g' => iterate (rmatch G) kfin n b' s' g') with
    | Some res => Some res
    | None => kfin b s g
    end.
Proof. reflexivity. Qed.

Lemma kfin_cons (b : bool) (c : char) (t : str) (g : list (nat * list N)) :
  kfin b (c :: t) g = if N.eqb c ch then Some (t, g) else None.
Proof. reflexivity. Qed.

Lemma iterate_dead (n : nat) (b : bool) (c : char) (t : str)
    (g : list (nat * list N)) :
  N.eqb c ch = false -> iterate (rmatch G) kfin n b (c :: t) g = None.
Proof.
  intros E. destruct n as [|n].
  - cbn [iterate]. by rewrite kfin_cons, E.
  - by rewrite iterate_step, G_step, kfin_cons, E.
Qed.

Lemma iterate_flag (n : nat) (b1 b2 : bool) (s : str) (g : list (nat * list N)) :
  iterate (rmatch G) kfin n b1 s g = iterate (rmatch G) kfin n b2 s g.
Proof.
  destruct s as [|c t]; destruct n as [|n]; reflexivity.
Qed.

(** The repetition of the group followed by the last [ch]: as many
    occurrences as the chain has. *)
Lemma iterate_chain (n : nat) (s : str) (b : bool) (g : list (nat * list N)) :
  (length s <= n)%nat ->
  fst <$> iterate (rmatch G) kfin n b s g
  = match s with
    | c :: t =>
        if N.eqb c ch then Some (from_option id t (after_chain ch t)) else None
    | [] => None
    end.
Proof.
  revert s b g. induction n as [|n IH]; intros s b g Hn.
  - destruct s; [done | cbn [length] in Hn; lia].
  - destruct s as [|c t]; [done |]. cbn [length] in Hn.
    rewrite iterate_step, G_step, kfin_cons.
    destruct (N.eqb c ch) eqn:Ec; [| done].
    rewrite star_cls_commit.
    + pose proof (IH (drop_while (in_class [32%N]) t) false
                    ((1%nat,
                      take (length (c :: t)
                            - length (drop_while (in_class [32%N]) t)) (c :: t))
                     :: g)) as Hbody.
      rewrite <- after_chain_skip in Hbody.
      destruct (iterate _ _ n _ _ _) as [[r g'] |].
      * cbn in Hbody |- *. rewrite <- Hbody; [done |].
        pose proof (Engine.drop_while_length (in_class [32%N]) t). lia.
      * cbn in Hbody |- *. rewrite <- Hbody; [done |].
        pose proof (Engine.drop_while_length (in_class [32%N]) t). lia.
    + intros b' c' t' g' Hc'. apply iterate_dead, space_not_ch.
      by rewrite <- space_class.
    + intros b1 b2 s' g'. apply iterate_flag.
Qed.

Lemma chain_pattern (b : bool) (s : str) :
  rmatch (Cat (Plus (Grp 1 (Cat (Lit ch) (Star (Cls [32%N]))))) (Lit ch))
         b s [] accept
  = rmatch G b s []
      (fun b1 s1 g1 => iterate (rmatch G) kfin (length s1) b1 s1 g1).
Proof. reflexivity. Qed.

(** A match of the pattern at the front of [s]: [s] begins a chain. *)
Lemma chain_rmatch (b : bool) (s : str) :
  fst <$> rmatch (Cat (Plus (Grp 1 (Cat (Lit ch) (Star (Cls [32%N])))))
                      (Lit ch)) b s [] accept
  = match s with
    | c :: t => if N.eqb c ch then after_chain ch t else None
    | [] => None
    end.
Proof.
  rewrite chain_pattern. destruct s as [|c t]; [done |].
  rewrite G_step. destruct (N.eqb c ch); [| done].
  rewrite star_cls_commit.
  - rewrite iterate_chain by done. by rewrite <- after_chain_skip.
  - intros b' c' t' g' Hc'. apply iterate_dead, space_not_ch.
    by rewrite <- space_class.
  - intros b1 b2 s' g'. apply iterate_flag.
Qed.

Lemma chain_scan (fuel : nat) (b : bool) (s : str) :
  (length s < fuel)%nat ->
  sub_pieces (expand [TChr ch])
    (scan fuel (Cat (Plus (Grp 1 (Cat (Lit ch) (Star (Cls [32%N])))))
                    (Lit ch)) b s)
  = Ok (collapse_chains ch false s).
Proof.
  revert b s. induction fuel as [|fuel IH]; intros b s Hf; [lia |].
  cbn [scan]. pose proof (chain_rmatch b s) as Hm.
  destruct (rmatch _ b s [] accept) as [[s' g] |]; cbn in Hm.
  - destruct s as [|c t]; [done |]. cbn [length] in Hf.
    destruct (N.eqb c ch) eqn:Ec; [| done].
    apply N.eqb_eq in Ec. subst c. symmetry in Hm.
    pose proof (after_chain_length t s' Hm) as Hl.
    assert ((0 <? length (ch :: t) - length s')%nat = true) as ->
      by (apply Nat.ltb_lt; cbn [length]; lia).
    rewrite Engine.sub_pieces_hit.
    cbn [expand flat_map mbind result_bind mret result_ret app].
    rewrite IH by lia. cbn [mbind result_bind].
    rewrite collapse_cons, N.eqb_refl, follows_after, Hm.
    by rewrite (collapse_after t s' Hm).
  - destruct s as [|c t]; [done |]. cbn [length] in Hf.
    rewrite Engine.sub_pieces_keep, IH by lia. cbn [mbind result_bind].
    rewrite collapse_cons. destruct (N.eqb c ch); [| done].
    by rewrite follows_after, <- Hm.
Qed.

(** *** The collapsed text *)

Lemma collapse_subset (d : bool) (s : str) (x : char) :
  x ∈ collapse_chains ch d s -> x ∈ s.
Proof.
  revert d. induction s as [|c t IH]; intros d; [done |].
  rewrite collapse_cons.
  destruct (N.eqb c ch); [destruct (follows ch t) | destruct (d && is_sp c)];
    intros H;
    try (apply elem_of_cons; right; by eapply IH);
    (apply elem_of_cons in H as [-> | H];
       [apply elem_of_cons; by left
       | apply elem_of_cons; right; by eapply IH]).
Qed.

Lemma chain_free_cons (c : char) (t : str) :
  chain_free ch (c :: t)
  = negb (N.eqb c ch && follows ch t) && chain_free ch t.
Proof. reflexivity. Qed.

Lemma collapse_fixed (s : str) :
  chain_free ch s = true -> collapse_chains ch false s = s.
Proof.
  induction s as [|c t IH]; [done |]. rewrite chain_free_cons, collapse_cons.
  intros H. apply andb_true_iff in H as [Hc Ht]. rewrite (IH Ht).
  destruct (N.eqb c ch); [| done]. cbn [andb] in Hc.
  by destruct (follows ch t).
Qed.

(** What is collapsed holds no chain; a chain that was about to begin
    still is. *)
Lemma collapse_chain_free (d : bool) (s : str) :
  (d = true -> follows ch s = true) ->
  chain_free ch (collapse_chains ch d s) = true
  ∧ follows ch (collapse_chains ch d s) = follows ch s.
Proof.
  revert d. induction s as [|c t IH]; intros d Hd; [done |].
  rewrite collapse_cons, (follows_cons c t).
  destruct (N.eqb c ch) eqn:Ec.
  - apply N.eqb_eq in Ec. subst c.
    assert (is_sp ch = false) as Hsp by (unfold is_sp; by apply N.eqb_neq).
    rewrite Hsp. destruct (follows ch t) eqn:Ef.
    + destruct (IH true) as [H1 H2]; [done |]. split; [done |].
      by rewrite H2.
    + destruct (IH false) as [H1 H2]; [done |].
      by rewrite chain_free_cons, follows_cons, N.eqb_refl, H1, H2, Hsp.
  - destruct (is_sp c) eqn:Es.
    + destruct d; cbn [andb].
      * apply IH. intros _. specialize (Hd eq_refl).
        by rewrite follows_cons, Es in Hd.
      * destruct (IH false) as [H1 H2]; [done |].
        by rewrite chain_free_cons, follows_cons, Ec, Es, H1.
    + rewrite andb_false_r.
      destruct (IH false) as [H1 H2]; [done |].
      by rewrite chain_free_cons, follows_cons, Ec, Es, H1.
Qed.

Lemma collapse_twice (s : str) :
  collapse_chains ch false (collapse_chains ch false s)
  = collapse_chains ch false s.
Proof. apply collapse_fixed, collapse_chain_free. done. Qed.

End Chains.

Section NoRepeat.

Variables above_v below_v follow_v lead_v tonemarks : str.

Let rules : str := rule_chars above_v below_v follow_v lead_v tonemarks.
Let norepeat : str := _NOREPEAT_CHARS above_v below_v follow_v lead_v.

(** The pair of one character of [_NOREPEAT_CHARS]. *)
Let pair_of (ch : char) : regex * list titem :=
  (Cat (Plus (Grp 1 (Cat (Lit ch) (Star (Cls [32%N]))))) (Lit ch), [TChr ch]).

Lemma norepeat_pass (ch : char) (text : str) :
  ch ≠ 32%N ->
  re_sub (fst (pair_of ch)) (expand (snd (pair_of ch))) text
  = Ok (collapse_chains ch false text).
Proof. intros Hch. unfold re_sub. apply chain_scan; [done | lia]. Qed.

Lemma norepeat_passes (l : str) (text : str) :
  32%N ∉ l ->
  Forall2 (fun ch pair =>
             re_sub (fst pair) (expand (snd pair)) text
             = Ok (collapse_chains ch false text))
          l (map pair_of l).
Proof.
  induction l as [|ch l IH]; intros Hsp; [constructor |].
  apply not_elem_of_cons in Hsp as [Hne Hsp]. constructor; [| by apply IH].
  apply norepeat_pass. congruence.
Qed.

(** *** A text with one kind of rule character *)

Variable ch : char.
Hypothesis ch_not_space : ch ≠ 32%N.
Hypothesis ch_norepeat : ch ∈ norepeat.
Hypothesis ch_plain :
  ch ∉ tonemarks ++ [0x0E40; 0x0E45; 0x0E4C; 0x0E4D]%N.

(** The rule characters other than [ch]. *)
Let other : N -> bool := fun c => in_class rules c && negb (N.eqb c ch).

Lemma other_true (c : char) : c ∈ rules -> c ≠ ch -> other c = true.
Proof.
  intros Hc Hne. unfold other. apply andb_true_iff. split.
  - by apply in_class_true.
  - apply negb_true_iff. by apply N.eqb_neq.
Qed.

Lemma other_false (c : char) : c = ch ∨ c ∉ rules -> other c = false.
Proof.
  unfold other. intros [-> | Hc].
  - by rewrite N.eqb_refl, andb_false_r.
  - apply in_class_false in Hc. by rewrite Hc.
Qed.

Lemma tonemark_other (c : char) : c ∈ tonemarks -> other c = true.
Proof.
  intros Hc. apply other_true.
  - unfold rules, rule_chars. rewrite !elem_of_app. tauto.
  - intros ->. apply ch_plain. apply elem_of_app. by left.
Qed.

Lemma sign_other (c : char) :
  c ∈ [0x0E40; 0x0E45; 0x0E4C; 0x0E4D]%N -> other c = true.
Proof.
  intros Hc. apply other_true.
  - unfold rules, rule_chars. rewrite !elem_of_app.
    do 5 right. rewrite !elem_of_cons in *. tauto.
  - intros ->. apply ch_plain. apply elem_of_app. by right.
Qed.

Lemma norepeat_other (c : char) : c ∈ norepeat -> c ≠ ch -> other c = true.
Proof.
  intros Hc Hne. apply other_true; [| done].
  unfold norepeat, _NOREPEAT_CHARS, rules, rule_chars in *.
  rewrite !elem_of_app, !elem_of_cons in *. tauto.
Qed.

Lemma reorder_other :
  Forall (fun pair => demands other (fst pair) = true)
         (_REORDER_PAIRS above_v below_v follow_v tonemarks).
Proof.
  unfold _REORDER_PAIRS.
  assert (forallb other tonemarks = true) as Htm.
  { apply forallb_forall. intros c Hc. apply tonemark_other.
    by apply list_elem_of_In. }
  repeat apply Forall_cons_2; [| | | | | apply Forall_nil_2];
    cbn [fst demands Plus].
  - apply orb_true_iff. left. apply sign_other.
    rewrite !elem_of_cons. tauto.
  - apply orb_true_iff. left. apply orb_true_iff. left.
    rewrite forallb_app, Htm. cbn [forallb andb]. rewrite andb_true_r.
    apply sign_other. rewrite !elem_of_cons. tauto.
  - apply orb_true_iff. left. apply sign_other.
    rewrite !elem_of_cons. tauto.
  - apply orb_true_iff. right. apply orb_true_iff. by left.
  - apply orb_true_iff. right. apply sign_other.
    rewrite !elem_of_cons. tauto.
Qed.

Lemma norepeat_fold (l : str) (text : str) :
  (forall c, c ∈ l -> c ∈ norepeat) ->
  Forall (fun c => other c = false) text ->
  sub_pairs (map pair_of l) text
  = Ok (if bool_decide (ch ∈ l) then collapse_chains ch false text else text).
Proof.
  revert text. induction l as [|c l IH]; intros text Hl Ht.
  - by rewrite bool_decide_eq_false_2 by apply not_elem_of_nil.
  - cbn [map].
    assert (forall x, x ∈ l -> x ∈ norepeat) as Hl'
      by (intros x Hx; apply Hl, elem_of_cons; by right).
    destruct (decide (c = ch)) as [-> | Hne].
    + etrans;
        [apply (Tidy.sub_pairs_cons _ _ (map pair_of l) text
                  (collapse_chains ch false text));
         by apply norepeat_pass |].
      rewrite IH; [| done |].
      * rewrite (bool_decide_eq_true_2 (ch ∈ ch :: l))
          by (apply elem_of_cons; by left).
        destruct (bool_decide (ch ∈ l)); [| done].
        by rewrite collapse_twice.
      * apply Forall_forall. intros x Hx.
        apply collapse_subset in Hx. by apply (proj1 (Forall_forall _ _) Ht).
    + etrans; [apply (Tidy.sub_pairs_cons _ _ (map pair_of l) text text) |].
      * apply (Inert.sub_inert other); [| done].
        cbn [fst demands Plus]. apply orb_true_iff. right.
        apply norepeat_other; [| done]. apply Hl, elem_of_cons. by left.
      * rewrite IH by done.
        rewrite (bool_decide_ext (ch ∈ c :: l) (ch ∈ l)); [done |].
        rewrite elem_of_cons. split; [intros [? | ?]; [congruence | done] | tauto].
Qed.

Lemma single_kind (text : str) :
  Forall (fun c => c = ch ∨ c ∉ rules) text ->
  remove_repeat_vowels above_v below_v follow_v lead_v tonemarks text
  = Ok (collapse_chains ch false text).
Proof.
  intros Ht.
  assert (Forall (fun c => other c = false) text) as Ht'.
  { eapply Forall_impl; [exact Ht |]. intros c Hc. by apply other_false. }
  unfold remove_repeat_vowels, reorder_vowels.
  rewrite (Inert.sub_pairs_inert other) by (apply reorder_other || done).
  cbn [mbind result_bind].
  pose proof (norepeat_fold norepeat text (fun c H => H) Ht') as Hfold.
  unfold norepeat at 1 in Hfold. unfold _NOREPEAT_PAIRS. fold pair_of.
  rewrite Hfold, bool_decide_eq_true_2 by done.
  cbn [mbind result_bind].
  apply (Inert.sub_inert other).
  - cbn [_RE_TONEMARKS demands Plus]. apply orb_true_iff. left.
    apply forallb_forall. intros c Hc. apply tonemark_other.
    by apply list_elem_of_In.
  - apply Forall_forall. intros x Hx. apply collapse_subset in Hx.
    by apply (proj1 (Forall_forall _ _) Ht').
Qed.

End NoRepeat.

(** Each pass of [_NOREPEAT_PAIRS] returns, and reduces every chain of
    its character with nothing but spaces between the occurrences to one
    occurrence: the spaces inside the chain are removed with the repeated
    characters, the rest of the text is kept. *)
Theorem norepeat_pass_collapses_chains
    (above_v below_v follow_v lead_v : str) (text : str) :
  32%N ∉ _NOREPEAT_CHARS above_v below_v follow_v lead_v ->
  Forall2 (fun ch pair =>
             re_sub (fst pair) (expand (snd pair)) text
             = Ok (collapse_chains ch false text))
          (_NOREPEAT_CHARS above_v below_v follow_v lead_v)
          (_NOREPEAT_PAIRS above_v below_v follow_v lead_v).
Proof. apply norepeat_passes. Qed.

Lemma norepeat_pass_collapses_chains_witness :
  Forall2 (fun ch pair =>
             re_sub (fst pair) (expand (snd pair)) Sample.ka_chain
             = Ok (collapse_chains ch false Sample.ka_chain))
          (_NOREPEAT_CHARS Thai.above_vowels Thai.below_vowels
             Thai.follow_vowels Thai.lead_vowels)
          (_NOREPEAT_PAIRS Thai.above_vowels Thai.below_vowels
             Thai.follow_vowels Thai.lead_vowels).
Proof.
  apply (norepeat_pass_collapses_chains Thai.above_vowels Thai.below_vowels
           Thai.follow_vowels Thai.lead_vowels Sample.ka_chain).
  apply in_class_false. reflexivity.
Defined.

(** On a text whose only rule character is one character [ch] of
    [_NOREPEAT_CHARS] (not a tone mark, Sara E, Lakkhangyao, Thanthakhat
    or Nikhahit), [remove_repeat_vowels] reduces every chain of [ch] with
    nothing but spaces between the occurrences to one [ch], removing the
    spaces inside the chain, and changes nothing else; what it returns
    holds no such chain. *)
Theorem remove_repeat_vowels_single_kind
    (above_v below_v follow_v lead_v tonemarks : str) (ch : char) (text : str) :
  ch ≠ 32%N ->
  ch ∈ _NOREPEAT_CHARS above_v below_v follow_v lead_v ->
  ch ∉ tonemarks ++ [0x0E40; 0x0E45; 0x0E4C; 0x0E4D]%N ->
  Forall (fun c => c = ch
                   ∨ c ∉ rule_chars above_v below_v follow_v lead_v tonemarks)
         text ->
  remove_repeat_vowels above_v below_v follow_v lead_v tonemarks text
  = Ok (collapse_chains ch false text)
  ∧ chain_free ch (collapse_chains ch false text) = true.
Proof.
  intros Hsp Hin Hplain Ht. split.
  - by apply single_kind.
  - by apply collapse_chain_free.
Qed.

Lemma remove_repeat_vowels_single_kind_witness :
  remove_repeat_vowels Thai.above_vowels Thai.below_vowels Thai.follow_vowels
    Thai.lead_vowels Thai.tonemarks Sample.ka_chain
  = Ok (collapse_chains 0x0E30%N false Sample.ka_chain)
  ∧ chain_free 0x0E30%N (collapse_chains 0x0E30%N false Sample.ka_chain) = true.
Proof.
  apply (remove_repeat_vowels_single_kind Thai.above_vowels Thai.below_vowels
           Thai.follow_vowels Thai.lead_vowels Thai.tonemarks 0x0E30%N
           Sample.ka_chain).
  - discriminate.
  - apply in_class_true. reflexivity.
  - apply in_class_false. reflexivity.
  - repeat (apply Forall_cons_2 || apply Forall_nil_2);
      first [left; reflexivity | right; apply in_class_false; reflexivity].
Defined.
